(** * Idra agent fleet supervisor: the wire codec, the registry, the manifest
      loader and the runner life cycle, embedded from the Go sources. *)

From Stdlib Require Import ZArith List Lia Bool String Ascii.
From Stdlib Require Import Strings.Byte DecimalString.
From Stdlib Require DecimalPos DecimalZ.
From stdpp Require Import base option list gmap strings fin_maps.

Import ListNotations.
Local Open Scope Z_scope.

(** ** Bytes

    A Go [byte] is [Byte.byte]; a [[]byte] is a [list byte]; a Go [string] is a
    byte sequence too, kept as a Rocq [string] (one 8-bit character per byte),
    so that [string(val)] and [[]byte(s)] are the two Standard Library
    conversions. *)

Definition byte_to_Z (b : byte) : Z := Z.of_N (Byte.to_N b).

(** [byte(v)]: the conversion keeps the low eight bits. *)
Definition byte_of_Z (v : Z) : byte :=
  match Byte.of_N (Z.to_N (v mod 256)) with
  | Some b => b
  | None => x00
  end.

Definition len {A} (l : list A) : Z := Z.of_nat (length l).

(** ** protowire (google.golang.org/protobuf/encoding/protowire)

    The codec of [internal/agent/pb/codec.go] is written over this package.
    Its functions are embedded here with the package's names, signatures and
    error codes: [Consume*] return the number of bytes read, or a negative
    error code. *)

Definition VarintType : Z := 0.
Definition Fixed64Type : Z := 1.
Definition BytesType : Z := 2.
Definition StartGroupType : Z := 3.
Definition EndGroupType : Z := 4.
Definition Fixed32Type : Z := 5.

Definition MinValidNumber : Z := 1.
Definition MaxInt32 : Z := 2147483647.
Definition DefaultRecursionLimit : Z := 10000.

Definition errCodeTruncated : Z := -1.
Definition errCodeFieldNumber : Z := -2.
Definition errCodeOverflow : Z := -3.
Definition errCodeReserved : Z := -4.
Definition errCodeEndGroup : Z := -5.
Definition errCodeRecursionDepth : Z := -6.

(** The bytes [AppendVarint] adds for [v]: seven bits a byte, low group first,
    the high bit set on every byte but the last; [k] counts the continuation
    bytes still allowed (nine for a [uint64]). *)
Fixpoint varint_bytes (k : nat) (v : Z) : list byte :=
  match k with
  | O => [byte_of_Z v]
  | S k' =>
      if v <? 128 then [byte_of_Z v]
      else byte_of_Z (Z.lor (Z.land v 127) 128) :: varint_bytes k' (Z.shiftr v 7)
  end.

Definition AppendVarint (b : list byte) (v : Z) : list byte :=
  b ++ varint_bytes 9 v.

(** [ConsumeVarint], unrolled ten times in the package: byte [i] adds its low
    seven bits at [7 * i]; the tenth byte may only be 0 or 1. *)
Fixpoint consumeVarint_at (k : nat) (shift v n : Z) (b : list byte) : Z * Z :=
  match b with
  | [] => (0, errCodeTruncated)
  | y :: b' =>
      let y := byte_to_Z y in
      match k with
      | O => if y <? 2 then (v + Z.shiftl y shift, n + 1) else (0, errCodeOverflow)
      | S k' =>
          if y <? 128 then (v + Z.shiftl y shift, n + 1)
          else consumeVarint_at k' (shift + 7) (v + Z.shiftl (y - 128) shift) (n + 1) b'
      end
  end.

Definition ConsumeVarint (b : list byte) : Z * Z := consumeVarint_at 9 0 0 0 b.

Definition EncodeTag (num typ : Z) : Z := Z.lor (Z.shiftl num 3) (Z.land typ 7).

Definition DecodeTag (x : Z) : Z * Z :=
  if MaxInt32 <? Z.shiftr x 3 then (-1, 0) else (Z.shiftr x 3, Z.land x 7).

Definition AppendTag (b : list byte) (num typ : Z) : list byte :=
  AppendVarint b (EncodeTag num typ).

Definition ConsumeTag (b : list byte) : Z * Z * Z :=
  let '(v, n) := ConsumeVarint b in
  if n <? 0 then (0, 0, n)
  else
    let '(num, typ) := DecodeTag v in
    if num <? MinValidNumber then (0, 0, errCodeFieldNumber) else (num, typ, n).

Definition AppendBytes (b v : list byte) : list byte :=
  AppendVarint b (len v) ++ v.

(** [b[n:]] for an [n] already known to be in range (inside the package). *)
Definition from (n : Z) (b : list byte) : list byte := drop (Z.to_nat n) b.

Definition ConsumeBytes (b : list byte) : list byte * Z :=
  let '(m, n) := ConsumeVarint b in
  if n <? 0 then ([], n)
  else if len (from n b) <? m then ([], errCodeTruncated)
  else (take (Z.to_nat m) (from n b), n + m).

Definition ConsumeFixed32 (b : list byte) : Z := if len b <? 4 then errCodeTruncated else 4.
Definition ConsumeFixed64 (b : list byte) : Z := if len b <? 8 then errCodeTruncated else 8.

(** [ConsumeFieldValue] goes through [consumeFieldValueD] with a depth limit.
    A group is a tag-delimited run of fields; the package reads it with a loop
    that calls itself on nested groups.  Every call and every iteration first
    reads a tag, so both recursions are bounded by the input: [fuel] counts
    them, and [None] stands for fuel that ran out. *)
Fixpoint consumeFieldValueD (fuel : nat) (num typ : Z) (b : list byte) (depth : Z)
    {struct fuel} : option Z :=
  if typ =? VarintType then Some (snd (ConsumeVarint b))
  else if typ =? Fixed32Type then Some (ConsumeFixed32 b)
  else if typ =? Fixed64Type then Some (ConsumeFixed64 b)
  else if typ =? BytesType then Some (snd (ConsumeBytes b))
  else if typ =? StartGroupType then
    if depth <? 0 then Some errCodeRecursionDepth
    else
      match fuel with
      | O => None
      | S fuel' => consumeGroup fuel' num b depth (len b)
      end
  else if typ =? EndGroupType then Some errCodeEndGroup
  else Some errCodeReserved
with consumeGroup (fuel : nat) (num : Z) (b : list byte) (depth n0 : Z)
    {struct fuel} : option Z :=
  match fuel with
  | O => None
  | S fuel' =>
      let '(num2, typ2, n) := ConsumeTag b in
      if n <? 0 then Some n
      else
        let b := from n b in
        if typ2 =? EndGroupType then
          if num =? num2 then Some (n0 - len b) else Some errCodeEndGroup
        else
          match consumeFieldValueD fuel' num2 typ2 b (depth - 1) with
          | None => None
          | Some n =>
              if n <? 0 then Some n else consumeGroup fuel' num (from n b) depth n0
          end
  end.

Definition ConsumeFieldValue (num typ : Z) (b : list byte) : option Z :=
  consumeFieldValueD (2 * length b + 2) num typ b DefaultRecursionLimit.

(** ** Go errors

    [errors.New] and [fmt.Errorf] without [%w] give a plain message;
    [fmt.Errorf] with [%w] keeps the wrapped cause next to the full text. *)
Inductive error : Type :=
  | errorString (s : string)
  | wrapError (msg : string) (err : error).

Definition Error (e : error) : string :=
  match e with
  | errorString s => s
  | wrapError msg _ => msg
  end.

(** [fmt.Errorf(prefix + "%w", err)]. *)
Definition Errorf_w (prefix : string) (err : error) : error :=
  wrapError (prefix +:+ Error err) err.

Definition Unwrap (e : error) : option error :=
  match e with
  | errorString _ => None
  | wrapError _ err => Some err
  end.

(** [%d] of an integer. *)
Definition itoa (z : Z) : string := NilZero.string_of_int (Z.to_int z).

(** ** What a call may end in

    [Ok] and [Err] are the two ways the Go function returns; [Panic] is a
    slice bound out of range; [OutOfFuel] is a loop of the embedding that was
    cut short. *)
Inductive result (A : Type) : Type :=
  | Ok (a : A)
  | Err (e : error)
  | Panic
  | OutOfFuel.
Arguments Ok {A} a.
Arguments Err {A} e.
Arguments Panic {A}.
Arguments OutOfFuel {A}.

Definition bind {A B} (r : result A) (k : A -> result B) : result B :=
  match r with
  | Ok a => k a
  | Err e => Err e
  | Panic => Panic
  | OutOfFuel => OutOfFuel
  end.

Notation "'let!' x ':=' r 'in' k" := (bind r (fun x => k))
  (at level 10, x name, r at level 100, k at level 200).

(** [data[n:]], which panics unless [0 <= n <= len(data)]. *)
Definition slice_from (data : list byte) (n : Z) : result (list byte) :=
  if (0 <=? n) && (n <=? len data) then Ok (drop (Z.to_nat n) data) else Panic.

Definition fueled {A} (o : option A) : result A :=
  match o with
  | Some a => Ok a
  | None => OutOfFuel
  end.

(** ** Messages ([internal/agent/pb/types.go]) *)

(** A Go map that may be [nil]: [None] is the nil map, [Some m] an allocated
    one.  Reading treats both alike. *)
Definition entries (md : option (gmap string string)) : gmap string string :=
  default ∅ md.

Module TaskRequest.
Record t : Type := mk {
  TaskId : string;
  Skill : string;
  Input : string;
  Metadata : option (gmap string string)
}.
Definition zero : t := mk "" "" "" None.
End TaskRequest.

Module TaskEvent.
Record t : Type := mk {
  TaskId : string;
  Type_ : string;
  Payload : string
}.
Definition zero : t := mk "" "" "".
End TaskEvent.

Module HealthResponse.
Record t : Type := mk {
  Status : string;
  AgentName : string
}.
Definition zero : t := mk "" "".
End HealthResponse.

(** ** The codec ([internal/agent/pb/codec.go]) *)

Definition appendString (b : list byte) (fieldNum : Z) (s : string) : list byte :=
  if String.eqb s "" then b
  else
    let b := AppendTag b fieldNum BytesType in
    AppendBytes b (list_byte_of_string s).

Definition appendBytes (b : list byte) (fieldNum : Z) (data : list byte) : list byte :=
  let b := AppendTag b fieldNum BytesType in
  AppendBytes b data.

(** The body of [for k, v := range m.Metadata]. *)
Definition appendEntry (b : list byte) (kv : string * string) : list byte :=
  let entry := appendString [] 1 kv.1 in
  let entry := appendString entry 2 kv.2 in
  appendBytes b 4 entry.

(** Go leaves the order of [range] over a map open: [range] is the order this
    call happened to take, a permutation of the map's entries. *)
Definition marshalTaskRequest (range : list (string * string)) (m : TaskRequest.t)
    : list byte :=
  let b := [] in
  let b := appendString b 1 (TaskRequest.TaskId m) in
  let b := appendString b 2 (TaskRequest.Skill m) in
  let b := appendString b 3 (TaskRequest.Input m) in
  foldl appendEntry b range.

Definition marshalTaskEvent (m : TaskEvent.t) : list byte :=
  let b := [] in
  let b := appendString b 1 (TaskEvent.TaskId m) in
  let b := appendString b 2 (TaskEvent.Type_ m) in
  let b := appendString b 3 (TaskEvent.Payload m) in
  b.

Definition marshalHealthResponse (m : HealthResponse.t) : list byte :=
  let b := [] in
  let b := appendString b 1 (HealthResponse.Status m) in
  let b := appendString b 2 (HealthResponse.AgentName m) in
  b.

(** [unmarshalMapEntry]: the loop [for len(data) > 0] with the two results
    [k] and [v] as its state. *)
Fixpoint unmarshalMapEntry_loop (fuel : nat) (data : list byte) (kv : string * string)
    : result (string * string) :=
  if len data <=? 0 then Ok kv
  else
    match fuel with
    | O => OutOfFuel
    | S fuel =>
        let '(num, typ, n) := ConsumeTag data in
        if n <? 0 then Err (errorString "invalid map entry tag")
        else
          let! data := slice_from data n in
          if negb (typ =? BytesType) then
            let! n := fueled (ConsumeFieldValue num typ data) in
            if n <? 0 then Err (errorString "invalid map entry field")
            else
              let! data := slice_from data n in
              unmarshalMapEntry_loop fuel data kv
          else
            let '(val, n) := ConsumeBytes data in
            if n <? 0 then Err (errorString "invalid map entry bytes")
            else
              let! data := slice_from data n in
              if num =? 1 then unmarshalMapEntry_loop fuel data (string_of_list_byte val, kv.2)
              else if num =? 2 then unmarshalMapEntry_loop fuel data (kv.1, string_of_list_byte val)
              else unmarshalMapEntry_loop fuel data kv
    end.

Definition unmarshalMapEntry (data : list byte) : result (string * string) :=
  unmarshalMapEntry_loop (length data) data ("", "").

Definition set_TaskId (m : TaskRequest.t) (s : string) : TaskRequest.t :=
  TaskRequest.mk s (TaskRequest.Skill m) (TaskRequest.Input m) (TaskRequest.Metadata m).
Definition set_Skill (m : TaskRequest.t) (s : string) : TaskRequest.t :=
  TaskRequest.mk (TaskRequest.TaskId m) s (TaskRequest.Input m) (TaskRequest.Metadata m).
Definition set_Input (m : TaskRequest.t) (s : string) : TaskRequest.t :=
  TaskRequest.mk (TaskRequest.TaskId m) (TaskRequest.Skill m) s (TaskRequest.Metadata m).
(** [if m.Metadata == nil { make }] followed by [m.Metadata[k] = v]. *)
Definition set_Metadata (m : TaskRequest.t) (k v : string) : TaskRequest.t :=
  TaskRequest.mk (TaskRequest.TaskId m) (TaskRequest.Skill m) (TaskRequest.Input m)
    (Some (<[k:=v]> (entries (TaskRequest.Metadata m)))).

Fixpoint unmarshalTaskRequest_loop (fuel : nat) (data : list byte) (m : TaskRequest.t)
    : result TaskRequest.t :=
  if len data <=? 0 then Ok m
  else
    match fuel with
    | O => OutOfFuel
    | S fuel =>
        let '(num, typ, n) := ConsumeTag data in
        if n <? 0 then Err (errorString "invalid tag")
        else
          let! data := slice_from data n in
          if typ =? BytesType then
            let '(val, n) := ConsumeBytes data in
            if n <? 0 then Err (errorString ("invalid bytes for field " +:+ itoa num))
            else
              let! data := slice_from data n in
              if num =? 1 then unmarshalTaskRequest_loop fuel data (set_TaskId m (string_of_list_byte val))
              else if num =? 2 then unmarshalTaskRequest_loop fuel data (set_Skill m (string_of_list_byte val))
              else if num =? 3 then unmarshalTaskRequest_loop fuel data (set_Input m (string_of_list_byte val))
              else if num =? 4 then
                let! kv := unmarshalMapEntry val in
                unmarshalTaskRequest_loop fuel data (set_Metadata m kv.1 kv.2)
              else unmarshalTaskRequest_loop fuel data m
          else
            let! n := fueled (ConsumeFieldValue num typ data) in
            if n <? 0 then Err (errorString ("invalid field " +:+ itoa num))
            else
              let! data := slice_from data n in
              unmarshalTaskRequest_loop fuel data m
    end.

Definition unmarshalTaskRequest (data : list byte) (m : TaskRequest.t) : result TaskRequest.t :=
  unmarshalTaskRequest_loop (length data) data m.

Fixpoint unmarshalTaskEvent_loop (fuel : nat) (data : list byte) (m : TaskEvent.t)
    : result TaskEvent.t :=
  if len data <=? 0 then Ok m
  else
    match fuel with
    | O => OutOfFuel
    | S fuel =>
        let '(num, typ, n) := ConsumeTag data in
        if n <? 0 then Err (errorString "invalid tag")
        else
          let! data := slice_from data n in
          if typ =? BytesType then
            let '(val, n) := ConsumeBytes data in
            if n <? 0 then Err (errorString ("invalid bytes for field " +:+ itoa num))
            else
              let! data := slice_from data n in
              if num =? 1 then
                unmarshalTaskEvent_loop fuel data
                  (TaskEvent.mk (string_of_list_byte val) (TaskEvent.Type_ m) (TaskEvent.Payload m))
              else if num =? 2 then
                unmarshalTaskEvent_loop fuel data
                  (TaskEvent.mk (TaskEvent.TaskId m) (string_of_list_byte val) (TaskEvent.Payload m))
              else if num =? 3 then
                unmarshalTaskEvent_loop fuel data
                  (TaskEvent.mk (TaskEvent.TaskId m) (TaskEvent.Type_ m) (string_of_list_byte val))
              else unmarshalTaskEvent_loop fuel data m
          else
            let! n := fueled (ConsumeFieldValue num typ data) in
            if n <? 0 then Err (errorString ("invalid field " +:+ itoa num))
            else
              let! data := slice_from data n in
              unmarshalTaskEvent_loop fuel data m
    end.

Definition unmarshalTaskEvent (data : list byte) (m : TaskEvent.t) : result TaskEvent.t :=
  unmarshalTaskEvent_loop (length data) data m.

Fixpoint unmarshalHealthResponse_loop (fuel : nat) (data : list byte) (m : HealthResponse.t)
    : result HealthResponse.t :=
  if len data <=? 0 then Ok m
  else
    match fuel with
    | O => OutOfFuel
    | S fuel =>
        let '(num, typ, n) := ConsumeTag data in
        if n <? 0 then Err (errorString "invalid tag")
        else
          let! data := slice_from data n in
          if typ =? BytesType then
            let '(val, n) := ConsumeBytes data in
            if n <? 0 then Err (errorString ("invalid bytes for field " +:+ itoa num))
            else
              let! data := slice_from data n in
              if num =? 1 then
                unmarshalHealthResponse_loop fuel data
                  (HealthResponse.mk (string_of_list_byte val) (HealthResponse.AgentName m))
              else if num =? 2 then
                unmarshalHealthResponse_loop fuel data
                  (HealthResponse.mk (HealthResponse.Status m) (string_of_list_byte val))
              else unmarshalHealthResponse_loop fuel data m
          else
            let! n := fueled (ConsumeFieldValue num typ data) in
            if n <? 0 then Err (errorString ("invalid field " +:+ itoa num))
            else
              let! data := slice_from data n in
              unmarshalHealthResponse_loop fuel data m
    end.

Definition unmarshalHealthResponse (data : list byte) (m : HealthResponse.t)
    : result HealthResponse.t :=
  unmarshalHealthResponse_loop (length data) data m.

(** The four decoders are one loop over tagged fields that differ in what a
    length-delimited field does to the value being built and in the three
    error messages. *)
Section DecodeFields.
Context {M : Type}.
Variables (etag : error) (ebytes efield : Z -> error).
Variable field : Z -> list byte -> M -> result M.

Fixpoint decode_fields (fuel : nat) (data : list byte) (m : M) : result M :=
  if len data <=? 0 then Ok m
  else
    match fuel with
    | O => OutOfFuel
    | S fuel =>
        let '(num, typ, n) := ConsumeTag data in
        if n <? 0 then Err etag
        else
          let! data := slice_from data n in
          if typ =? BytesType then
            let '(val, n) := ConsumeBytes data in
            if n <? 0 then Err (ebytes num)
            else
              let! data := slice_from data n in
              let! m := field num val m in
              decode_fields fuel data m
          else
            let! n := fueled (ConsumeFieldValue num typ data) in
            if n <? 0 then Err (efield num)
            else
              let! data := slice_from data n in
              decode_fields fuel data m
    end.
End DecodeFields.

Definition mapEntry_field (num : Z) (val : list byte) (kv : string * string)
    : result (string * string) :=
  if num =? 1 then Ok (string_of_list_byte val, kv.2)
  else if num =? 2 then Ok (kv.1, string_of_list_byte val)
  else Ok kv.

Definition TaskRequest_field (num : Z) (val : list byte) (m : TaskRequest.t)
    : result TaskRequest.t :=
  if num =? 1 then Ok (set_TaskId m (string_of_list_byte val))
  else if num =? 2 then Ok (set_Skill m (string_of_list_byte val))
  else if num =? 3 then Ok (set_Input m (string_of_list_byte val))
  else if num =? 4 then
    let! kv := unmarshalMapEntry val in
    Ok (set_Metadata m kv.1 kv.2)
  else Ok m.

Definition TaskEvent_field (num : Z) (val : list byte) (m : TaskEvent.t)
    : result TaskEvent.t :=
  if num =? 1 then
    Ok (TaskEvent.mk (string_of_list_byte val) (TaskEvent.Type_ m) (TaskEvent.Payload m))
  else if num =? 2 then
    Ok (TaskEvent.mk (TaskEvent.TaskId m) (string_of_list_byte val) (TaskEvent.Payload m))
  else if num =? 3 then
    Ok (TaskEvent.mk (TaskEvent.TaskId m) (TaskEvent.Type_ m) (string_of_list_byte val))
  else Ok m.

Definition HealthResponse_field (num : Z) (val : list byte) (m : HealthResponse.t)
    : result HealthResponse.t :=
  if num =? 1 then Ok (HealthResponse.mk (string_of_list_byte val) (HealthResponse.AgentName m))
  else if num =? 2 then Ok (HealthResponse.mk (HealthResponse.Status m) (string_of_list_byte val))
  else Ok m.

(** A call [returns] when it ends the way the Go function can: with a value
    or with an error. *)
Definition returns {A} (r : result A) : Prop :=
  match r with
  | Ok _ | Err _ => True
  | Panic | OutOfFuel => False
  end.

(** ** Field values a Go program can hold

    A Go string or slice has an [int] length: at most [MaxInt] bytes. *)
Definition MaxInt : Z := 2 ^ 63 - 1.

Definition fits (s : string) : Prop := len (list_byte_of_string s) <= MaxInt.

(** The nested message of one metadata entry, as [marshalTaskRequest] builds it. *)
Definition entry_bytes (kv : string * string) : list byte :=
  appendString (appendString [] 1 kv.1) 2 kv.2.

Definition valid_TaskRequest (m : TaskRequest.t) : Prop :=
  fits (TaskRequest.TaskId m) /\ fits (TaskRequest.Skill m) /\ fits (TaskRequest.Input m)
  /\ forall k v, entries (TaskRequest.Metadata m) !! k = Some v ->
                 len (entry_bytes (k, v)) <= MaxInt.

Definition valid_TaskEvent (m : TaskEvent.t) : Prop :=
  fits (TaskEvent.TaskId m) /\ fits (TaskEvent.Type_ m) /\ fits (TaskEvent.Payload m).

Definition valid_HealthResponse (m : HealthResponse.t) : Prop :=
  fits (HealthResponse.Status m) /\ fits (HealthResponse.AgentName m).

(** Two requests are the same message when their strings agree and their
    metadata hold the same entries (Go has no [==] on a struct with a map). *)
Definition same_TaskRequest (a b : TaskRequest.t) : Prop :=
  TaskRequest.TaskId a = TaskRequest.TaskId b
  /\ TaskRequest.Skill a = TaskRequest.Skill b
  /\ TaskRequest.Input a = TaskRequest.Input b
  /\ entries (TaskRequest.Metadata a) = entries (TaskRequest.Metadata b).

(** [m[k] = v] on an allocated map. *)
Definition insert_entry (md : gmap string string) (kv : string * string)
    : gmap string string :=
  <[kv.1:=kv.2]> md.

(** The request of the spec's codec scenario. *)
Definition request_t1 : TaskRequest.t :=
  TaskRequest.mk "t1" "s" "" (Some (<["a":="1"]> (<["b":="2"]> ∅))).

(** What a decoder [unmarshal] does with fields its message does not use, the
    message using the field numbers [known], all of them length-delimited: it
    returns on every input;
    a length-delimited field with another number is stepped over; so is a
    field of another wire type, by the extent [ConsumeFieldValue] reports for
    it (the varint, the four or the eight bytes, the group up to its end
    tag); a group of well-formed fields is stepped over up to its matching end
    tag when the groups inside it are nested no deeper than the package's
    recursion limit, and is a decode error when they are; a field of a
    reserved wire type (6 or 7) or an end-group tag with no group open is a
    decode error. *)
Definition valid_number (num : Z) : Prop := 1 <= num <= MaxInt32.

Definition invalid_field (num : Z) : error :=
  errorString ("invalid field " +:+ itoa num).

(** A run of well-formed fields, each with its tag, and how deep its groups
    are nested: a run without a group has depth 0, a group is one deeper than
    its body. *)
Inductive wire_fields : nat -> list byte -> Prop :=
  | wire_nil : wire_fields 0 []
  | wire_varint num v d fs :
      valid_number num -> 0 <= v < 2 ^ 64 -> wire_fields d fs ->
      wire_fields d (AppendVarint (AppendTag [] num VarintType) v ++ fs)
  | wire_fixed32 num payload d fs :
      valid_number num -> len payload = 4 -> wire_fields d fs ->
      wire_fields d (AppendTag [] num Fixed32Type ++ payload ++ fs)
  | wire_fixed64 num payload d fs :
      valid_number num -> len payload = 8 -> wire_fields d fs ->
      wire_fields d (AppendTag [] num Fixed64Type ++ payload ++ fs)
  | wire_bytes num val d fs :
      valid_number num -> len val <= MaxInt -> wire_fields d fs ->
      wire_fields d (appendBytes [] num val ++ fs)
  | wire_group num d1 body d2 fs :
      valid_number num -> wire_fields d1 body -> wire_fields d2 fs ->
      wire_fields (Nat.max (S d1) d2)
        (AppendTag [] num StartGroupType ++ body ++ AppendTag [] num EndGroupType ++ fs).

Record decoder_spec {M : Type} (unmarshal : list byte -> M -> result M)
    (known : list Z) : Prop := {
  spec_returns : forall data m, returns (unmarshal data m);
  spec_unknown_number : forall num val rest m,
    valid_number num -> num ∉ known -> len val <= MaxInt ->
    unmarshal (appendBytes [] num val ++ rest) m = unmarshal rest m;
  spec_other_type : forall num typ body n m,
    valid_number num -> 0 <= typ < 8 -> typ <> BytesType ->
    ConsumeFieldValue num typ body = Some n -> 0 <= n ->
    unmarshal (AppendTag [] num typ ++ body) m = unmarshal (from n body) m;
  spec_varint : forall num v rest m,
    valid_number num -> 0 <= v < 2 ^ 64 ->
    unmarshal (AppendVarint (AppendTag [] num VarintType) v ++ rest) m = unmarshal rest m;
  spec_fixed32 : forall num payload rest m,
    valid_number num -> len payload = 4 ->
    unmarshal (AppendTag [] num Fixed32Type ++ payload ++ rest) m = unmarshal rest m;
  spec_fixed64 : forall num payload rest m,
    valid_number num -> len payload = 8 ->
    unmarshal (AppendTag [] num Fixed64Type ++ payload ++ rest) m = unmarshal rest m;
  spec_group : forall num d body rest m,
    valid_number num -> wire_fields d body -> Z.of_nat d <= DefaultRecursionLimit ->
    unmarshal (AppendTag [] num StartGroupType ++ body
               ++ AppendTag [] num EndGroupType ++ rest) m
    = unmarshal rest m;
  spec_group_too_deep : forall num d body rest m,
    valid_number num -> wire_fields d body -> DefaultRecursionLimit < Z.of_nat d ->
    unmarshal (AppendTag [] num StartGroupType ++ body
               ++ AppendTag [] num EndGroupType ++ rest) m
    = Err (invalid_field num);
  spec_reserved : forall num typ rest m,
    valid_number num -> typ = 6 \/ typ = 7 \/ typ = EndGroupType ->
    unmarshal (AppendTag [] num typ ++ rest) m = Err (invalid_field num)
}.

(** [k] empty groups numbered 1, one inside the other. *)
Fixpoint nested_groups (k : nat) : list byte :=
  match k with
  | O => []
  | S k =>
      AppendTag [] 1 StartGroupType ++ nested_groups k ++ AppendTag [] 1 EndGroupType ++ []
  end.

(** ** Manifests ([internal/agent/manifest.go]) *)

Module Manifest.
Record t : Type := mk {
  Name : string;
  Description : string;
  Skills : list string;
  Command : string;
  Args : list string;
  Dir : string
}.
Definition zero : t := mk "" "" [] "" [] "".
End Manifest.

(** [Validate]: a Go [error] result is [None] for [nil]. *)
Definition Validate (m : Manifest.t) : option error :=
  if String.eqb (Manifest.Name m) "" then Some (errorString "name is required")
  else if len (Manifest.Skills m) =? 0 then Some (errorString "at least one skill is required")
  else if String.eqb (Manifest.Command m) "" then Some (errorString "command is required")
  else None.

(** [LoadManifest] over the two library calls it makes: [os.ReadFile] and
    [json.Unmarshal] into a zero [Manifest]. *)
Definition LoadManifest
    (ReadFile : string -> error + list byte)
    (json_Unmarshal : list byte -> error + Manifest.t)
    (path : string) : Manifest.t * option error :=
  match ReadFile path with
  | inl err => (Manifest.zero, Some (Errorf_w ("read manifest " +:+ path +:+ ": ") err))
  | inr data =>
      match json_Unmarshal data with
      | inl err => (Manifest.zero, Some (Errorf_w ("parse manifest " +:+ path +:+ ": ") err))
      | inr m =>
          match Validate m with
          | Some err =>
              (Manifest.zero, Some (Errorf_w ("invalid manifest " +:+ path +:+ ": ") err))
          | None => (m, None)
          end
      end
  end.

(** The three causes [LoadManifest] tells apart, read off the message. *)
Inductive ManifestErrorKind : Type :=
  | ManifestIOError
  | ManifestParseError
  | ManifestValidationError.

Definition manifest_error_kind (e : error) : option ManifestErrorKind :=
  if String.prefix "read manifest " (Error e) then Some ManifestIOError
  else if String.prefix "parse manifest " (Error e) then Some ManifestParseError
  else if String.prefix "invalid manifest " (Error e) then Some ManifestValidationError
  else None.

(** ** The registry ([internal/agent/registry.go]) *)

Module Registry.
Record t : Type := mk {
  agents : list Manifest.t;
  skillMap : gmap string string;
  baseDir : string
}.
End Registry.

(** The loop [for _, skill := range m.Skills]: a skill already in the map is
    logged and left alone. *)
Definition register_skills (skillMap : gmap string string) (m : Manifest.t)
    : gmap string string :=
  foldl (fun sm skill =>
           match sm !! skill with
           | Some existing => sm
           | None => <[skill:=Manifest.Name m]> sm
           end)
        skillMap (Manifest.Skills m).

(** What the scan does with one accepted manifest: register its skills, then
    append it. *)
Definition register (r : Registry.t) (m : Manifest.t) : Registry.t :=
  Registry.mk (Registry.agents r ++ [m]) (register_skills (Registry.skillMap r) m)
    (Registry.baseDir r).

Record DirEntry : Type := {
  entry_Name : string;
  IsDir : bool
}.

Inductive ReadDirResult : Type :=
  | DirEntries (entries : list DirEntry)
  | DirNotExist
  | DirError (err : error).

Section NewRegistry.
(** The file system and path calls of [NewRegistry]. *)
Variable filepath_Dir : string -> string.
Variable filepath_Join : list string -> string.
Variable ReadDir : string -> ReadDirResult.
Variable Stat_IsNotExist : string -> bool.
Variable ReadFile : string -> error + list byte.
Variable json_Unmarshal : list byte -> error + Manifest.t.

(** One iteration of [for _, entry := range entries]. *)
Definition scan_entry (agentsDir : string) (r : Registry.t) (entry : DirEntry)
    : Registry.t :=
  if negb (IsDir entry) then r
  else
    let manifestPath := filepath_Join [agentsDir; entry_Name entry; "manifest.json"] in
    if Stat_IsNotExist manifestPath then r
    else
      match LoadManifest ReadFile json_Unmarshal manifestPath with
      | (_, Some err) => r
      | (m, None) => register r m
      end.

Definition NewRegistry (agentsDir : string) : option Registry.t * option error :=
  let baseDir := filepath_Dir agentsDir in
  let r := Registry.mk [] ∅ baseDir in
  match ReadDir agentsDir with
  | DirNotExist => (Some r, None)
  | DirError err => (None, Some (Errorf_w "read agents dir: " err))
  | DirEntries entries => (Some (foldl (scan_entry agentsDir) r entries), None)
  end.

(** The manifests the scan accepts, in scan order. *)
Definition accepted (agentsDir : string) (entries : list DirEntry) : list Manifest.t :=
  omap (fun entry =>
          if negb (IsDir entry) then None
          else
            let manifestPath := filepath_Join [agentsDir; entry_Name entry; "manifest.json"] in
            if Stat_IsNotExist manifestPath then None
            else
              match LoadManifest ReadFile json_Unmarshal manifestPath with
              | (_, Some err) => None
              | (m, None) => Some m
              end)
       entries.
End NewRegistry.

Definition AgentForSkill (r : Registry.t) (skill : string) : option string :=
  Registry.skillMap r !! skill.

(** The name of the first manifest of [ms] that declares [skill]. *)
Fixpoint first_declarant (skill : string) (ms : list Manifest.t) : option string :=
  match ms with
  | [] => None
  | m :: ms =>
      if bool_decide (skill ∈ Manifest.Skills m) then Some (Manifest.Name m)
      else first_declarant skill ms
  end.

(** The spec's skill-conflict scenario as a directory: two agents that both
    declare [summarize], and a file that is not a directory. *)
Definition alpha_manifest : Manifest.t :=
  Manifest.mk "alpha" "" ["summarize"; "echo"] "./alpha" [] "agents/alpha".
Definition beta_manifest : Manifest.t :=
  Manifest.mk "beta" "" ["summarize"; "translate"] "./beta" [] "agents/beta".

Definition demo_Join (parts : list string) : string := String.concat "/" parts.
Definition demo_ReadDir (dir : string) : ReadDirResult :=
  DirEntries [Build_DirEntry "README.md" false; Build_DirEntry "alpha" true;
              Build_DirEntry "beta" true].
Definition demo_ReadFile (path : string) : error + list byte :=
  inr (list_byte_of_string path).
Definition demo_Unmarshal (data : list byte) : error + Manifest.t :=
  if String.eqb (string_of_list_byte data) "agents/alpha/manifest.json" then inr alpha_manifest
  else if String.eqb (string_of_list_byte data) "agents/beta/manifest.json" then inr beta_manifest
  else inl (errorString "unexpected end of JSON input").

(** A manifest file that gives no [dir]: the field stays the zero string. *)
Definition no_dir_manifest : Manifest.t :=
  Manifest.mk "s1" "" ["echo"] "./stub" [] "".

(** ** The RPC client ([internal/agent/pb/client.go]) *)

Global Instance error_eq_dec : EqDecision error.
Proof. unfold EqDecision, Decision. decide equality; apply string_dec. Defined.

(** [io.EOF], the error with which a stream ends normally. *)
Definition io_EOF : error := errorString "EOF".

(** A server stream as the client sees it: the events still to come, then the
    error every later [RecvMsg] returns ([io.EOF] after a normal end). *)
Record ExecuteStream : Type := {
  incoming : list TaskEvent.t;
  ending : error
}.

Definition Recv (s : ExecuteStream) : (TaskEvent.t + error) * ExecuteStream :=
  match incoming s with
  | ev :: rest => (inl ev, {| incoming := rest; ending := ending s |})
  | [] => (inr (ending s), s)
  end.

(** [RecvAll]: the loop [for { ... }], cut by [fuel]. *)
Fixpoint RecvAll_loop (fuel : nat) (s : ExecuteStream) (events : list TaskEvent.t)
    : result (list TaskEvent.t * option error) :=
  match fuel with
  | O => OutOfFuel
  | S fuel =>
      match Recv s with
      | (inr err, _) =>
          if decide (err = io_EOF) then Ok (events, None) else Ok (events, Some err)
      | (inl ev, s) => RecvAll_loop fuel s (events ++ [ev])
      end
  end.

Definition RecvAll (s : ExecuteStream) : result (list TaskEvent.t * option error) :=
  RecvAll_loop (S (length (incoming s))) s [].

Record ClientConn : Type := { target : string }.
Record AgentClient : Type := { cc : ClientConn }.
Definition NewAgentClient (conn : ClientConn) : AgentClient := {| cc := conn |}.

(** ** The runner ([internal/agent/runner.go]) *)

Inductive State : Type :=
  | StateStopped
  | StateStarting
  | StateRunning
  | StateFailed.

Global Instance State_eq_dec : EqDecision State.
Proof. unfold EqDecision, Decision. decide equality. Defined.

Definition State_string (s : State) : string :=
  match s with
  | StateStopped => "stopped"
  | StateStarting => "starting"
  | StateRunning => "running"
  | StateFailed => "failed"
  end.

(** A [context.CancelFunc] is known by the context it cancels. *)
Definition CancelFunc : Type := nat.

Module Runner.
(** [done] is [Some false] for an open channel and [Some true] for a closed
    one; [err], [client], [cancel] and [done] are [None] for [nil]. *)
Record t : Type := mk {
  manifest : Manifest.t;
  baseDir : string;
  state : State;
  port : Z;
  client : option AgentClient;
  cancel : option CancelFunc;
  done : option bool;
  err : option error
}.
End Runner.

Definition NewRunner (m : Manifest.t) (baseDir : string) : Runner.t :=
  Runner.mk m baseDir StateStopped 0 None None None None.

Module AgentStatus.
Record t : Type := mk {
  Name : string;
  State : string;
  Skills : list string;
  Port : Z;
  Error : string
}.
End AgentStatus.

(** [Status]: the snapshot taken under the read lock. *)
Definition Status (r : Runner.t) : AgentStatus.t :=
  AgentStatus.mk (Manifest.Name (Runner.manifest r)) (State_string (Runner.state r))
    (Manifest.Skills (Runner.manifest r)) (Runner.port r)
    (match Runner.err r with
     | Some e => Error e
     | None => ""
     end).

(** ** The runner's critical sections

    Every write to the runner happens with [r.mu] held; each locked region is
    one function here. *)

(** [Start], lines 54 to 62: [false] when the call returns at once. *)
Definition Start_enter (r : Runner.t) : bool * Runner.t :=
  if bool_decide (Runner.state r = StateRunning) || bool_decide (Runner.state r = StateStarting)
  then (false, r)
  else
    (true,
     Runner.mk (Runner.manifest r) (Runner.baseDir r) StateStarting (Runner.port r)
       (Runner.client r) (Runner.cancel r) (Some false) None).

Definition setFailed (e : error) (r : Runner.t) : Runner.t :=
  Runner.mk (Runner.manifest r) (Runner.baseDir r) StateFailed (Runner.port r)
    (Runner.client r) (Runner.cancel r) (Runner.done r) (Some e).

(** [Start], lines 84 to 86. *)
Definition Start_store_cancel (c : CancelFunc) (r : Runner.t) : Runner.t :=
  Runner.mk (Runner.manifest r) (Runner.baseDir r) (Runner.state r) (Runner.port r)
    (Runner.client r) (Some c) (Runner.done r) (Runner.err r).

(** [Start], lines 114 to 116. *)
Definition Start_store_port (p : Z) (r : Runner.t) : Runner.t :=
  Runner.mk (Runner.manifest r) (Runner.baseDir r) (Runner.state r) p
    (Runner.client r) (Runner.cancel r) (Runner.done r) (Runner.err r).

(** [Start], lines 136 to 139. *)
Definition Start_store_client (cl : AgentClient) (r : Runner.t) : Runner.t :=
  Runner.mk (Runner.manifest r) (Runner.baseDir r) StateRunning (Runner.port r)
    (Some cl) (Runner.cancel r) (Runner.done r) (Runner.err r).

(** [Stop], lines 147 to 155: what [Stop] keeps for itself, and the runner. *)
Definition Stop_locked (r : Runner.t)
    : (State * option AgentClient * option CancelFunc * option bool) * Runner.t :=
  ((Runner.state r, Runner.client r, Runner.cancel r, Runner.done r),
   Runner.mk (Runner.manifest r) (Runner.baseDir r) StateStopped (Runner.port r)
     None None (Runner.done r) (Runner.err r)).

(** [monitor], lines 251 to 269, with [werr] what [cmd.Wait] returned.  Closing
    a channel that is closed already panics: [None]. *)
Definition monitor_locked (werr : option error) (r : Runner.t) : option Runner.t :=
  match Runner.done r with
  | Some true => None
  | _ =>
      let done := match Runner.done r with
                  | Some _ => Some true
                  | None => None
                  end in
      if bool_decide (Runner.state r = StateRunning) then
        Some (Runner.mk (Runner.manifest r) (Runner.baseDir r) StateFailed (Runner.port r)
                (Runner.client r) (Runner.cancel r) done
                (Some match werr with
                      | Some e => Errorf_w "process exited unexpectedly: " e
                      | None => errorString "process exited unexpectedly with code 0"
                      end))
      else
        Some (Runner.mk (Runner.manifest r) (Runner.baseDir r) (Runner.state r)
                (Runner.port r) (Runner.client r) (Runner.cancel r) done (Runner.err r))
  end.

(** [Execute]: [call] is what [client.Execute(ctx, req)] gives, a stream or an
    error.  The runner is read and handed back as it was. *)
Definition Execute (r : Runner.t) (call : error + ExecuteStream)
    : result (list TaskEvent.t * option error) * Runner.t :=
  let client := Runner.client r in
  let state := Runner.state r in
  if negb (bool_decide (state = StateRunning)) || negb (bool_decide (is_Some client)) then
    (Ok ([], Some (errorString ("agent " +:+ Manifest.Name (Runner.manifest r)
                                +:+ " is not running (state: " +:+ State_string state +:+ ")"))),
     r)
  else
    match call with
    | inl err =>
        (Ok ([], Some (Errorf_w ("execute on " +:+ Manifest.Name (Runner.manifest r) +:+ ": ")
                         err)), r)
    | inr stream => (RecvAll stream, r)
    end.

(** [Health]: [call] is what [client.Health(ctx)] gives. *)
Definition Health (r : Runner.t) (call : error + HealthResponse.t)
    : (option HealthResponse.t * option error) * Runner.t :=
  let client := Runner.client r in
  let state := Runner.state r in
  if negb (bool_decide (state = StateRunning)) || negb (bool_decide (is_Some client)) then
    ((None, Some (errorString ("agent " +:+ Manifest.Name (Runner.manifest r)
                               +:+ " is not running"))), r)
  else
    match call with
    | inl err => ((None, Some err), r)
    | inr resp => ((Some resp, None), r)
    end.

(** ** The port handshake ([Start], lines 93 to 124)

    [fmt.Sscanf(line, "AGENT_PORT=%d", &port)] on a line of bytes: the literal
    text must match, then [%d] skips blanks, takes an optional sign and the
    decimal digits that follow, and fails when there is no digit or the number
    does not fit an [int]; what comes after the digits is not looked at.  The
    scanner of [fmt] reads its input rune by rune. *)

Definition char_code (c : ascii) : Z := Z.of_nat (nat_of_ascii c).

Definition RuneError : Z := 65533.

(** The table [first] of package [utf8] for a leading byte of 128 and more:
    the width of the encoding and the range its second byte must lie in;
    [None] for a byte that cannot lead. *)
Definition utf8_first (p0 : Z) : option (nat * Z * Z) :=
  if p0 <? 194 then None
  else if p0 <? 224 then Some (2%nat, 128, 191)
  else if p0 =? 224 then Some (3%nat, 160, 191)
  else if p0 =? 237 then Some (3%nat, 128, 159)
  else if p0 <? 240 then Some (3%nat, 128, 191)
  else if p0 =? 240 then Some (4%nat, 144, 191)
  else if p0 <? 244 then Some (4%nat, 128, 191)
  else if p0 =? 244 then Some (4%nat, 128, 143)
  else None.

Definition rune2 (p0 b1 : Z) : Z :=
  Z.lor (Z.shiftl (Z.land p0 31) 6) (Z.land b1 63).
Definition rune3 (p0 b1 b2 : Z) : Z :=
  Z.lor (Z.lor (Z.shiftl (Z.land p0 15) 12) (Z.shiftl (Z.land b1 63) 6)) (Z.land b2 63).
Definition rune4 (p0 b1 b2 b3 : Z) : Z :=
  Z.lor (Z.lor (Z.lor (Z.shiftl (Z.land p0 7) 18) (Z.shiftl (Z.land b1 63) 12))
           (Z.shiftl (Z.land b2 63) 6))
    (Z.land b3 63).

Definition continuation (b : Z) : bool := (128 <=? b) && (b <=? 191).

(** [utf8.DecodeRune]: the first rune of [s] and its width in bytes; an
    encoding that is invalid or cut short is [RuneError] of width 1. *)
Definition DecodeRune (s : string) : Z * nat :=
  match s with
  | EmptyString => (RuneError, 0%nat)
  | String c0 s1 =>
      let p0 := char_code c0 in
      if p0 <? 128 then (p0, 1%nat)
      else
        match utf8_first p0 with
        | None => (RuneError, 1%nat)
        | Some (sz, lo, hi) =>
            match s1 with
            | EmptyString => (RuneError, 1%nat)
            | String c1 s2 =>
                let b1 := char_code c1 in
                if (b1 <? lo) || (hi <? b1) then (RuneError, 1%nat)
                else if (sz <=? 2)%nat then (rune2 p0 b1, 2%nat)
                else
                  match s2 with
                  | EmptyString => (RuneError, 1%nat)
                  | String c2 s3 =>
                      let b2 := char_code c2 in
                      if negb (continuation b2) then (RuneError, 1%nat)
                      else if (sz <=? 3)%nat then (rune3 p0 b1 b2, 3%nat)
                      else
                        match s3 with
                        | EmptyString => (RuneError, 1%nat)
                        | String c3 _ =>
                            let b3 := char_code c3 in
                            if negb (continuation b3) then (RuneError, 1%nat)
                            else (rune4 p0 b1 b2 b3, 4%nat)
                        end
                  end
            end
        end
  end.

(** [isSpace] of package [fmt], over its table of ranges. *)
Definition isSpace (r : Z) : bool :=
  if 65536 <=? r then false
  else
    ((9 <=? r) && (r <=? 13)) || (r =? 32) || (r =? 133) || (r =? 160) || (r =? 5760)
    || ((8192 <=? r) && (r <=? 8202)) || ((8232 <=? r) && (r <=? 8233))
    || (r =? 8239) || (r =? 8287) || (r =? 12288).

Definition newline : ascii := ascii_of_nat 10.

(** [s[n:]]. *)
Fixpoint drop_string (n : nat) (s : string) : string :=
  match n with
  | O => s
  | S n' =>
      match s with
      | EmptyString => EmptyString
      | String _ s' => drop_string n' s'
      end
  end.

(** [s.peek("\n")]. *)
Definition peek_newline (s : string) : bool :=
  match s with
  | EmptyString => false
  | String c _ => Ascii.eqb c newline
  end.

(** [SkipSpace] as [Sscanf] runs it: a newline is an error.  Every turn of
    the loop takes a rune off the input; [fuel] counts the turns. *)
Fixpoint SkipSpace_loop (fuel : nat) (s : string) : result string :=
  match s with
  | EmptyString => Ok s
  | String _ _ =>
      match fuel with
      | O => OutOfFuel
      | S fuel' =>
          let '(r, size) := DecodeRune s in
          let rest := drop_string size s in
          if (r =? 13) && peek_newline rest then SkipSpace_loop fuel' rest
          else if r =? 10 then Err (errorString "unexpected newline")
          else if negb (isSpace r) then Ok s
          else SkipSpace_loop fuel' rest
      end
  end.

Definition SkipSpace (s : string) : result string := SkipSpace_loop (String.length s) s.

Definition digit_of (c : ascii) : option Z :=
  let n := Z.of_nat (nat_of_ascii c) in
  if (48 <=? n) && (n <=? 57) then Some (n - 48) else None.

(** The value of the decimal digits [s] starts with. *)
Fixpoint digits_value (s : string) (acc : Z) : Z :=
  match s with
  | EmptyString => acc
  | String c s' =>
      match digit_of c with
      | Some d => digits_value s' (10 * acc + d)
      | None => acc
      end
  end.

Definition starts_with_digit (s : string) : bool :=
  match s with
  | EmptyString => false
  | String c _ => bool_decide (is_Some (digit_of c))
  end.

Definition MinInt : Z := - 2 ^ 63.

(** [scanInt] for the verb [%d] and a 64-bit [int]. *)
Definition scanInt (s : string) : option Z :=
  match SkipSpace s with
  | Ok (String c s' as s0) =>
      let '(neg, digits) :=
        if Ascii.eqb c "-" then (true, s')
        else if Ascii.eqb c "+" then (false, s')
        else (false, s0) in
      if starts_with_digit digits then
        let v := digits_value digits 0 in
        let v := if neg then - v else v in
        if (MinInt <=? v) && (v <=? MaxInt) then Some v else None
      else None
  | _ => None
  end.

Fixpoint strip_prefix (p s : string) : option string :=
  match p with
  | EmptyString => Some s
  | String a p' =>
      match s with
      | EmptyString => None
      | String b s' => if Ascii.eqb a b then strip_prefix p' s' else None
      end
  end.

Definition HasPrefix (s p : string) : bool := String.prefix p s.

Definition Sscanf_AGENT_PORT (line : string) : option Z :=
  match strip_prefix "AGENT_PORT=" line with
  | Some rest => scanInt rest
  | None => None
  end.

(** The body of the scanner loop: the port a line announces, if it does. *)
Definition line_port (line : string) : option Z :=
  if HasPrefix line "AGENT_PORT=" then Sscanf_AGENT_PORT line else None.

(** The child's stdout as the scanner reads it: the bytes of each line, without
    the newline that ends it, with the time the line arrives (for a line too
    long for the scanner, the time its first 64 KiB have arrived), in
    milliseconds after [Start] begins to wait, and the time the pipe is
    closed, if it is. *)
Record Stdout : Type := {
  lines : list (Z * string);
  closed : option Z
}.

(** What the scanner goroutine ends in, and when: a port on [portCh], the error
    on [errCh] when [scanner.Scan] gives up, or nothing while the pipe stays
    open. *)
Inductive Scanned : Type :=
  | ScannedPort (t : Z) (port : Z)
  | ScannedEOF (t : Z)
  | Blocked.

(** [bufio.MaxScanTokenSize]: the scanner of [Start] keeps its default buffer. *)
Definition MaxScanTokenSize : Z := 64 * 1024.

(** [dropCR] of [bufio.ScanLines]: one carriage return at the end is dropped. *)
Fixpoint dropCR (s : string) : string :=
  match s with
  | EmptyString => EmptyString
  | String c EmptyString => if Ascii.eqb c (ascii_of_nat 13) then EmptyString else s
  | String c s' => String c (dropCR s')
  end.

(** The loop [for scanner.Scan()]: a line that does not fit the buffer, newline
    included, makes [Scan] return false with [bufio.ErrTooLong], and the
    goroutine goes on to [errCh] as it does at the end of the stream. *)
Fixpoint scan_lines (ls : list (Z * string)) (closed : option Z) : Scanned :=
  match ls with
  | [] =>
      match closed with
      | Some t => ScannedEOF t
      | None => Blocked
      end
  | (t, raw) :: ls =>
      if MaxScanTokenSize <=? Z.of_nat (String.length raw) then ScannedEOF t
      else
        match line_port (dropCR raw) with
        | Some port => ScannedPort t port
        | None => scan_lines ls closed
        end
  end.

(** [15 * time.Second], in milliseconds. *)
Definition handshakeTimeout : Z := 15000.

Inductive Selected : Type :=
  | SelPort (port : Z)
  | SelErr (err : error)
  | SelTimeout.

(** The [select]: whichever of the two channels is served before the timer. *)
Definition select_handshake (out : Stdout) : Selected :=
  match scan_lines (lines out) (closed out) with
  | ScannedPort t port => if t <? handshakeTimeout then SelPort port else SelTimeout
  | ScannedEOF t =>
      if t <? handshakeTimeout
      then SelErr (errorString "agent exited without printing AGENT_PORT")
      else SelTimeout
  | Blocked => SelTimeout
  end.

(** ** Interleavings

    Between two critical sections any other goroutine may take the lock.  A
    configuration holds the runner, every call of [Start] made so far with the
    point it has reached, the exit monitors that still wait on their process,
    and the health probes in flight. *)

Inductive Phase : Type :=
  | PSpawn                            (* entered, before [cmd.Start] *)
  | PHandshake                        (* spawned, waiting in the [select] *)
  | PDial                             (* port stored, before [grpc.Dial] *)
  | PConnect (cl : AgentClient)       (* dialled, before the last lock *)
  | PFailed                           (* after [setFailed], before [return r.err] *)
  | PReturned (ret : option error).   (* [Start] returned [ret] *)

Record Config : Type := {
  runner : Runner.t;
  calls : list Phase;
  monitors : nat;
  probes : nat
}.

Inductive Event : Type :=
  | EvStart                                     (* a caller enters [Start] *)
  | EvPipeFail (i : nat) (cause : error)        (* [cmd.StdoutPipe] failed *)
  | EvSpawnFail (i : nat) (cause : error)       (* [cmd.Start] failed *)
  | EvSpawned (i : nat) (c : CancelFunc)        (* spawned: cancel stored, monitor launched *)
  | EvHandshake (i : nat) (out : Stdout)        (* the [select] is decided by [out] *)
  | EvDial (i : nat) (failure : option error)   (* [grpc.Dial] returned *)
  | EvConnected (i : nat)                       (* client stored, state Running *)
  | EvReturn (i : nat)                          (* a failed call reads [r.err] and returns it *)
  | EvStop                                      (* [Stop] takes the lock *)
  | EvExit (werr : option error)                (* a monitor sees its process exit *)
  | EvProbe                                     (* [checkAll] reads the state *)
  | EvProbeResult (failure : option error).     (* the probe ended; [setFailed] on error *)

Definition set_call (i : nat) (ph : Phase) (c : Config) (r : Runner.t) : Config :=
  {| runner := r; calls := <[i:=ph]> (calls c); monitors := monitors c; probes := probes c |}.

(** A call of [Start] that fails: [setFailed]; [return r.err] reads the field
    after the lock is released and is a step of its own. *)
Definition fail_call (i : nat) (e : error) (c : Config) : Config :=
  set_call i PFailed c (setFailed e (runner c)).

Definition step (c : Config) (ev : Event) : option Config :=
  match ev with
  | EvStart =>
      let '(go, r) := Start_enter (runner c) in
      Some {| runner := r;
              calls := calls c ++ [if go then PSpawn else PReturned None];
              monitors := monitors c; probes := probes c |}
  | EvPipeFail i cause =>
      match calls c !! i with
      | Some PSpawn => Some (fail_call i (Errorf_w "stdout pipe: " cause) c)
      | _ => None
      end
  | EvSpawnFail i cause =>
      match calls c !! i with
      | Some PSpawn => Some (fail_call i (Errorf_w "start command: " cause) c)
      | _ => None
      end
  | EvSpawned i cancel =>
      match calls c !! i with
      | Some PSpawn =>
          Some {| runner := Start_store_cancel cancel (runner c);
                  calls := <[i:=PHandshake]> (calls c);
                  monitors := S (monitors c); probes := probes c |}
      | _ => None
      end
  | EvHandshake i out =>
      match calls c !! i with
      | Some PHandshake =>
          match select_handshake out with
          | SelPort port => Some (set_call i PDial c (Start_store_port port (runner c)))
          | SelErr e => Some (fail_call i e c)
          | SelTimeout => Some (fail_call i (errorString "timeout waiting for AGENT_PORT") c)
          end
      | _ => None
      end
  | EvDial i failure =>
      match calls c !! i with
      | Some PDial =>
          match failure with
          | Some cause => Some (fail_call i (Errorf_w "grpc connect: " cause) c)
          | None =>
              let addr := "127.0.0.1:" +:+ itoa (Runner.port (runner c)) in
              Some (set_call i (PConnect (NewAgentClient {| target := addr |})) c (runner c))
          end
      | _ => None
      end
  | EvConnected i =>
      match calls c !! i with
      | Some (PConnect cl) =>
          Some (set_call i (PReturned None) c (Start_store_client cl (runner c)))
      | _ => None
      end
  | EvReturn i =>
      match calls c !! i with
      | Some PFailed => Some (set_call i (PReturned (Runner.err (runner c))) c (runner c))
      | _ => None
      end
  | EvStop =>
      Some {| runner := (Stop_locked (runner c)).2; calls := calls c;
              monitors := monitors c; probes := probes c |}
  | EvExit werr =>
      match monitors c with
      | O => None
      | S n =>
          match monitor_locked werr (runner c) with
          | Some r => Some {| runner := r; calls := calls c; monitors := n; probes := probes c |}
          | None => None
          end
      end
  | EvProbe =>
      if bool_decide (Runner.state (runner c) = StateRunning)
      then Some {| runner := runner c; calls := calls c; monitors := monitors c;
                   probes := S (probes c) |}
      else Some c
  | EvProbeResult failure =>
      match probes c with
      | O => None
      | S n =>
          Some {| runner := match failure with
                            | Some e => setFailed e (runner c)
                            | None => runner c
                            end;
                  calls := calls c; monitors := monitors c; probes := n |}
      end
  end.

(** A schedule runs from a fresh runner; [None] when an event is not enabled
    (or the program panicked). *)
Definition run (c : Config) (evs : list Event) : option Config :=
  foldl (fun oc ev => match oc with
                      | Some c => step c ev
                      | None => None
                      end) (Some c) evs.

Definition init (m : Manifest.t) (baseDir : string) : Config :=
  {| runner := NewRunner m baseDir; calls := []; monitors := 0; probes := 0 |}.

(** The ports that handshakes of a schedule delivered, oldest first. *)
Definition announced (evs : list Event) : list Z :=
  omap (fun ev => match ev with
                  | EvHandshake _ out =>
                      match select_handshake out with
                      | SelPort port => Some port
                      | _ => None
                      end
                  | _ => None
                  end) evs.

(** A call that has not got a port yet, or has returned. *)
Definition before_port (ph : Phase) : Prop :=
  match ph with
  | PDial | PConnect _ => False
  | PSpawn | PHandshake | PFailed | PReturned _ => True
  end.

(** What every schedule keeps true of the runner. *)
Record invariant (evs : list Event) (c : Config) : Prop := {
  inv_client : Runner.state (runner c) = StateRunning -> is_Some (Runner.client (runner c));
  inv_starting : Runner.state (runner c) = StateStarting -> Runner.err (runner c) = None;
  inv_no_port : announced evs = [] ->
                Runner.port (runner c) = 0
                /\ Runner.state (runner c) <> StateRunning
                /\ forall i ph, calls c !! i = Some ph -> before_port ph;
  inv_port : announced evs <> [] -> Runner.port (runner c) ∈ announced evs
}.

(** The manifest of the spec's seed scenarios, and a runner that has been
    spawned and waits for its port. *)
Definition s1_manifest : Manifest.t := Manifest.mk "s1" "" ["echo"] "./stub" [] ".".

Definition waiting : Config :=
  {| runner := Runner.mk s1_manifest "." StateStarting 0 None (Some 1%nat) (Some false) None;
     calls := [PHandshake]; monitors := 1; probes := 0 |}.

Definition stdout_45001 : Stdout :=
  {| lines := [(10, "stub starting"); (20, "AGENT_PORT=45001"); (30, "AGENT_PORT=1")];
     closed := None |}.

(** The happy path of one [Start]. *)
Definition happy_schedule : list Event :=
  [EvStart; EvSpawned 0 1%nat; EvHandshake 0 stdout_45001; EvDial 0 None; EvConnected 0].

(** The child announces port 0. *)
Definition port_zero_schedule : list Event :=
  [EvStart; EvSpawned 0 1%nat;
   EvHandshake 0 {| lines := [(20, "AGENT_PORT=0")]; closed := None |};
   EvDial 0 None; EvConnected 0].

(** [Stop] arrives while [Start] waits for the port; the child is cancelled,
    its stdout closes, and the scanner reports the end of the stream. *)
Definition stop_while_starting_schedule : list Event :=
  [EvStart; EvSpawned 0 1%nat; EvStop;
   EvHandshake 0 {| lines := [(5, "stub starting")]; closed := Some 40 |}].

(** A running agent dies, and the failed runner is then stopped. *)
Definition fail_then_stop_schedule : list Event :=
  happy_schedule ++ [EvExit None; EvStop].


(** ** A line that announces a port, in words

    [AGENT_PORT=], then any number of blanks, then an optional sign, then one
    decimal digit or more; the port is the number the digits write, taken up
    to the first byte that is no digit, and it fits an [int].  A blank is the
    UTF-8 text of a space of Unicode other than the newline: the bytes below. *)
Definition byte_string (codes : list Z) : string :=
  string_of_list_ascii ((fun z => ascii_of_nat (Z.to_nat z)) <$> codes).

Definition blank_codes : list (list Z) :=
  [[9]; [11]; [12]; [13]; [32]; [194; 133]; [194; 160]; [225; 154; 128];
   [226; 128; 128]; [226; 128; 129]; [226; 128; 130]; [226; 128; 131]; [226; 128; 132];
   [226; 128; 133]; [226; 128; 134]; [226; 128; 135]; [226; 128; 136]; [226; 128; 137];
   [226; 128; 138]; [226; 128; 168]; [226; 128; 169]; [226; 128; 175]; [226; 129; 159];
   [227; 128; 128]].

Definition blank_text (blanks : list (list Z)) : string :=
  foldr (fun b text => byte_string b +:+ text) EmptyString blanks.

Definition digit_char (d : Z) : ascii := ascii_of_nat (Z.to_nat (48 + d)).

Definition decimal (ds : list Z) : string := string_of_list_ascii (digit_char <$> ds).

Definition decimal_value (ds : list Z) : Z := foldl (fun acc d => 10 * acc + d) 0 ds.

Definition no_digit_head (s : string) : Prop :=
  match s with
  | EmptyString => True
  | String c _ => ~ (48 <= char_code c <= 57)
  end.

Definition signed (sign : string) (v : Z) : Z :=
  if String.eqb sign "-" then - v else v.

Inductive announces : string -> Z -> Prop :=
  | announces_intro (blanks : list (list Z)) (sign : string) (ds : list Z) (rest : string) :
      Forall (fun b => b ∈ blank_codes) blanks ->
      sign ∈ [EmptyString; "+"; "-"] ->
      ds <> [] ->
      Forall (fun d => 0 <= d <= 9) ds ->
      no_digit_head rest ->
      MinInt <= signed sign (decimal_value ds) <= MaxInt ->
      announces ("AGENT_PORT=" +:+ blank_text blanks +:+ sign +:+ decimal ds +:+ rest)
        (signed sign (decimal_value ds)).

(** A line that fills the scanner's buffer before its newline: 64 KiB or
    more. *)
Definition too_long (raw : string) : Prop :=
  MaxScanTokenSize <= Z.of_nat (String.length raw).

(** A line the scanner passes over: it fits the buffer and, its carriage
    return dropped, announces no port. *)
Definition no_match (x : Z * string) : Prop :=
  ~ too_long x.2 /\ forall port, ~ announces (dropCR x.2) port.

(** What [SkipSpace] stops at: a byte below 128 that is no space. *)
Definition stops_SkipSpace (tail : string) : Prop :=
  exists c t, tail = String c t /\ char_code c < 128 /\ isSpace (char_code c) = false.

(** The digits of a decimal number of the library, first digit first. *)
Fixpoint uint_digits (d : Decimal.uint) : list Z :=
  match d with
  | Decimal.Nil => []
  | Decimal.D0 d => 0 :: uint_digits d
  | Decimal.D1 d => 1 :: uint_digits d
  | Decimal.D2 d => 2 :: uint_digits d
  | Decimal.D3 d => 3 :: uint_digits d
  | Decimal.D4 d => 4 :: uint_digits d
  | Decimal.D5 d => 5 :: uint_digits d
  | Decimal.D6 d => 6 :: uint_digits d
  | Decimal.D7 d => 7 :: uint_digits d
  | Decimal.D8 d => 8 :: uint_digits d
  | Decimal.D9 d => 9 :: uint_digits d
  end.





(** The guard of [Execute] and [Health]. *)
Definition not_running (r : Runner.t) : Prop :=
  Runner.state r <> StateRunning \/ Runner.client r = None.

(** ** Decoding into a message that already holds values

    [Codec.Unmarshal] does not reset the message it is given: a field that is
    on the wire replaces the one in the message, a field that is not (an empty
    string is never written) leaves it in place. *)
Definition overwrite (old new : string) : string :=
  if String.eqb new "" then old else new.

Definition merge_TaskEvent (m a : TaskEvent.t) : TaskEvent.t :=
  TaskEvent.mk (overwrite (TaskEvent.TaskId m) (TaskEvent.TaskId a))
    (overwrite (TaskEvent.Type_ m) (TaskEvent.Type_ a))
    (overwrite (TaskEvent.Payload m) (TaskEvent.Payload a)).

Definition merge_HealthResponse (m a : HealthResponse.t) : HealthResponse.t :=
  HealthResponse.mk (overwrite (HealthResponse.Status m) (HealthResponse.Status a))
    (overwrite (HealthResponse.AgentName m) (HealthResponse.AgentName a)).

(** The metadata after the entries [range] were written over [md], in that
    order; the map is allocated by the first entry. *)
Definition merge_Metadata (md : option (gmap string string)) (range : list (string * string))
    : option (gmap string string) :=
  match range with
  | [] => md
  | _ :: _ => Some (foldl insert_entry (entries md) range)
  end.

Definition merge_TaskRequest (m a : TaskRequest.t) (range : list (string * string))
    : TaskRequest.t :=
  TaskRequest.mk (overwrite (TaskRequest.TaskId m) (TaskRequest.TaskId a))
    (overwrite (TaskRequest.Skill m) (TaskRequest.Skill a))
    (overwrite (TaskRequest.Input m) (TaskRequest.Input a))
    (merge_Metadata (TaskRequest.Metadata m) range).

(** ** The manager (the [Manager] of package [agent])

    [runners] maps an agent name to its runner.  A method that works on a
    runner through its pointer hands the runner back here and the manager
    stores it under the same name. *)

Module Manager.
Record t : Type := mk {
  registry : Registry.t;
  runners : gmap string Runner.t
}.
End Manager.

Definition NewManager (reg : Registry.t) : Manager.t :=
  Manager.mk reg
    (foldl (fun runners m =>
              <[Manifest.Name m:=NewRunner m (Registry.baseDir reg)]> runners)
           ∅ (Registry.agents reg)).

(** [RouteTask]: [call] is what the runner's client gives when asked to
    execute the request. *)
Definition RouteTask (mgr : Manager.t) (agentName : string) (call : error + ExecuteStream)
    : result (list TaskEvent.t * option error) * Manager.t :=
  match Manager.runners mgr !! agentName with
  | None => (Ok ([], Some (errorString ("unknown agent: " +:+ agentName))), mgr)
  | Some runner =>
      let '(res, runner) := Execute runner call in
      (res, Manager.mk (Manager.registry mgr) (<[agentName:=runner]> (Manager.runners mgr)))
  end.

(** [Manager.AgentStatus]: the zero status and [false] for an unknown name. *)
Definition Manager_AgentStatus (mgr : Manager.t) (name : string) : AgentStatus.t * bool :=
  match Manager.runners mgr !! name with
  | None => (AgentStatus.mk "" "" [] 0 "", false)
  | Some runner => (Status runner, true)
  end.

(** [AllStatuses]: [range] is the order in which the map was visited. *)
Definition AllStatuses (range : list (string * Runner.t)) : list AgentStatus.t :=
  foldl (fun statuses kv => statuses ++ [Status kv.2]) [] range.

(** ** The health loop ([internal/agent/healthcheck.go])

    One round of [checkAll] on one runner, with [probe] what the agent answers:
    a runner that is not Running is passed over; a failed probe ends in
    [setFailed]. *)
Definition check_runner (r : Runner.t) (probe : error + HealthResponse.t) : Runner.t :=
  if negb (bool_decide (Runner.state r = StateRunning)) then r
  else
    match Health r probe with
    | ((_, Some err), r) => setFailed err r
    | ((_, None), r) => r
    end.

Definition checkAll (mgr : Manager.t) (probe : string -> error + HealthResponse.t)
    : Manager.t :=
  Manager.mk (Manager.registry mgr)
    (map_imap (fun name r => Some (check_runner r (probe name))) (Manager.runners mgr)).

(** The last manifest of [ms] with the name [name]. *)
Definition last_named (name : string) (ms : list Manifest.t) : option Manifest.t :=
  last (filter (fun m => Manifest.Name m = name) ms).

(** ** The life cycle over all schedules *)

(** A call of [Start] that is on its way to Running. *)
Definition in_flight (ph : Phase) : Prop :=
  match ph with
  | PSpawn | PHandshake | PDial | PConnect _ => True
  | PFailed | PReturned _ => False
  end.

(** What every schedule keeps true of a runner made for [m] and [baseDir]. *)
Record lifecycle (m : Manifest.t) (baseDir : string) (c : Config) : Prop := {
  lc_manifest : Runner.manifest (runner c) = m;
  lc_baseDir : Runner.baseDir (runner c) = baseDir;
  lc_stopped : Runner.state (runner c) = StateStopped -> Runner.client (runner c) = None;
  lc_failed : Runner.state (runner c) = StateFailed -> is_Some (Runner.err (runner c));
  lc_starting : Runner.state (runner c) = StateStarting ->
                exists i ph, calls c !! i = Some ph /\ in_flight ph
}.

(** The child never announces a port and keeps its stdout open. *)
Definition silent_stdout : Stdout := {| lines := [(10, "stub starting")]; closed := None |}.

(** A first child never announces its port and lives on after the timeout;
    the failed runner is started again. *)
Definition restart_after_timeout_schedule : list Event :=
  [EvStart; EvSpawned 0 1%nat; EvHandshake 0 silent_stdout; EvStart; EvSpawned 1 2%nat].

(** ** The codec as gRPC calls it ([Codec.Marshal] and [Codec.Unmarshal])

    The value behind [v any]: a pointer to one of the four message types, or
    a value of another type, known by the name its type prints as. *)
Inductive Message : Type :=
  | MsgTaskRequest (m : TaskRequest.t)
  | MsgTaskEvent (m : TaskEvent.t)
  | MsgHealthResponse (m : HealthResponse.t)
  | MsgEmpty
  | MsgOther (type_name : string).

Definition unsupported_type (type_name : string) : error :=
  errorString ("pb.Codec: unsupported type " +:+ type_name).

(** [range] is the order in which a request's metadata is visited. *)
Definition Codec_Marshal (range : list (string * string)) (v : Message)
    : list byte * option error :=
  match v with
  | MsgTaskRequest m => (marshalTaskRequest range m, None)
  | MsgTaskEvent m => (marshalTaskEvent m, None)
  | MsgHealthResponse m => (marshalHealthResponse m, None)
  | MsgEmpty => ([], None)
  | MsgOther type_name => ([], Some (unsupported_type type_name))
  end.

(** The message [v] points to after the call, or the error. *)
Definition Codec_Unmarshal (data : list byte) (v : Message) : result Message :=
  match v with
  | MsgTaskRequest m => let! m := unmarshalTaskRequest data m in Ok (MsgTaskRequest m)
  | MsgTaskEvent m => let! m := unmarshalTaskEvent data m in Ok (MsgTaskEvent m)
  | MsgHealthResponse m =>
      let! m := unmarshalHealthResponse data m in Ok (MsgHealthResponse m)
  | MsgEmpty => Ok MsgEmpty
  | MsgOther type_name => Err (unsupported_type type_name)
  end.

(** ** The stderr writer ([logWriter.Write])

    [strings.TrimRight(s, "\n")] and [strings.Split(s, "\n")] on the bytes of
    [s]; [Split] of the empty string is the one empty string. *)
Fixpoint TrimRight_newline (s : string) : string :=
  match s with
  | EmptyString => EmptyString
  | String c s' =>
      match TrimRight_newline s' with
      | EmptyString => if Ascii.eqb c newline then EmptyString else String c EmptyString
      | t => String c t
      end
  end.

Fixpoint Split_newline (s : string) : list string :=
  match s with
  | EmptyString => [EmptyString]
  | String c s' =>
      if Ascii.eqb c newline then EmptyString :: Split_newline s'
      else
        match Split_newline s' with
        | line :: lines => String c line :: lines
        | [] => [String c EmptyString]
        end
  end.

(** [Write]: the lines handed to [slog.Debug], in order, and the two results. *)
Definition logWriter_Write (p : string) : list string * Z * option error :=
  let lines := Split_newline (TrimRight_newline p) in
  let logged :=
    foldl (fun logged line => if negb (String.eqb line "") then logged ++ [line] else logged)
          [] lines in
  (logged, Z.of_nat (String.length p), None).

(** The lines a write logs. *)
Definition logged (p : string) : list string := (logWriter_Write p).1.1.

Definition has_newline (s : string) : Prop := In newline (list_ascii_of_string s).

(** An event other than [Stop] and a failed health probe: the two ways a
    runner leaves Starting while its call of [Start] is still on its way. *)
Definition undisturbed (ev : Event) : Prop :=
  match ev with
  | EvStop => False
  | EvProbeResult (Some _) => False
  | _ => True
  end.

(** At most one call of [Start] is on its way, and then the runner is
    Starting. *)
Definition serialised (c : Config) : Prop :=
  forall i ph, calls c !! i = Some ph -> in_flight ph ->
    Runner.state (runner c) = StateStarting
    /\ forall j ph', calls c !! j = Some ph' -> in_flight ph' -> j = i.

(** ** [StopAll] among the other goroutines ([pb/types.go], lines 80 to 88)

    [StopAll] holds the manager's read lock and calls [Stop] on every runner
    of the map, one after the other, in the order in which [range] visits the
    map, which Go does not fix.  A call of [Stop] takes the runner's lock once
    (lines 146 to 155 of [runner.go], the event [EvStop]); the rest of it runs
    with the lock released: it closes the client, cancels the child and waits
    for the monitor, for five seconds at most.  Meanwhile, and between two
    calls of [Stop], the other goroutines take their steps on the runners:
    calls of [Start], monitors, health probes.  Nothing writes the map itself
    after [NewManager]. *)

(** The fleet, a [gmap string Config]: every runner of the manager's map with
    its calls, its monitors and its probes. *)

Inductive FleetEvent : Type :=
  | StopAll_Stop (name : string)              (* the loop's [runner.Stop()] takes the lock *)
  | Elsewhere (name : string) (ev : Event).   (* a step of another goroutine on that runner *)

Definition fleet_target (x : FleetEvent) : string * Event :=
  match x with
  | StopAll_Stop name => (name, EvStop)
  | Elsewhere name ev => (name, ev)
  end.

Definition fleet_step (f : gmap string Config) (x : FleetEvent)
    : option (gmap string Config) :=
  match f !! (fleet_target x).1 with
  | None => None
  | Some c =>
      match step c (fleet_target x).2 with
      | None => None
      | Some c' => Some (<[(fleet_target x).1:=c']> f)
      end
  end.

Definition fleet_run (f : gmap string Config) (tr : list FleetEvent)
    : option (gmap string Config) :=
  foldl (fun o x => match o with
                    | Some f => fleet_step f x
                    | None => None
                    end) (Some f) tr.

(** The runners that the loop of [StopAll] stops in [tr], in that order. *)
Definition StopAll_range (tr : list FleetEvent) : list string :=
  omap (fun x => match x with
                 | StopAll_Stop name => Some name
                 | Elsewhere _ _ => None
                 end) tr.

(** [StopAll] on the fleet [f], with [tr] all that happens from its first line
    to its return: the loop stops every runner of the map once.  [None] when
    [tr] is no such run. *)
Definition StopAll (f : gmap string Config) (tr : list FleetEvent)
    : option (gmap string Config) :=
  if decide (StopAll_range tr ≡ₚ (map_to_list f).*1) then fleet_run f tr else None.

(** The manager as its methods read it. *)
Definition manager_of (reg : Registry.t) (f : gmap string Config) : Manager.t :=
  Manager.mk reg (runner <$> f).

(** The events of [tr] on the runner [name]. *)
Definition events_on (name : string) (tr : list FleetEvent) : list Event :=
  omap (fun x => if bool_decide ((fleet_target x).1 = name)
                 then Some (fleet_target x).2 else None) tr.

(** No call of [Start] is on its way to Running. *)
Definition quiet (c : Config) : Prop :=
  forall i ph, calls c !! i = Some ph -> ~ in_flight ph.

(** An event other than a caller entering [Start] and a failed health probe. *)
Definition calm (ev : Event) : Prop :=
  match ev with
  | EvStart => False
  | EvProbeResult (Some _) => False
  | _ => True
  end.

(** One agent whose [Start] waits for the port while [StopAll] runs: the child
    is cancelled, its stdout closes, and the call of [Start] fails. *)
Definition starting_fleet : gmap string Config := {[ "s1" := waiting ]}.

Definition StopAll_while_starting : list FleetEvent :=
  [StopAll_Stop "s1";
   Elsewhere "s1" (EvHandshake 0 {| lines := [(5, "stub starting")]; closed := Some 40 |})].

(** One agent that runs; a health probe is in flight when [StopAll] stops it,
    the monitor sees the child exit once [Stop] has cancelled it, and the
    probe still gets its answer. *)
Definition running_s1 : Config :=
  {| runner := Runner.mk s1_manifest "." StateRunning 45001
                 (Some (NewAgentClient {| target := "127.0.0.1:45001" |}))
                 (Some 1%nat) (Some false) None;
     calls := [PReturned None]; monitors := 1; probes := 0 |}.

Definition running_fleet : gmap string Config := {[ "s1" := running_s1 ]}.

Definition StopAll_running : list FleetEvent :=
  [Elsewhere "s1" EvProbe; StopAll_Stop "s1";
   Elsewhere "s1" (EvExit (Some (errorString "signal: killed")));
   Elsewhere "s1" (EvProbeResult None)].

(** Stopped with nothing left to close or to cancel. *)
Definition stopped (c : Config) : Prop :=
  Runner.state (runner c) = StateStopped
  /\ Runner.client (runner c) = None
  /\ Runner.cancel (runner c) = None.

(** What calm events keep of a runner on which no call of [Start] is on its
    way. *)
Record kept (c c' : Config) : Prop := {
  kept_quiet : quiet c';
  kept_manifest : Runner.manifest (runner c') = Runner.manifest (runner c);
  kept_port : Runner.port (runner c') = Runner.port (runner c);
  kept_stopped : stopped c -> stopped c';
  kept_not_running :
    Runner.state (runner c) <> StateRunning ->
    Runner.state (runner c') <> StateRunning
    /\ Runner.err (runner c') = Runner.err (runner c)
}.

(** ** The agent endpoints ([internal/server/agents.go])

    A handler is a function from what it reads of the request to the response
    it writes: the status code and what is encoded as the body. *)

(** [strings.TrimPrefix]. *)
Definition TrimPrefix (s p : string) : string :=
  match strip_prefix p s with
  | Some rest => rest
  | None => s
  end.

(** [strings.Index(s, "/")]: the index of the first slash, or -1. *)
Fixpoint Index_slash (s : string) : Z :=
  match s with
  | EmptyString => -1
  | String c s' =>
      if Ascii.eqb c "/" then 0
      else
        let i := Index_slash s' in
        if i <? 0 then -1 else i + 1
  end.

(** The slices [s[:n]] and [s[n:]]. *)
Definition slice_to (s : string) (n : Z) : string := substring 0 (Z.to_nat n) s.
Definition slice_after (s : string) (n : Z) : string :=
  substring (Z.to_nat n) (String.length s - Z.to_nat n) s.

(** [strings.SplitN(s, "/", 2)]: cut at the first slash, if there is one. *)
Definition SplitN_slash_2 (s : string) : list string :=
  let m := Index_slash s in
  if m <? 0 then [s] else [slice_to s m; slice_after s (m + 1)].

(** [strings.HasSuffix]. *)
Fixpoint HasSuffix (s suffix : string) : bool :=
  if String.eqb s suffix then true
  else
    match s with
    | EmptyString => false
    | String _ s' => HasSuffix s' suffix
    end.

Inductive Body : Type :=
  | MethodNotAllowedBody                                    (* the text of [http.Error] *)
  | UnauthorizedBody                                        (* the text of [http.Error] *)
  | ErrorBody (msg : string)                                (* the object with key [error] *)
  | StatusBody (status : AgentStatus.t)
  | StatusesBody (statuses : list AgentStatus.t)
  | TaskBody (task_id : string) (events : list TaskEvent.t).

Record Response : Type := {
  code : Z;
  body : Body
}.

Definition StatusOK : Z := 200.
Definition StatusBadRequest : Z := 400.
Definition StatusUnauthorized : Z := 401.
Definition StatusNotFound : Z := 404.
Definition StatusMethodNotAllowed : Z := 405.
Definition StatusInternalServerError : Z := 500.

Definition agents_prefix : string := "/api/v1/agents/".

(** [handleAgents]: [range] is the order in which [AllStatuses] visits the
    runners. *)
Definition handleAgents (range : list (string * Runner.t)) (Method : string) : Response :=
  if negb (String.eqb Method "GET")
  then {| code := StatusMethodNotAllowed; body := MethodNotAllowedBody |}
  else {| code := StatusOK; body := StatusesBody (AllStatuses range) |}.

Definition handleAgent (mgr : Manager.t) (Method Path : string) : Response :=
  let name := TrimPrefix Path agents_prefix in
  let idx := Index_slash name in
  let name := if 0 <=? idx then slice_to name idx else name in
  if String.eqb Method "GET" then
    let '(status, ok) := Manager_AgentStatus mgr name in
    if negb ok then {| code := StatusNotFound; body := ErrorBody "agent not found" |}
    else {| code := StatusOK; body := StatusBody status |}
  else {| code := StatusMethodNotAllowed; body := MethodNotAllowedBody |}.

(** The request body after [json.Decode]. *)
Record TaskForm : Type := {
  form_Skill : string;
  form_Input : string;
  form_Metadata : option (gmap string string)
}.

(** [handleAgentTasks]: [decoded] is what decoding the body gives, [task_id]
    what [generateTaskID] returns, and [call] what the agent's client does
    with the request. *)
Definition handleAgentTasks (mgr : Manager.t) (Method Path : string)
    (decoded : error + TaskForm) (task_id : string)
    (call : TaskRequest.t -> error + ExecuteStream) : result Response :=
  if negb (String.eqb Method "POST")
  then Ok {| code := StatusMethodNotAllowed; body := MethodNotAllowedBody |}
  else
    let path := TrimPrefix Path agents_prefix in
    let parts := SplitN_slash_2 path in
    if (len parts =? 0) || String.eqb (nth 0 parts "") ""
    then Ok {| code := StatusBadRequest; body := ErrorBody "missing agent name" |}
    else
      let agentName := nth 0 parts "" in
      match decoded with
      | inl err => Ok {| code := StatusBadRequest; body := ErrorBody (Error err) |}
      | inr form =>
          if String.eqb (form_Skill form) ""
          then Ok {| code := StatusBadRequest; body := ErrorBody "skill is required" |}
          else
            let req := TaskRequest.mk task_id (form_Skill form) (form_Input form)
                         (form_Metadata form) in
            let! routed := (RouteTask mgr agentName (call req)).1 in
            let '(events, err) := routed in
            match err with
            | Some err =>
                Ok {| code := StatusInternalServerError; body := ErrorBody (Error err) |}
            | None => Ok {| code := StatusOK; body := TaskBody task_id events |}
            end
      end.

(** What [authMiddleware] reads ([server.go], lines 126 to 143): the token of
    the configuration and two headers of the request, each the empty string
    when the request does not carry it. *)
Record Credentials : Type := {
  BearerToken : string;
  Authorization : string;
  Referer : string
}.

(** [authMiddleware(next)]: [next] is what the wrapped handler answers; it is
    not called when the request is refused. *)
Definition authMiddleware (cr : Credentials) (next : result Response) : result Response :=
  let token := TrimPrefix (Authorization cr) "Bearer " in
  let isSameOrigin :=
    HasPrefix (Referer cr) "http://127.0.0.1:" || HasPrefix (Referer cr) "http://localhost:" in
  if negb (String.eqb token (BearerToken cr)) && negb isSameOrigin
  then Ok {| code := StatusUnauthorized; body := UnauthorizedBody |}
  else next.

(** The handler that [server.New] registers for [/api/v1/agents/] (lines 64
    to 70): the mux calls it for the paths under that prefix. *)
Definition agents_route (cr : Credentials) (mgr : Manager.t) (Method Path : string)
    (decoded : error + TaskForm) (task_id : string)
    (call : TaskRequest.t -> error + ExecuteStream) : result Response :=
  authMiddleware cr
    (if HasSuffix Path "/tasks" then handleAgentTasks mgr Method Path decoded task_id call
     else Ok (handleAgent mgr Method Path)).

(** The request passes [authMiddleware]: the [Authorization] header, less a
    leading [Bearer ], is the configured token, or the [Referer] is a page of
    the local web UI. *)
Definition authorized (cr : Credentials) : Prop :=
  TrimPrefix (Authorization cr) "Bearer " = BearerToken cr
  \/ HasPrefix (Referer cr) "http://127.0.0.1:" = true
  \/ HasPrefix (Referer cr) "http://localhost:" = true.

Definition no_slash (s : string) : Prop := Index_slash s = -1.

(** A request with the configured token, and one with a wrong token and no
    [Referer]. *)
Definition with_token : Credentials :=
  {| BearerToken := "secret"; Authorization := "Bearer secret"; Referer := "" |}.

Definition wrong_token : Credentials :=
  {| BearerToken := "secret"; Authorization := "Bearer guess"; Referer := "" |}.

(** * Properties *)

Lemma byte_to_Z_range b : 0 <= byte_to_Z b < 256.
Proof.
  unfold byte_to_Z. pose proof (Byte.to_N_bounded b). lia.
Qed.

Lemma byte_to_of_Z v : 0 <= v < 256 -> byte_to_Z (byte_of_Z v) = v.
Proof.
  intros Hv. unfold byte_to_Z, byte_of_Z.
  rewrite Z.mod_small by lia.
  destruct (Byte.of_N (Z.to_N v)) as [b|] eqn:E.
  - apply Byte.to_of_N in E. lia.
  - apply Byte.of_N_None_iff in E. lia.
Qed.

Lemma byte_of_to_Z b : byte_of_Z (byte_to_Z b) = b.
Proof.
  unfold byte_of_Z. rewrite Z.mod_small by apply byte_to_Z_range.
  unfold byte_to_Z. rewrite N2Z.id, Byte.of_to_N. reflexivity.
Qed.

(** ** protowire: how far a [Consume*] may read *)

Lemma len_nonneg {A} (l : list A) : 0 <= len l.
Proof. unfold len. lia. Qed.

Lemma len_app {A} (l1 l2 : list A) : len (l1 ++ l2) = len l1 + len l2.
Proof. unfold len. rewrite length_app. lia. Qed.

Lemma len_from n b : 0 <= n <= len b -> len (from n b) = len b - n.
Proof. unfold len, from. intros H. rewrite length_drop. lia. Qed.

Lemma consumeVarint_at_bound k shift acc n b v m :
  0 <= shift -> 0 <= acc ->
  consumeVarint_at k shift acc n b = (v, m) ->
  0 <= v /\ (m = errCodeTruncated \/ m = errCodeOverflow \/ n + 1 <= m <= n + len b).
Proof.
  revert shift acc n b. induction k as [|k IH]; intros shift acc n b Hs Ha E;
    destruct b as [|y b]; simpl in E.
  - inversion E. split; [lia | auto].
  - pose proof (byte_to_Z_range y) as Hy. pose proof (len_nonneg b).
    destruct (byte_to_Z y <? 2); inversion E; subst.
    + pose proof (Z.shiftl_nonneg (byte_to_Z y) shift).
      split; [lia | right; right; unfold len in *; simpl; lia].
    + split; [lia | auto].
  - inversion E. split; [lia | auto].
  - pose proof (byte_to_Z_range y) as Hy. pose proof (len_nonneg b).
    destruct (byte_to_Z y <? 128) eqn:E128.
    + inversion E; subst.
      pose proof (Z.shiftl_nonneg (byte_to_Z y) shift).
      split; [lia | right; right; unfold len in *; simpl; lia].
    + apply Z.ltb_ge in E128.
      pose proof (Z.shiftl_nonneg (byte_to_Z y - 128) shift).
      apply IH in E; [| lia | lia].
      destruct E as [Hv Hm]. split; [exact Hv|].
      unfold len in *. simpl length. lia.
Qed.

Lemma ConsumeVarint_bound b v n :
  ConsumeVarint b = (v, n) -> 0 <= v /\ (n < 0 \/ 1 <= n <= len b).
Proof.
  intros E. apply consumeVarint_at_bound in E; [| lia | lia].
  unfold errCodeTruncated, errCodeOverflow in E. lia.
Qed.

Lemma ConsumeTag_bound b num typ n :
  ConsumeTag b = (num, typ, n) -> n < 0 \/ 1 <= n <= len b.
Proof.
  unfold ConsumeTag. destruct (ConsumeVarint b) as [v m] eqn:E.
  apply ConsumeVarint_bound in E. destruct E as [_ E].
  destruct (m <? 0) eqn:Em.
  - intros H. inversion H; subst. lia.
  - destruct (DecodeTag v) as [num' typ']. destruct (num' <? MinValidNumber).
    + intros H. inversion H. unfold errCodeFieldNumber. lia.
    + intros H. inversion H; subst. apply Z.ltb_ge in Em. lia.
Qed.

Lemma ConsumeBytes_bound b val n :
  ConsumeBytes b = (val, n) -> n < 0 \/ 1 <= n <= len b.
Proof.
  unfold ConsumeBytes. destruct (ConsumeVarint b) as [m k] eqn:E.
  apply ConsumeVarint_bound in E. destruct E as [Hm E].
  destruct (k <? 0) eqn:Ek.
  - intros H. inversion H; subst. lia.
  - apply Z.ltb_ge in Ek.
    destruct (len (from k b) <? m) eqn:El.
    + intros H. inversion H. unfold errCodeTruncated. lia.
    + apply Z.ltb_ge in El. rewrite len_from in El by lia.
      intros H. inversion H; subst. lia.
Qed.

Lemma ConsumeFixed32_bound b : ConsumeFixed32 b < 0 \/ 0 <= ConsumeFixed32 b <= len b.
Proof.
  unfold ConsumeFixed32, errCodeTruncated. destruct (len b <? 4) eqn:E; [lia|].
  apply Z.ltb_ge in E. lia.
Qed.

Lemma ConsumeFixed64_bound b : ConsumeFixed64 b < 0 \/ 0 <= ConsumeFixed64 b <= len b.
Proof.
  unfold ConsumeFixed64, errCodeTruncated. destruct (len b <? 8) eqn:E; [lia|].
  apply Z.ltb_ge in E. lia.
Qed.

(** Reading a field value, groups included, never runs out of fuel and never
    reports more bytes than it was given. *)
Lemma consumeFieldValueD_total fuel :
  (forall num typ b depth,
      (2 * length b + 2 <= fuel)%nat ->
      exists n, consumeFieldValueD fuel num typ b depth = Some n
                /\ (n < 0 \/ 0 <= n <= len b))
  /\ (forall num b depth n0,
      (2 * length b + 1 <= fuel)%nat -> len b <= n0 ->
      exists n, consumeGroup fuel num b depth n0 = Some n
                /\ (n < 0 \/ 0 <= n <= n0)).
Proof.
  induction fuel as [|fuel [IHv IHg]].
  - split; intros; lia.
  - split.
    + intros num typ b depth Hf. simpl.
      destruct (typ =? VarintType).
      { destruct (ConsumeVarint b) as [v n] eqn:E. apply ConsumeVarint_bound in E.
        exists n. simpl. split; [reflexivity | lia]. }
      destruct (typ =? Fixed32Type).
      { eexists. split; [reflexivity | apply ConsumeFixed32_bound]. }
      destruct (typ =? Fixed64Type).
      { eexists. split; [reflexivity | apply ConsumeFixed64_bound]. }
      destruct (typ =? BytesType).
      { destruct (ConsumeBytes b) as [v n] eqn:E. apply ConsumeBytes_bound in E.
        exists n. simpl. split; [reflexivity | lia]. }
      destruct (typ =? StartGroupType).
      { destruct (depth <? 0).
        - eexists. split; [reflexivity | unfold errCodeRecursionDepth; lia].
        - apply IHg; [lia | lia]. }
      destruct (typ =? EndGroupType).
      { eexists. split; [reflexivity | unfold errCodeEndGroup; lia]. }
      eexists. split; [reflexivity | unfold errCodeReserved; lia].
    + intros num b depth n0 Hf Hn0. simpl.
      destruct (ConsumeTag b) as [[num2 typ2] n] eqn:E.
      apply ConsumeTag_bound in E.
      destruct (n <? 0) eqn:En.
      { apply Z.ltb_lt in En. exists n. split; [reflexivity | lia]. }
      apply Z.ltb_ge in En.
      assert (Hl : len (from n b) = len b - n) by (apply len_from; lia).
      pose proof (len_nonneg (from n b)) as Hnn.
      destruct (typ2 =? EndGroupType).
      { destruct (num =? num2).
        - eexists. split; [reflexivity | lia].
        - eexists. split; [reflexivity | unfold errCodeEndGroup; lia]. }
      assert (Hlen : (length (from n b) < length b)%nat) by (unfold len in *; lia).
      destruct (IHv num2 typ2 (from n b) (depth - 1)) as [k [Ek Hk]]; [lia|].
      rewrite Ek.
      destruct (k <? 0) eqn:Ek0.
      { apply Z.ltb_lt in Ek0. exists k. split; [reflexivity | lia]. }
      apply Z.ltb_ge in Ek0.
      assert (Hl2 : len (from k (from n b)) = len (from n b) - k) by (apply len_from; lia).
      apply IHg; [unfold len in *; lia | lia].
Qed.

Lemma ConsumeFieldValue_total num typ b :
  exists n, ConsumeFieldValue num typ b = Some n /\ (n < 0 \/ 0 <= n <= len b).
Proof.
  unfold ConsumeFieldValue. apply (consumeFieldValueD_total (2 * length b + 2)). lia.
Qed.

(** ** The decoders are the generic field loop *)

Lemma unmarshalMapEntry_loop_eq fuel data kv :
  unmarshalMapEntry_loop fuel data kv
  = decode_fields (errorString "invalid map entry tag")
      (fun _ => errorString "invalid map entry bytes")
      (fun _ => errorString "invalid map entry field")
      mapEntry_field fuel data kv.
Proof.
  revert data kv. induction fuel as [|fuel IH]; intros data kv; simpl; [reflexivity|].
  destruct (len data <=? 0); [reflexivity|].
  destruct (ConsumeTag data) as [[num typ] n].
  destruct (n <? 0); [reflexivity|].
  destruct (slice_from data n) as [data1| | |]; simpl; try reflexivity.
  destruct (typ =? BytesType); simpl.
  - destruct (ConsumeBytes data1) as [val k].
    destruct (k <? 0); [reflexivity|].
    destruct (slice_from data1 k) as [data2| | |]; simpl; try reflexivity.
    unfold mapEntry_field.
    destruct (num =? 1); [apply IH|]. destruct (num =? 2); apply IH.
  - destruct (fueled (ConsumeFieldValue num typ data1)) as [k| | |]; simpl; try reflexivity.
    destruct (k <? 0); [reflexivity|].
    destruct (slice_from data1 k) as [data2| | |]; simpl; try reflexivity.
    apply IH.
Qed.

Lemma unmarshalTaskRequest_loop_eq fuel data m :
  unmarshalTaskRequest_loop fuel data m
  = decode_fields (errorString "invalid tag")
      (fun num => errorString ("invalid bytes for field " +:+ itoa num))
      (fun num => errorString ("invalid field " +:+ itoa num))
      TaskRequest_field fuel data m.
Proof.
  revert data m. induction fuel as [|fuel IH]; intros data m; simpl; [reflexivity|].
  destruct (len data <=? 0); [reflexivity|].
  destruct (ConsumeTag data) as [[num typ] n].
  destruct (n <? 0); [reflexivity|].
  destruct (slice_from data n) as [data1| | |]; simpl; try reflexivity.
  destruct (typ =? BytesType); simpl.
  - destruct (ConsumeBytes data1) as [val k].
    destruct (k <? 0); [reflexivity|].
    destruct (slice_from data1 k) as [data2| | |]; simpl; try reflexivity.
    unfold TaskRequest_field.
    destruct (num =? 1); [apply IH|]. destruct (num =? 2); [apply IH|].
    destruct (num =? 3); [apply IH|].
    destruct (num =? 4); [|apply IH].
    destruct (unmarshalMapEntry val) as [kv| | |]; simpl; try reflexivity.
    apply IH.
  - destruct (fueled (ConsumeFieldValue num typ data1)) as [k| | |]; simpl; try reflexivity.
    destruct (k <? 0); [reflexivity|].
    destruct (slice_from data1 k) as [data2| | |]; simpl; try reflexivity.
    apply IH.
Qed.

Lemma unmarshalTaskEvent_loop_eq fuel data m :
  unmarshalTaskEvent_loop fuel data m
  = decode_fields (errorString "invalid tag")
      (fun num => errorString ("invalid bytes for field " +:+ itoa num))
      (fun num => errorString ("invalid field " +:+ itoa num))
      TaskEvent_field fuel data m.
Proof.
  revert data m. induction fuel as [|fuel IH]; intros data m; simpl; [reflexivity|].
  destruct (len data <=? 0); [reflexivity|].
  destruct (ConsumeTag data) as [[num typ] n].
  destruct (n <? 0); [reflexivity|].
  destruct (slice_from data n) as [data1| | |]; simpl; try reflexivity.
  destruct (typ =? BytesType); simpl.
  - destruct (ConsumeBytes data1) as [val k].
    destruct (k <? 0); [reflexivity|].
    destruct (slice_from data1 k) as [data2| | |]; simpl; try reflexivity.
    unfold TaskEvent_field.
    destruct (num =? 1); [apply IH|]. destruct (num =? 2); [apply IH|].
    destruct (num =? 3); apply IH.
  - destruct (fueled (ConsumeFieldValue num typ data1)) as [k| | |]; simpl; try reflexivity.
    destruct (k <? 0); [reflexivity|].
    destruct (slice_from data1 k) as [data2| | |]; simpl; try reflexivity.
    apply IH.
Qed.

Lemma unmarshalHealthResponse_loop_eq fuel data m :
  unmarshalHealthResponse_loop fuel data m
  = decode_fields (errorString "invalid tag")
      (fun num => errorString ("invalid bytes for field " +:+ itoa num))
      (fun num => errorString ("invalid field " +:+ itoa num))
      HealthResponse_field fuel data m.
Proof.
  revert data m. induction fuel as [|fuel IH]; intros data m; simpl; [reflexivity|].
  destruct (len data <=? 0); [reflexivity|].
  destruct (ConsumeTag data) as [[num typ] n].
  destruct (n <? 0); [reflexivity|].
  destruct (slice_from data n) as [data1| | |]; simpl; try reflexivity.
  destruct (typ =? BytesType); simpl.
  - destruct (ConsumeBytes data1) as [val k].
    destruct (k <? 0); [reflexivity|].
    destruct (slice_from data1 k) as [data2| | |]; simpl; try reflexivity.
    unfold HealthResponse_field.
    destruct (num =? 1); [apply IH|]. destruct (num =? 2); apply IH.
  - destruct (fueled (ConsumeFieldValue num typ data1)) as [k| | |]; simpl; try reflexivity.
    destruct (k <? 0); [reflexivity|].
    destruct (slice_from data1 k) as [data2| | |]; simpl; try reflexivity.
    apply IH.
Qed.

(** ** The field loop returns on every input *)

Lemma slice_from_ok data n :
  0 <= n <= len data ->
  slice_from data n = Ok (from n data) /\ len (from n data) = len data - n.
Proof.
  intros H. unfold slice_from.
  replace ((0 <=? n) && (n <=? len data)) with true
    by (symmetry; apply andb_true_intro; split; apply Z.leb_le; lia).
  split; [reflexivity | apply len_from; exact H].
Qed.

Section DecodeFieldsTotal.
Context {M : Type}.
Variables (etag : error) (ebytes efield : Z -> error).
Variable field : Z -> list byte -> M -> result M.
Hypothesis field_returns : forall num val m, returns (field num val m).

Lemma decode_fields_returns fuel data m :
  (length data <= fuel)%nat ->
  returns (decode_fields etag ebytes efield field fuel data m).
Proof.
  revert data m. induction fuel as [|fuel IH]; intros data m Hf.
  - destruct data; [exact I | simpl in Hf; lia].
  - simpl. destruct (len data <=? 0) eqn:E0; [exact I|].
    apply Z.leb_gt in E0.
    destruct (ConsumeTag data) as [[num typ] n] eqn:Et.
    apply ConsumeTag_bound in Et.
    destruct (n <? 0) eqn:En; [exact I|]. apply Z.ltb_ge in En.
    destruct (slice_from_ok data n) as [-> Hl1]; [lia|]. simpl.
    destruct (typ =? BytesType).
    + destruct (ConsumeBytes (from n data)) as [val k] eqn:Eb.
      apply ConsumeBytes_bound in Eb.
      destruct (k <? 0) eqn:Ek; [exact I|]. apply Z.ltb_ge in Ek.
      destruct (slice_from_ok (from n data) k) as [-> Hl2]; [lia|]. simpl.
      pose proof (field_returns num val m) as Hfield.
      destruct (field num val m) as [m'| | |]; simpl; try exact Hfield.
      apply IH. unfold len in *. lia.
    + destruct (ConsumeFieldValue_total num typ (from n data)) as [k [-> Hk]]. simpl.
      destruct (k <? 0) eqn:Ek; [exact I|]. apply Z.ltb_ge in Ek.
      destruct (slice_from_ok (from n data) k) as [-> Hl2]; [lia|]. simpl.
      apply IH. unfold len in *. lia.
Qed.
End DecodeFieldsTotal.

Lemma unmarshalMapEntry_returns data : returns (unmarshalMapEntry data).
Proof.
  unfold unmarshalMapEntry. rewrite unmarshalMapEntry_loop_eq.
  apply decode_fields_returns; [|lia].
  intros num val kv. unfold mapEntry_field.
  destruct (num =? 1); [exact I|]. destruct (num =? 2); exact I.
Qed.

Lemma unmarshalTaskRequest_returns data m : returns (unmarshalTaskRequest data m).
Proof.
  unfold unmarshalTaskRequest. rewrite unmarshalTaskRequest_loop_eq.
  apply decode_fields_returns; [|lia].
  intros num val m'. unfold TaskRequest_field.
  destruct (num =? 1); [exact I|]. destruct (num =? 2); [exact I|].
  destruct (num =? 3); [exact I|]. destruct (num =? 4); [|exact I].
  pose proof (unmarshalMapEntry_returns val) as H.
  destruct (unmarshalMapEntry val); simpl; auto.
Qed.

Lemma unmarshalTaskEvent_returns data m : returns (unmarshalTaskEvent data m).
Proof.
  unfold unmarshalTaskEvent. rewrite unmarshalTaskEvent_loop_eq.
  apply decode_fields_returns; [|lia].
  intros num val m'. unfold TaskEvent_field.
  destruct (num =? 1); [exact I|]. destruct (num =? 2); [exact I|].
  destruct (num =? 3); exact I.
Qed.

Lemma unmarshalHealthResponse_returns data m : returns (unmarshalHealthResponse data m).
Proof.
  unfold unmarshalHealthResponse. rewrite unmarshalHealthResponse_loop_eq.
  apply decode_fields_returns; [|lia].
  intros num val m'. unfold HealthResponse_field.
  destruct (num =? 1); [exact I|]. destruct (num =? 2); exact I.
Qed.

(** ** protowire: reading back what was appended *)

Lemma lor_continuation v : Z.lor (Z.land v 127) 128 = v mod 128 + 128.
Proof.
  assert (H0 : Z.land (Z.land v 127) 128 = 0).
  { rewrite <- Z.land_assoc. change (Z.land 127 128) with 0. apply Z.land_0_r. }
  rewrite <- Z.lxor_lor by exact H0.
  rewrite <- Z.add_nocarry_lxor by exact H0.
  change 127 with (Z.ones 7). rewrite Z.land_ones by lia. reflexivity.
Qed.

Lemma consumeVarint_at_bytes k shift acc n v rest :
  0 <= shift -> 0 <= v < 2 ^ (7 * Z.of_nat k + 1) ->
  consumeVarint_at k shift acc n (varint_bytes k v ++ rest)
  = (acc + Z.shiftl v shift, n + len (varint_bytes k v)).
Proof.
  revert shift acc n v. induction k as [|k IH]; intros shift acc n v Hs Hv.
  - simpl in *. rewrite byte_to_of_Z by lia.
    replace (v <? 2) with true by (symmetry; apply Z.ltb_lt; lia). reflexivity.
  - simpl varint_bytes. destruct (v <? 128) eqn:E.
    + apply Z.ltb_lt in E. simpl. rewrite byte_to_of_Z by lia.
      replace (v <? 128) with true by (symmetry; apply Z.ltb_lt; lia). reflexivity.
    + apply Z.ltb_ge in E. rewrite lor_continuation.
      pose proof (Z.mod_pos_bound v 128 ltac:(lia)) as Hm.
      cbn [app consumeVarint_at]. rewrite byte_to_of_Z by lia.
      replace (v mod 128 + 128 <? 128) with false by (symmetry; apply Z.ltb_ge; lia).
      rewrite Z.shiftr_div_pow2 by lia. change (2 ^ 7) with 128.
      assert (Hq : 0 <= v / 128 < 2 ^ (7 * Z.of_nat k + 1)).
      { split; [apply Z.div_pos; lia|].
        apply Z.div_lt_upper_bound; [lia|].
        replace (7 * Z.of_nat (S k) + 1) with ((7 * Z.of_nat k + 1) + 7) in Hv by lia.
        rewrite Z.pow_add_r in Hv by lia. change (2 ^ 7) with 128 in Hv. lia. }
      rewrite IH by lia.
      f_equal.
      * rewrite !Z.shiftl_mul_pow2 by lia. rewrite Z.pow_add_r by lia.
        change (2 ^ 7) with 128.
        replace (v mod 128 + 128 - 128) with (v mod 128) by lia.
        rewrite (Z.div_mod v 128) at 3 by lia. ring.
      * unfold len. simpl length. lia.
Qed.

Lemma ConsumeVarint_bytes v rest :
  0 <= v < 2 ^ 64 ->
  ConsumeVarint (varint_bytes 9 v ++ rest) = (v, len (varint_bytes 9 v)).
Proof.
  intros Hv. unfold ConsumeVarint.
  rewrite consumeVarint_at_bytes; [| lia | exact Hv].
  rewrite Z.shiftl_0_r. reflexivity.
Qed.

Lemma varint_bytes_len k v : 1 <= len (varint_bytes k v).
Proof.
  unfold len. destruct k; simpl; [lia|]. destruct (v <? 128); simpl; lia.
Qed.

(** From here on the varint loops are used through the lemmas above. *)
Arguments varint_bytes : simpl never.
Arguments consumeVarint_at : simpl never.

Lemma DecodeTag_EncodeTag num typ :
  0 <= num <= MaxInt32 -> 0 <= typ < 8 ->
  DecodeTag (EncodeTag num typ) = (num, typ).
Proof.
  intros Hn Ht. unfold DecodeTag, EncodeTag.
  assert (Hl : Z.land typ 7 = typ).
  { change 7 with (Z.ones 3). rewrite Z.land_ones by lia. apply Z.mod_small. simpl. lia. }
  rewrite Hl.
  assert (H0 : Z.land (Z.shiftl num 3) typ = 0).
  { apply Z.bits_inj'. intros i Hi. rewrite Z.land_spec, Z.bits_0.
    destruct (Z.ltb_spec i 3).
    - rewrite Z.shiftl_spec_low by lia. reflexivity.
    - rewrite (Z.bits_above_log2 typ i); [apply andb_false_r | lia |].
      destruct (Z.eq_dec typ 0) as [->|]; [simpl; lia|].
      apply Z.log2_lt_pow2; [lia|]. apply Z.lt_le_trans with (2 ^ 3); [simpl; lia|].
      apply Z.pow_le_mono_r; lia. }
  rewrite <- Z.lxor_lor by exact H0. rewrite <- Z.add_nocarry_lxor by exact H0.
  rewrite Z.shiftl_mul_pow2 by lia. change (2 ^ 3) with 8.
  rewrite Z.shiftr_div_pow2 by lia. change (2 ^ 3) with 8.
  replace ((num * 8 + typ) / 8) with num by (apply Z.div_unique with typ; lia).
  replace (MaxInt32 <? num) with false by (symmetry; apply Z.ltb_ge; lia).
  f_equal. change 7 with (Z.ones 3). rewrite Z.land_ones by lia. change (2 ^ 3) with 8.
  symmetry. apply Z.mod_unique with num; lia.
Qed.

Lemma EncodeTag_range num typ :
  0 <= num <= MaxInt32 -> 0 <= typ < 8 -> 0 <= EncodeTag num typ < 2 ^ 64.
Proof.
  intros Hn Ht. pose proof (DecodeTag_EncodeTag num typ Hn Ht) as H.
  unfold DecodeTag in H.
  assert (Hnn : 0 <= EncodeTag num typ).
  { unfold EncodeTag. apply Z.lor_nonneg. split.
    - apply Z.shiftl_nonneg. lia.
    - apply Z.land_nonneg. lia. }
  split; [exact Hnn|].
  destruct (MaxInt32 <? Z.shiftr (EncodeTag num typ) 3) eqn:E; [inversion H; lia|].
  apply Z.ltb_ge in E. rewrite Z.shiftr_div_pow2 in E by lia. change (2 ^ 3) with 8 in E.
  unfold MaxInt32 in *.
  pose proof (Z.div_mod (EncodeTag num typ) 8 ltac:(lia)).
  pose proof (Z.mod_pos_bound (EncodeTag num typ) 8 ltac:(lia)).
  change (2 ^ 64) with 18446744073709551616. lia.
Qed.

Lemma ConsumeTag_AppendTag num typ rest :
  1 <= num <= MaxInt32 -> 0 <= typ < 8 ->
  ConsumeTag (AppendTag [] num typ ++ rest) = (num, typ, len (AppendTag [] num typ)).
Proof.
  intros Hn Ht. unfold ConsumeTag, AppendTag, AppendVarint. rewrite !app_nil_l.
  rewrite ConsumeVarint_bytes by (apply EncodeTag_range; lia).
  pose proof (varint_bytes_len 9 (EncodeTag num typ)).
  replace (len (varint_bytes 9 (EncodeTag num typ)) <? 0) with false
    by (symmetry; apply Z.ltb_ge; lia).
  rewrite DecodeTag_EncodeTag by lia.
  replace (num <? MinValidNumber) with false
    by (symmetry; apply Z.ltb_ge; unfold MinValidNumber; lia).
  reflexivity.
Qed.

Lemma from_app (b1 b2 : list byte) : from (len b1) (b1 ++ b2) = b2.
Proof.
  unfold from, len. rewrite Nat2Z.id. apply drop_app_length.
Qed.

Lemma ConsumeBytes_AppendBytes v rest :
  len v < 2 ^ 64 ->
  ConsumeBytes (AppendBytes [] v ++ rest) = (v, len (AppendBytes [] v)).
Proof.
  intros Hv. pose proof (len_nonneg v) as Hnn.
  unfold ConsumeBytes, AppendBytes, AppendVarint. rewrite !app_nil_l.
  rewrite <- app_assoc.
  rewrite ConsumeVarint_bytes by lia.
  pose proof (varint_bytes_len 9 (len v)).
  replace (len (varint_bytes 9 (len v)) <? 0) with false by (symmetry; apply Z.ltb_ge; lia).
  rewrite from_app.
  replace (len (v ++ rest) <? len v) with false
    by (symmetry; apply Z.ltb_ge; rewrite len_app; pose proof (len_nonneg rest); lia).
  rewrite len_app. f_equal.
  unfold len. rewrite Nat2Z.id. apply take_app_length.
Qed.

(** ** The field loop does not depend on spare fuel *)

Section DecodeFieldsFuel.
Context {M : Type}.
Variables (etag : error) (ebytes efield : Z -> error).
Variable field : Z -> list byte -> M -> result M.

Lemma decode_fields_fuel fuel fuel' data m :
  (length data <= fuel)%nat -> (length data <= fuel')%nat ->
  decode_fields etag ebytes efield field fuel data m
  = decode_fields etag ebytes efield field fuel' data m.
Proof.
  revert fuel' data m. induction fuel as [|fuel IH]; intros fuel' data m Hf Hf'.
  - destruct data; [|simpl in Hf; lia]. destruct fuel'; reflexivity.
  - destruct fuel' as [|fuel'].
    { destruct data; [reflexivity | simpl in Hf'; lia]. }
    simpl. destruct (len data <=? 0) eqn:E0; [reflexivity|].
    destruct (ConsumeTag data) as [[num typ] n] eqn:Et.
    apply ConsumeTag_bound in Et.
    destruct (n <? 0) eqn:En; [reflexivity|]. apply Z.ltb_ge in En.
    destruct (slice_from_ok data n) as [-> Hl1]; [lia|]. simpl.
    destruct (typ =? BytesType).
    + destruct (ConsumeBytes (from n data)) as [val k] eqn:Eb.
      apply ConsumeBytes_bound in Eb.
      destruct (k <? 0) eqn:Ek; [reflexivity|]. apply Z.ltb_ge in Ek.
      destruct (slice_from_ok (from n data) k) as [-> Hl2]; [lia|]. simpl.
      destruct (field num val m) as [m'| | |]; simpl; try reflexivity.
      apply IH; unfold len in *; lia.
    + destruct (ConsumeFieldValue_total num typ (from n data)) as [k [-> Hk]]. simpl.
      destruct (k <? 0) eqn:Ek; [reflexivity|]. apply Z.ltb_ge in Ek.
      destruct (slice_from_ok (from n data) k) as [-> Hl2]; [lia|]. simpl.
      apply IH; unfold len in *; lia.
Qed.

(** One length-delimited field at the head of the input: the loop hands its
    payload to [field] and goes on with the rest. *)
Lemma decode_fields_appendBytes fuel num val rest m :
  1 <= num <= MaxInt32 -> len val < 2 ^ 64 ->
  (length (appendBytes [] num val ++ rest) <= fuel)%nat ->
  decode_fields etag ebytes efield field fuel (appendBytes [] num val ++ rest) m
  = let! m' := field num val m in
    decode_fields etag ebytes efield field (length rest) rest m'.
Proof.
  intros Hn Hv Hf.
  assert (Happ : appendBytes [] num val ++ rest
                 = AppendTag [] num BytesType ++ (AppendBytes [] val ++ rest)).
  { unfold appendBytes, AppendBytes, AppendTag, AppendVarint. rewrite ?app_nil_l.
    rewrite <- !app_assoc. reflexivity. }
  rewrite Happ in *.
  pose proof (varint_bytes_len 9 (EncodeTag num BytesType)) as Htl.
  assert (Htag : len (AppendTag [] num BytesType) = len (varint_bytes 9 (EncodeTag num BytesType)))
    by reflexivity.
  destruct fuel as [|fuel].
  { rewrite length_app in Hf. unfold len in *. lia. }
  simpl decode_fields.
  replace (len (AppendTag [] num BytesType ++ AppendBytes [] val ++ rest) <=? 0) with false.
  2:{ symmetry. apply Z.leb_gt. rewrite len_app.
      pose proof (len_nonneg (AppendBytes [] val ++ rest)). lia. }
  rewrite ConsumeTag_AppendTag by (unfold BytesType; lia).
  replace (len (AppendTag [] num BytesType) <? 0) with false
    by (symmetry; apply Z.ltb_ge; lia).
  destruct (slice_from_ok (AppendTag [] num BytesType ++ AppendBytes [] val ++ rest)
              (len (AppendTag [] num BytesType))) as [-> _].
  { rewrite len_app. pose proof (len_nonneg (AppendBytes [] val ++ rest)). lia. }
  rewrite from_app. simpl bind.
  change (BytesType =? BytesType) with true. cbv iota.
  rewrite ConsumeBytes_AppendBytes by exact Hv.
  pose proof (len_nonneg (AppendBytes [] val)) as Hbl.
  replace (len (AppendBytes [] val) <? 0) with false by (symmetry; apply Z.ltb_ge; lia).
  destruct (slice_from_ok (AppendBytes [] val ++ rest) (len (AppendBytes [] val))) as [-> _].
  { rewrite len_app. pose proof (len_nonneg rest). lia. }
  rewrite from_app. simpl bind.
  destruct (field num val m) as [m'| | |]; simpl; try reflexivity.
  apply decode_fields_fuel; [|lia].
  rewrite !length_app in Hf. unfold len in *. lia.
Qed.
End DecodeFieldsFuel.

(** ** Round trip of one string field *)

Lemma appendString_app b num s : appendString b num s = b ++ appendString [] num s.
Proof.
  unfold appendString. destruct (String.eqb s "").
  - rewrite app_nil_r. reflexivity.
  - unfold AppendBytes, AppendTag, AppendVarint. rewrite ?app_nil_l. rewrite <- !app_assoc. reflexivity.
Qed.

Lemma appendBytes_app b num data : appendBytes b num data = b ++ appendBytes [] num data.
Proof.
  unfold appendBytes, AppendBytes, AppendTag, AppendVarint. rewrite ?app_nil_l.
  rewrite <- !app_assoc. reflexivity.
Qed.

Lemma appendString_nonempty num s :
  s <> "" -> appendString [] num s = appendBytes [] num (list_byte_of_string s).
Proof.
  intros Hs. unfold appendString. destruct (String.eqb_spec s ""); [contradiction | reflexivity].
Qed.

Lemma appendString_len b num s :
  len b + len (list_byte_of_string s) <= len (appendString b num s).
Proof.
  rewrite appendString_app, len_app. unfold appendString.
  destruct (String.eqb_spec s "") as [->|_].
  - simpl. unfold len. simpl. lia.
  - unfold AppendBytes. rewrite len_app.
    pose proof (len_nonneg (AppendVarint (AppendTag [] num BytesType)
                              (len (list_byte_of_string s)))). lia.
Qed.

Lemma MaxInt_lt : MaxInt < 2 ^ 64.
Proof. unfold MaxInt. change (2 ^ 64) with (2 * 2 ^ 63). lia. Qed.

Section DecodeString.
Context {M : Type}.
Variables (etag : error) (ebytes efield : Z -> error).
Variable field : Z -> list byte -> M -> result M.

Lemma decode_fields_appendString fuel num s rest m :
  1 <= num <= MaxInt32 -> fits s ->
  (length (appendString [] num s ++ rest) <= fuel)%nat ->
  decode_fields etag ebytes efield field fuel (appendString [] num s ++ rest) m
  = if String.eqb s "" then decode_fields etag ebytes efield field (length rest) rest m
    else let! m' := field num (list_byte_of_string s) m in
         decode_fields etag ebytes efield field (length rest) rest m'.
Proof.
  intros Hn Hs Hf. unfold appendString in *.
  destruct (String.eqb s "").
  - simpl in *. apply decode_fields_fuel; lia.
  - apply decode_fields_appendBytes; [exact Hn | | exact Hf].
    pose proof MaxInt_lt. unfold fits in Hs. lia.
Qed.
End DecodeString.

(** ** Round trip of a metadata entry *)

Lemma entry_bytes_fits kv :
  len (entry_bytes kv) <= MaxInt -> fits kv.1 /\ fits kv.2.
Proof.
  intros H. unfold entry_bytes in H.
  pose proof (appendString_len (appendString [] 1 kv.1) 2 kv.2) as H2.
  pose proof (appendString_len [] 1 kv.1) as H1.
  pose proof (len_nonneg (appendString [] 1 kv.1)).
  pose proof (len_nonneg (list_byte_of_string kv.1)).
  pose proof (len_nonneg (list_byte_of_string kv.2)).
  change (len (@nil byte)) with 0 in H1.
  unfold fits. lia.
Qed.

Lemma unmarshalMapEntry_entry_bytes kv :
  len (entry_bytes kv) <= MaxInt -> unmarshalMapEntry (entry_bytes kv) = Ok kv.
Proof.
  intros Hlen. destruct (entry_bytes_fits kv Hlen) as [Hk Hv].
  destruct kv as [k v]. simpl in Hk, Hv.
  unfold unmarshalMapEntry. rewrite unmarshalMapEntry_loop_eq.
  unfold entry_bytes. simpl fst. simpl snd.
  rewrite (appendString_app (appendString [] 1 k) 2 v).
  rewrite <- (app_nil_r (appendString [] 2 v)) at 2.
  rewrite decode_fields_appendString; [| unfold MaxInt32; lia | exact Hk | rewrite app_nil_r; lia].
  assert (Hsnd : forall k0 : string,
             decode_fields (errorString "invalid map entry tag")
               (fun _ => errorString "invalid map entry bytes")
               (fun _ => errorString "invalid map entry field") mapEntry_field
               (length (appendString [] 2 v ++ [])) (appendString [] 2 v ++ []) (k0, "")
             = Ok (k0, v)).
  { intros k0. rewrite decode_fields_appendString; [| unfold MaxInt32; lia | exact Hv | lia].
    destruct (String.eqb_spec v "") as [->|Hne].
    - reflexivity.
    - simpl. rewrite string_of_list_byte_of_string. reflexivity. }
  destruct (String.eqb_spec k "") as [->|Hne].
  - apply Hsnd.
  - simpl bind. unfold mapEntry_field at 1. simpl.
    rewrite string_of_list_byte_of_string. apply Hsnd.
Qed.

(** ** Round trip of the three messages *)

Lemma decode_fields_nil {M} etag ebytes efield (field : Z -> list byte -> M -> result M) fuel m :
  decode_fields etag ebytes efield field fuel [] m = Ok m.
Proof. destruct fuel; reflexivity. Qed.

Lemma unmarshalTaskEvent_marshalTaskEvent m :
  valid_TaskEvent m -> unmarshalTaskEvent (marshalTaskEvent m) TaskEvent.zero = Ok m.
Proof.
  intros (H1 & H2 & H3). destruct m as [a b c]. simpl in H1, H2, H3.
  unfold unmarshalTaskEvent, marshalTaskEvent. rewrite unmarshalTaskEvent_loop_eq.
  cbv zeta. cbn [TaskEvent.TaskId TaskEvent.Type_ TaskEvent.Payload].
  rewrite (appendString_app _ 3 c), (appendString_app _ 2 b), <- app_assoc.
  rewrite <- (app_nil_r (appendString [] 3 c)).
  rewrite decode_fields_appendString; [| unfold MaxInt32; lia | exact H1 | lia].
  assert (Hrest : forall a0,
    decode_fields (errorString "invalid tag")
      (fun num => errorString ("invalid bytes for field " +:+ itoa num))
      (fun num => errorString ("invalid field " +:+ itoa num)) TaskEvent_field
      (length (appendString [] 2 b ++ appendString [] 3 c ++ []))
      (appendString [] 2 b ++ appendString [] 3 c ++ []) (TaskEvent.mk a0 "" "")
    = Ok (TaskEvent.mk a0 b c)).
  { intros a0.
    rewrite decode_fields_appendString; [| unfold MaxInt32; lia | exact H2 | lia].
    assert (Hlast : forall b0,
      decode_fields (errorString "invalid tag")
        (fun num => errorString ("invalid bytes for field " +:+ itoa num))
        (fun num => errorString ("invalid field " +:+ itoa num)) TaskEvent_field
        (length (appendString [] 3 c ++ [])) (appendString [] 3 c ++ [])
        (TaskEvent.mk a0 b0 "")
      = Ok (TaskEvent.mk a0 b0 c)).
    { intros b0.
      rewrite decode_fields_appendString; [| unfold MaxInt32; lia | exact H3 | lia].
      destruct (String.eqb_spec c "") as [->|_]; [reflexivity|].
      simpl. rewrite string_of_list_byte_of_string. reflexivity. }
    destruct (String.eqb_spec b "") as [->|_]; [apply Hlast|].
    simpl bind. unfold TaskEvent_field at 1. simpl.
    rewrite string_of_list_byte_of_string. apply Hlast. }
  destruct (String.eqb_spec a "") as [->|_]; [apply Hrest|].
  simpl bind. unfold TaskEvent_field at 1. simpl.
  rewrite string_of_list_byte_of_string. apply Hrest.
Qed.

Lemma unmarshalHealthResponse_marshalHealthResponse m :
  valid_HealthResponse m ->
  unmarshalHealthResponse (marshalHealthResponse m) HealthResponse.zero = Ok m.
Proof.
  intros (H1 & H2). destruct m as [a b]. simpl in H1, H2.
  unfold unmarshalHealthResponse, marshalHealthResponse.
  rewrite unmarshalHealthResponse_loop_eq.
  cbv zeta. cbn [HealthResponse.Status HealthResponse.AgentName].
  rewrite (appendString_app _ 2 b).
  rewrite <- (app_nil_r (appendString [] 2 b)).
  rewrite decode_fields_appendString; [| unfold MaxInt32; lia | exact H1 | lia].
  assert (Hlast : forall a0,
    decode_fields (errorString "invalid tag")
      (fun num => errorString ("invalid bytes for field " +:+ itoa num))
      (fun num => errorString ("invalid field " +:+ itoa num)) HealthResponse_field
      (length (appendString [] 2 b ++ [])) (appendString [] 2 b ++ [])
      (HealthResponse.mk a0 "")
    = Ok (HealthResponse.mk a0 b)).
  { intros a0.
    rewrite decode_fields_appendString; [| unfold MaxInt32; lia | exact H2 | lia].
    destruct (String.eqb_spec b "") as [->|_]; [reflexivity|].
    simpl. rewrite string_of_list_byte_of_string. reflexivity. }
  destruct (String.eqb_spec a "") as [->|_]; [apply Hlast|].
  simpl bind. unfold HealthResponse_field at 1. simpl.
  rewrite string_of_list_byte_of_string. apply Hlast.
Qed.

(** ** Round trip of a request with metadata *)

Lemma appendEntry_eq b kv : appendEntry b kv = b ++ appendBytes [] 4 (entry_bytes kv).
Proof. unfold appendEntry, entry_bytes. cbv zeta. apply appendBytes_app. Qed.

Lemma foldl_appendEntry b range :
  foldl appendEntry b range = b ++ foldl appendEntry [] range.
Proof.
  revert b. induction range as [|kv range IH]; intros b; simpl.
  - rewrite app_nil_r. reflexivity.
  - rewrite IH, (IH (appendEntry [] kv)), !appendEntry_eq, app_nil_l, app_assoc. reflexivity.
Qed.

Lemma decode_entries range m :
  (forall kv, kv ∈ range -> len (entry_bytes kv) <= MaxInt) ->
  decode_fields (errorString "invalid tag")
    (fun num => errorString ("invalid bytes for field " +:+ itoa num))
    (fun num => errorString ("invalid field " +:+ itoa num)) TaskRequest_field
    (length (foldl appendEntry [] range)) (foldl appendEntry [] range) m
  = Ok (foldl (fun m kv => set_Metadata m kv.1 kv.2) m range).
Proof.
  revert m. induction range as [|kv range IH]; intros m Hvalid.
  - apply decode_fields_nil.
  - simpl foldl. rewrite foldl_appendEntry, appendEntry_eq, app_nil_l.
    assert (Hkv : len (entry_bytes kv) <= MaxInt) by (apply Hvalid; left).
    rewrite decode_fields_appendBytes;
      [| unfold MaxInt32; lia | pose proof MaxInt_lt; lia | lia].
    unfold TaskRequest_field. simpl.
    rewrite unmarshalMapEntry_entry_bytes by exact Hkv. simpl.
    apply IH. intros kv' Hin. apply Hvalid. right. exact Hin.
Qed.

Lemma foldl_set_Metadata range a b c md :
  foldl (fun m kv => set_Metadata m kv.1 kv.2) (TaskRequest.mk a b c md) range
  = TaskRequest.mk a b c
      (match range with
       | [] => md
       | _ :: _ => Some (foldl insert_entry (entries md) range)
       end).
Proof.
  revert md. induction range as [|kv range IH]; intros md; [reflexivity|].
  simpl foldl. unfold set_Metadata at 2. simpl. rewrite IH.
  destruct range; reflexivity.
Qed.

Lemma foldl_insert_entry_lookup range (acc : gmap string string) k :
  NoDup (range.*1) ->
  foldl insert_entry acc range !! k
  = match (list_to_map range : gmap string string) !! k with
    | Some v => Some v
    | None => acc !! k
    end.
Proof.
  revert acc. induction range as [|[k0 v0] range IH]; intros acc Hnd; simpl.
  - rewrite lookup_empty. reflexivity.
  - apply NoDup_cons in Hnd as [Hnotin Hnd].
    rewrite IH by exact Hnd. unfold insert_entry. simpl.
    destruct (decide (k0 = k)) as [->|Hne].
    + rewrite !lookup_insert_eq.
      rewrite (not_elem_of_list_to_map_1 _ _ Hnotin). reflexivity.
    + rewrite !lookup_insert_ne by exact Hne. reflexivity.
Qed.

Lemma foldl_insert_entry_range (md : gmap string string) range :
  range ≡ₚ map_to_list md -> foldl insert_entry ∅ range = md.
Proof.
  intros Hperm.
  assert (Hnd : NoDup (range.*1)).
  { rewrite Hperm. apply NoDup_fst_map_to_list. }
  apply map_eq. intros k. rewrite foldl_insert_entry_lookup by exact Hnd.
  rewrite (list_to_map_proper range (map_to_list md) Hnd Hperm), list_to_map_to_list.
  rewrite lookup_empty. destruct (md !! k); reflexivity.
Qed.

Lemma unmarshalTaskRequest_marshalTaskRequest range m :
  valid_TaskRequest m ->
  range ≡ₚ map_to_list (entries (TaskRequest.Metadata m)) ->
  unmarshalTaskRequest (marshalTaskRequest range m) TaskRequest.zero
  = Ok (TaskRequest.mk (TaskRequest.TaskId m) (TaskRequest.Skill m) (TaskRequest.Input m)
          (match range with
           | [] => None
           | _ :: _ => Some (entries (TaskRequest.Metadata m))
           end)).
Proof.
  intros (H1 & H2 & H3 & H4) Hperm. destruct m as [a b c md].
  cbn [TaskRequest.TaskId TaskRequest.Skill TaskRequest.Input TaskRequest.Metadata] in *.
  assert (Hvalid : forall kv, kv ∈ range -> len (entry_bytes kv) <= MaxInt).
  { intros [k v] Hin. apply H4. rewrite Hperm in Hin.
    apply elem_of_map_to_list in Hin. exact Hin. }
  unfold unmarshalTaskRequest, marshalTaskRequest. rewrite unmarshalTaskRequest_loop_eq.
  cbv zeta. cbn [TaskRequest.TaskId TaskRequest.Skill TaskRequest.Input].
  rewrite foldl_appendEntry.
  rewrite (appendString_app _ 3 c), (appendString_app _ 2 b), <- !app_assoc.
  set (E := foldl appendEntry [] range).
  assert (Hent : forall a0 b0 c0,
    decode_fields (errorString "invalid tag")
      (fun num => errorString ("invalid bytes for field " +:+ itoa num))
      (fun num => errorString ("invalid field " +:+ itoa num)) TaskRequest_field
      (length E) E (TaskRequest.mk a0 b0 c0 None)
    = Ok (TaskRequest.mk a0 b0 c0
            (match range with [] => None | _ :: _ => Some (entries md) end))).
  { intros a0 b0 c0. unfold E. rewrite decode_entries by exact Hvalid.
    rewrite foldl_set_Metadata. destruct range as [|kv range]; [reflexivity|].
    change (entries None) with (∅ : gmap string string).
    rewrite (foldl_insert_entry_range (entries md)) by exact Hperm. reflexivity. }
  assert (Hc : forall a0 b0,
    decode_fields (errorString "invalid tag")
      (fun num => errorString ("invalid bytes for field " +:+ itoa num))
      (fun num => errorString ("invalid field " +:+ itoa num)) TaskRequest_field
      (length (appendString [] 3 c ++ E)) (appendString [] 3 c ++ E)
      (TaskRequest.mk a0 b0 "" None)
    = Ok (TaskRequest.mk a0 b0 c
            (match range with [] => None | _ :: _ => Some (entries md) end))).
  { intros a0 b0.
    rewrite decode_fields_appendString; [| unfold MaxInt32; lia | exact H3 | lia].
    destruct (String.eqb_spec c "") as [->|_]; [apply Hent|].
    simpl bind. unfold TaskRequest_field at 1, set_Input. simpl.
    rewrite string_of_list_byte_of_string. apply Hent. }
  assert (Hb : forall a0,
    decode_fields (errorString "invalid tag")
      (fun num => errorString ("invalid bytes for field " +:+ itoa num))
      (fun num => errorString ("invalid field " +:+ itoa num)) TaskRequest_field
      (length (appendString [] 2 b ++ appendString [] 3 c ++ E))
      (appendString [] 2 b ++ appendString [] 3 c ++ E)
      (TaskRequest.mk a0 "" "" None)
    = Ok (TaskRequest.mk a0 b c
            (match range with [] => None | _ :: _ => Some (entries md) end))).
  { intros a0.
    rewrite decode_fields_appendString; [| unfold MaxInt32; lia | exact H2 | lia].
    destruct (String.eqb_spec b "") as [->|_]; [apply Hc|].
    simpl bind. unfold TaskRequest_field at 1, set_Skill. simpl.
    rewrite string_of_list_byte_of_string. apply Hc. }
  rewrite decode_fields_appendString; [| unfold MaxInt32; lia | exact H1 | lia].
  destruct (String.eqb_spec a "") as [->|_]; [apply Hb|].
  simpl bind. unfold TaskRequest_field at 1, set_TaskId. simpl.
  rewrite string_of_list_byte_of_string. apply Hb.
Qed.

(** C3.  Decoding the encoding of a message gives the message back.  For a
    [TaskEvent] and a [HealthResponse] with field values a Go program can hold
    the decoder, started on a zero message, returns exactly the original: an
    empty string puts nothing on the wire and is read back as the empty string.
    For a [TaskRequest], whatever order [range] happened to visit the metadata
    map in, the decoder returns a request with the same three strings and the
    same metadata entries, every key with its value; it is the original
    itself unless the original held an allocated map with no entry, which
    comes back as the nil map. *)
Theorem codec_round_trip :
  (forall (m : TaskRequest.t) (range : list (string * string)),
      valid_TaskRequest m ->
      range ≡ₚ map_to_list (entries (TaskRequest.Metadata m)) ->
      exists m',
        unmarshalTaskRequest (marshalTaskRequest range m) TaskRequest.zero = Ok m'
        /\ same_TaskRequest m' m
        /\ (forall k, entries (TaskRequest.Metadata m') !! k
                      = entries (TaskRequest.Metadata m) !! k)
        /\ (TaskRequest.Metadata m <> Some ∅ -> m' = m))
  /\ (forall m : TaskEvent.t,
      valid_TaskEvent m -> unmarshalTaskEvent (marshalTaskEvent m) TaskEvent.zero = Ok m)
  /\ (forall m : HealthResponse.t,
      valid_HealthResponse m ->
      unmarshalHealthResponse (marshalHealthResponse m) HealthResponse.zero = Ok m).
Proof.
  split; [|split].
  - intros m range Hvalid Hperm. eexists. split.
    { apply unmarshalTaskRequest_marshalTaskRequest; eassumption. }
    assert (Hmd : entries (match range with
                           | [] => None
                           | _ :: _ => Some (entries (TaskRequest.Metadata m))
                           end) = entries (TaskRequest.Metadata m)).
    { destruct range; [|reflexivity]. simpl.
      symmetry in Hperm. apply Permutation_nil_r in Hperm.
      apply map_to_list_empty_iff in Hperm. symmetry. exact Hperm. }
    split; [|split].
    + unfold same_TaskRequest. simpl. rewrite Hmd. auto.
    + intros k. simpl. rewrite Hmd. reflexivity.
    + intros Hne. destruct m as [a b c md]. simpl in *. f_equal.
      destruct md as [md|].
      * destruct range; [|reflexivity]. exfalso. apply Hne. f_equal.
        symmetry in Hperm. apply Permutation_nil_r in Hperm.
        apply map_to_list_empty_iff in Hperm. exact Hperm.
      * destruct range as [|kv range]; [reflexivity|]. exfalso.
        simpl in Hperm. rewrite map_to_list_empty in Hperm.
        apply Permutation_nil_r in Hperm. discriminate Hperm.
  - apply unmarshalTaskEvent_marshalTaskEvent.
  - apply unmarshalHealthResponse_marshalHealthResponse.
Qed.

Lemma fits_short s : (String.length s <= 1000)%nat -> fits s.
Proof.
  intros H. unfold fits, len, list_byte_of_string.
  rewrite length_map. 
  assert (Hl : length (list_ascii_of_string s) = String.length s).
  { clear H. induction s; simpl; [reflexivity | f_equal; assumption]. }
  rewrite Hl. unfold MaxInt. change (2 ^ 63) with 9223372036854775808. lia.
Qed.

Lemma codec_round_trip_witness :
  (exists m',
      unmarshalTaskRequest (marshalTaskRequest [("b", "2"); ("a", "1")] request_t1)
        TaskRequest.zero = Ok m'
      /\ same_TaskRequest m' request_t1
      /\ (forall k, entries (TaskRequest.Metadata m') !! k
                    = entries (TaskRequest.Metadata request_t1) !! k)
      /\ (TaskRequest.Metadata request_t1 <> Some ∅ -> m' = request_t1))
  /\ unmarshalTaskEvent (marshalTaskEvent (TaskEvent.mk "t1" "result" "")) TaskEvent.zero
     = Ok (TaskEvent.mk "t1" "result" "")
  /\ unmarshalHealthResponse (marshalHealthResponse (HealthResponse.mk "ok" "s1"))
       HealthResponse.zero
     = Ok (HealthResponse.mk "ok" "s1").
Proof.
  split; [|split].
  - apply (proj1 codec_round_trip request_t1 [("b", "2"); ("a", "1")]).
    + unfold valid_TaskRequest, request_t1. simpl.
      repeat split; try (apply fits_short; simpl; lia).
      intros k v H.
      destruct (decide (k = "a")) as [->|Ha].
      * rewrite lookup_insert_eq in H. inversion H; subst. vm_compute. discriminate.
      * rewrite lookup_insert_ne in H by congruence.
        destruct (decide (k = "b")) as [->|Hb].
        -- rewrite lookup_insert_eq in H. inversion H; subst. vm_compute. discriminate.
        -- rewrite lookup_insert_ne in H by congruence. rewrite lookup_empty in H.
           discriminate H.
    + unfold request_t1. simpl.
      rewrite map_to_list_insert by reflexivity.
      rewrite map_to_list_insert by reflexivity.
      rewrite map_to_list_empty. apply Permutation_swap.
  - apply (proj1 (proj2 codec_round_trip)).
    repeat split; apply fits_short; simpl; lia.
  - apply (proj2 (proj2 codec_round_trip)).
    repeat split; apply fits_short; simpl; lia.
Defined.

(** ** Fields the message does not know *)

Lemma consumeFieldValueD_flat fuel num typ b depth :
  typ <> StartGroupType ->
  consumeFieldValueD fuel num typ b depth
  = if typ =? VarintType then Some (snd (ConsumeVarint b))
    else if typ =? Fixed32Type then Some (ConsumeFixed32 b)
    else if typ =? Fixed64Type then Some (ConsumeFixed64 b)
    else if typ =? BytesType then Some (snd (ConsumeBytes b))
    else if typ =? EndGroupType then Some errCodeEndGroup
    else Some errCodeReserved.
Proof.
  intros Hg. destruct fuel; simpl;
    destruct (typ =? VarintType); try reflexivity;
    destruct (typ =? Fixed32Type); try reflexivity;
    destruct (typ =? Fixed64Type); try reflexivity;
    destruct (typ =? BytesType); try reflexivity;
    destruct (Z.eqb_spec typ StartGroupType); try contradiction; reflexivity.
Qed.

Lemma ConsumeFieldValue_varint num v rest :
  0 <= v < 2 ^ 64 ->
  ConsumeFieldValue num VarintType (varint_bytes 9 v ++ rest)
  = Some (len (varint_bytes 9 v)).
Proof.
  intros Hv. unfold ConsumeFieldValue.
  rewrite consumeFieldValueD_flat by discriminate.
  change (VarintType =? VarintType) with true. cbv iota.
  rewrite ConsumeVarint_bytes by exact Hv. reflexivity.
Qed.

Lemma ConsumeFieldValue_fixed32 num payload rest :
  len payload = 4 -> ConsumeFieldValue num Fixed32Type (payload ++ rest) = Some 4.
Proof.
  intros Hp. unfold ConsumeFieldValue.
  rewrite consumeFieldValueD_flat by discriminate.
  change (Fixed32Type =? VarintType) with false.
  change (Fixed32Type =? Fixed32Type) with true. cbv iota.
  unfold ConsumeFixed32. rewrite len_app.
  pose proof (len_nonneg rest).
  replace (len payload + len rest <? 4) with false by (symmetry; apply Z.ltb_ge; lia).
  reflexivity.
Qed.

Lemma ConsumeFieldValue_fixed64 num payload rest :
  len payload = 8 -> ConsumeFieldValue num Fixed64Type (payload ++ rest) = Some 8.
Proof.
  intros Hp. unfold ConsumeFieldValue.
  rewrite consumeFieldValueD_flat by discriminate.
  change (Fixed64Type =? VarintType) with false.
  change (Fixed64Type =? Fixed32Type) with false.
  change (Fixed64Type =? Fixed64Type) with true. cbv iota.
  unfold ConsumeFixed64. rewrite len_app.
  pose proof (len_nonneg rest).
  replace (len payload + len rest <? 8) with false by (symmetry; apply Z.ltb_ge; lia).
  reflexivity.
Qed.

Lemma ConsumeFieldValue_reserved num typ b :
  typ = 6 \/ typ = 7 \/ typ = EndGroupType ->
  exists n, ConsumeFieldValue num typ b = Some n /\ n < 0.
Proof.
  intros H. unfold ConsumeFieldValue.
  rewrite consumeFieldValueD_flat by (unfold StartGroupType, EndGroupType in *; lia).
  destruct H as [-> | [-> | ->]]; simpl; eexists; (split; [reflexivity|]);
    unfold errCodeReserved, errCodeEndGroup; lia.
Qed.

(** ** Groups *)

Lemma consumeGroup_S fuel num b depth n0 :
  consumeGroup (S fuel) num b depth n0
  = let '(num2, typ2, n) := ConsumeTag b in
    if n <? 0 then Some n
    else
      let b := from n b in
      if typ2 =? EndGroupType then
        if num =? num2 then Some (n0 - len b) else Some errCodeEndGroup
      else
        match consumeFieldValueD fuel num2 typ2 b (depth - 1) with
        | None => None
        | Some n =>
            if n <? 0 then Some n else consumeGroup fuel num (from n b) depth n0
        end.
Proof. reflexivity. Qed.

Lemma consumeFieldValueD_group fuel num b depth :
  consumeFieldValueD (S fuel) num StartGroupType b depth
  = if depth <? 0 then Some errCodeRecursionDepth
    else consumeGroup fuel num b depth (len b).
Proof. reflexivity. Qed.

Lemma len_AppendTag_pos num typ : 1 <= len (AppendTag [] num typ).
Proof. apply (varint_bytes_len 9 (EncodeTag num typ)). Qed.

(** One field without a group inside a group: the loop steps over its tag and
    its value and goes on. *)
Lemma consumeGroup_flat fuel num num2 typ2 value b depth n0 :
  valid_number num2 -> 0 <= typ2 < 8 ->
  typ2 <> StartGroupType -> typ2 <> EndGroupType ->
  consumeFieldValueD fuel num2 typ2 (value ++ b) (depth - 1) = Some (len value) ->
  consumeGroup (S fuel) num (AppendTag [] num2 typ2 ++ value ++ b) depth n0
  = consumeGroup fuel num b depth n0.
Proof.
  intros Hn Ht Hs He Hv. rewrite consumeGroup_S.
  rewrite ConsumeTag_AppendTag by (unfold valid_number in Hn; lia).
  pose proof (len_AppendTag_pos num2 typ2) as Htl.
  replace (len (AppendTag [] num2 typ2) <? 0) with false by (symmetry; apply Z.ltb_ge; lia).
  cbv zeta. rewrite from_app.
  destruct (Z.eqb_spec typ2 EndGroupType) as [|_]; [contradiction|].
  rewrite Hv. pose proof (len_nonneg value) as Hvl.
  replace (len value <? 0) with false by (symmetry; apply Z.ltb_ge; lia).
  rewrite from_app. reflexivity.
Qed.

Lemma consumeGroup_wire_fields d body :
  wire_fields d body ->
  forall fuel num rest depth n0,
    valid_number num -> 0 <= depth ->
    (2 * length (body ++ AppendTag [] num EndGroupType ++ rest) + 1 <= fuel)%nat ->
    consumeGroup fuel num (body ++ AppendTag [] num EndGroupType ++ rest) depth n0
    = Some (if Z.of_nat d <=? depth then n0 - len rest else errCodeRecursionDepth).
Proof.
  induction 1 as [|num' v d fs Hn' Hv _ IH|num' payload d fs Hn' Hp _ IH
                  |num' payload d fs Hn' Hp _ IH|num' val d fs Hn' Hval _ IH
                  |num' d1 body d2 fs Hn' _ IH1 _ IH2];
    intros fuel num rest depth n0 Hn Hd Hf.
  - (* the end tag *)
    destruct fuel as [|fuel]; [lia|]. rewrite app_nil_l, consumeGroup_S.
    rewrite ConsumeTag_AppendTag by (unfold valid_number, EndGroupType in *; lia).
    pose proof (len_AppendTag_pos num EndGroupType) as Htl.
    replace (len (AppendTag [] num EndGroupType) <? 0) with false
      by (symmetry; apply Z.ltb_ge; lia).
    cbv zeta. rewrite from_app. rewrite !Z.eqb_refl.
    replace (Z.of_nat 0 <=? depth) with true by (symmetry; apply Z.leb_le; lia).
    reflexivity.
  - (* a varint *)
    destruct fuel as [|fuel]; [lia|].
    unfold AppendVarint in *. rewrite <- !app_assoc.
    rewrite (consumeGroup_flat fuel num num' VarintType (varint_bytes 9 v));
      [| exact Hn' | unfold VarintType; lia | discriminate | discriminate |].
    + apply IH; [exact Hn | exact Hd |].
      rewrite !length_app in *. pose proof (len_AppendTag_pos num' VarintType).
      unfold len in *. lia.
    + rewrite consumeFieldValueD_flat by discriminate.
      change (VarintType =? VarintType) with true. cbv iota.
      rewrite ConsumeVarint_bytes by exact Hv. reflexivity.
  - (* four bytes *)
    destruct fuel as [|fuel]; [lia|]. rewrite <- !app_assoc.
    rewrite (consumeGroup_flat fuel num num' Fixed32Type payload);
      [| exact Hn' | unfold Fixed32Type; lia | discriminate | discriminate |].
    + apply IH; [exact Hn | exact Hd |].
      rewrite !length_app in *. pose proof (len_AppendTag_pos num' Fixed32Type).
      unfold len in *. lia.
    + rewrite consumeFieldValueD_flat by discriminate.
      change (Fixed32Type =? VarintType) with false.
      change (Fixed32Type =? Fixed32Type) with true. cbv iota.
      unfold ConsumeFixed32. rewrite len_app.
      pose proof (len_nonneg (fs ++ AppendTag [] num EndGroupType ++ rest)).
      replace (len payload + len (fs ++ AppendTag [] num EndGroupType ++ rest) <? 4)
        with false by (symmetry; apply Z.ltb_ge; lia).
      rewrite Hp. reflexivity.
  - (* eight bytes *)
    destruct fuel as [|fuel]; [lia|]. rewrite <- !app_assoc.
    rewrite (consumeGroup_flat fuel num num' Fixed64Type payload);
      [| exact Hn' | unfold Fixed64Type; lia | discriminate | discriminate |].
    + apply IH; [exact Hn | exact Hd |].
      rewrite !length_app in *. pose proof (len_AppendTag_pos num' Fixed64Type).
      unfold len in *. lia.
    + rewrite consumeFieldValueD_flat by discriminate.
      change (Fixed64Type =? VarintType) with false.
      change (Fixed64Type =? Fixed32Type) with false.
      change (Fixed64Type =? Fixed64Type) with true. cbv iota.
      unfold ConsumeFixed64. rewrite len_app.
      pose proof (len_nonneg (fs ++ AppendTag [] num EndGroupType ++ rest)).
      replace (len payload + len (fs ++ AppendTag [] num EndGroupType ++ rest) <? 8)
        with false by (symmetry; apply Z.ltb_ge; lia).
      rewrite Hp. reflexivity.
  - (* length-delimited *)
    destruct fuel as [|fuel]; [lia|].
    assert (Happ : appendBytes [] num' val
                   = AppendTag [] num' BytesType ++ AppendBytes [] val).
    { unfold appendBytes, AppendBytes, AppendTag, AppendVarint. rewrite ?app_nil_l.
      rewrite <- !app_assoc. reflexivity. }
    rewrite Happ in *. rewrite <- !app_assoc.
    rewrite (consumeGroup_flat fuel num num' BytesType (AppendBytes [] val));
      [| exact Hn' | unfold BytesType; lia | discriminate | discriminate |].
    + apply IH; [exact Hn | exact Hd |].
      rewrite !length_app in *. pose proof (len_AppendTag_pos num' BytesType).
      unfold len in *. lia.
    + rewrite consumeFieldValueD_flat by discriminate.
      change (BytesType =? VarintType) with false.
      change (BytesType =? Fixed32Type) with false.
      change (BytesType =? Fixed64Type) with false.
      change (BytesType =? BytesType) with true. cbv iota.
      rewrite ConsumeBytes_AppendBytes by (pose proof MaxInt_lt; lia). reflexivity.
  - (* a group *)
    destruct fuel as [|fuel]; [lia|]. rewrite <- !app_assoc. rewrite consumeGroup_S.
    rewrite ConsumeTag_AppendTag by (unfold valid_number, StartGroupType in *; lia).
    pose proof (len_AppendTag_pos num' StartGroupType) as Htl.
    pose proof (len_AppendTag_pos num' EndGroupType) as Hel.
    replace (len (AppendTag [] num' StartGroupType) <? 0) with false
      by (symmetry; apply Z.ltb_ge; lia).
    cbv zeta. rewrite from_app.
    change (StartGroupType =? EndGroupType) with false. cbv iota.
    destruct fuel as [|fuel].
    { rewrite !length_app in Hf. unfold len in *. lia. }
    rewrite consumeFieldValueD_group.
    destruct (Z.ltb_spec (depth - 1) 0) as [Hlow|Hok].
    + (* the limit is reached here *)
      change (errCodeRecursionDepth <? 0) with true. cbv iota.
      replace (Z.of_nat (Nat.max (S d1) d2) <=? depth) with false
        by (symmetry; apply Z.leb_gt; lia).
      reflexivity.
    + rewrite (IH1 fuel num' (fs ++ AppendTag [] num EndGroupType ++ rest) (depth - 1));
        [| exact Hn' | lia | rewrite !length_app in *; unfold len in *; lia].
      destruct (Z.leb_spec (Z.of_nat d1) (depth - 1)) as [Hd1|Hd1].
      * rewrite !len_app.
        pose proof (len_nonneg body). pose proof (len_nonneg fs).
        pose proof (len_nonneg rest).
        pose proof (len_AppendTag_pos num EndGroupType).
        match goal with
        | |- context [?n <? 0] =>
            replace (n <? 0) with false by (symmetry; apply Z.ltb_ge; lia)
        end.
        replace (len body + (len (AppendTag [] num' EndGroupType)
                             + (len fs + (len (AppendTag [] num EndGroupType) + len rest)))
                 - (len fs + (len (AppendTag [] num EndGroupType) + len rest)))
          with (len (body ++ AppendTag [] num' EndGroupType))
          by (rewrite len_app; lia).
        rewrite (app_assoc body), from_app.
        rewrite (IH2 (S fuel) num rest depth n0);
          [| exact Hn | exact Hd | rewrite !length_app in *; unfold len in *; lia].
        destruct (Z.leb_spec (Z.of_nat d2) depth);
          destruct (Z.leb_spec (Z.of_nat (Nat.max (S d1) d2)) depth); try reflexivity; lia.
      * change (errCodeRecursionDepth <? 0) with true. cbv iota.
        replace (Z.of_nat (Nat.max (S d1) d2) <=? depth) with false
          by (symmetry; apply Z.leb_gt; lia).
        reflexivity.
Qed.

(** A group of well-formed fields, closed by its end tag: the extent is the
    body and the end tag, unless the groups inside are nested deeper than the
    recursion limit. *)
Lemma ConsumeFieldValue_group num d body rest :
  valid_number num -> wire_fields d body ->
  ConsumeFieldValue num StartGroupType (body ++ AppendTag [] num EndGroupType ++ rest)
  = Some (if Z.of_nat d <=? DefaultRecursionLimit
          then len (body ++ AppendTag [] num EndGroupType)
          else errCodeRecursionDepth).
Proof.
  intros Hn Hw. unfold ConsumeFieldValue.
  replace (2 * length (body ++ AppendTag [] num EndGroupType ++ rest) + 2)%nat
    with (S (2 * length (body ++ AppendTag [] num EndGroupType ++ rest) + 1)) by lia.
  rewrite consumeFieldValueD_group.
  change (DefaultRecursionLimit <? 0) with false. cbv iota.
  rewrite (consumeGroup_wire_fields d body Hw); [| exact Hn | unfold DefaultRecursionLimit; lia | lia].
  destruct (Z.of_nat d <=? DefaultRecursionLimit); [|reflexivity].
  f_equal. rewrite !len_app. lia.
Qed.

Section DecodeFieldsSkip.
Context {M : Type}.
Variables (etag : error) (ebytes efield : Z -> error).
Variable field : Z -> list byte -> M -> result M.

Lemma decode_fields_other_type fuel num typ body n m :
  valid_number num -> 0 <= typ < 8 -> typ <> BytesType ->
  ConsumeFieldValue num typ body = Some n ->
  (length (AppendTag [] num typ ++ body) <= fuel)%nat ->
  decode_fields etag ebytes efield field fuel (AppendTag [] num typ ++ body) m
  = if n <? 0 then Err (efield num)
    else decode_fields etag ebytes efield field (length (from n body)) (from n body) m.
Proof.
  intros Hn Ht Hb Hc Hf.
  pose proof (varint_bytes_len 9 (EncodeTag num typ)) as Htl.
  assert (Htag : len (AppendTag [] num typ) = len (varint_bytes 9 (EncodeTag num typ)))
    by reflexivity.
  pose proof (len_nonneg body) as Hbl.
  destruct fuel as [|fuel].
  { rewrite length_app in Hf. unfold len in *. lia. }
  simpl decode_fields.
  replace (len (AppendTag [] num typ ++ body) <=? 0) with false
    by (symmetry; apply Z.leb_gt; rewrite len_app; lia).
  rewrite ConsumeTag_AppendTag by (unfold valid_number in Hn; lia).
  replace (len (AppendTag [] num typ) <? 0) with false by (symmetry; apply Z.ltb_ge; lia).
  destruct (slice_from_ok (AppendTag [] num typ ++ body) (len (AppendTag [] num typ)))
    as [-> _]; [rewrite len_app; lia|].
  rewrite from_app. simpl bind.
  destruct (Z.eqb_spec typ BytesType) as [|_]; [contradiction|].
  rewrite Hc. simpl.
  destruct (n <? 0) eqn:En; [reflexivity|]. apply Z.ltb_ge in En.
  destruct (ConsumeFieldValue_total num typ body) as [n' [Hc' Hbound]].
  rewrite Hc in Hc'. inversion Hc'; subst n'.
  destruct (slice_from_ok body n) as [-> Hl]; [lia|]. simpl.
  apply decode_fields_fuel; [|lia].
  rewrite length_app in Hf. unfold len in *. lia.
Qed.
End DecodeFieldsSkip.

Lemma from_len_app (b1 b2 : list byte) n : n = len b1 -> from n (b1 ++ b2) = b2.
Proof. intros ->. apply from_app. Qed.

Section DecoderSpec.
Context {M : Type}.
Variables (etag : error) (ebytes : Z -> error).
Variable field : Z -> list byte -> M -> result M.
Variable known : list Z.
Hypothesis field_returns : forall num val m, returns (field num val m).
Hypothesis field_unknown : forall num val m, num ∉ known -> field num val m = Ok m.

Let dec (data : list byte) (m : M) : result M :=
  decode_fields etag ebytes invalid_field field (length data) data m.

Lemma decode_fields_spec : decoder_spec dec known.
Proof.
  assert (Hother : forall num typ body n m,
    valid_number num -> 0 <= typ < 8 -> typ <> BytesType ->
    ConsumeFieldValue num typ body = Some n -> 0 <= n ->
    dec (AppendTag [] num typ ++ body) m = dec (from n body) m).
  { intros num typ body n m Hn Ht Hb Hc Hpos. unfold dec.
    rewrite (decode_fields_other_type _ _ _ _ _ num typ body n) by (auto; lia).
    replace (n <? 0) with false by (symmetry; apply Z.ltb_ge; lia). reflexivity. }
  split.
  - intros data m. apply decode_fields_returns; [exact field_returns | lia].
  - intros num val rest m Hn Hk Hv. unfold dec.
    rewrite decode_fields_appendBytes;
      [| exact Hn | pose proof MaxInt_lt; lia | lia].
    rewrite field_unknown by exact Hk. reflexivity.
  - exact Hother.
  - intros num v rest m Hn Hv.
    unfold AppendVarint. rewrite <- app_assoc.
    rewrite (Hother num VarintType _ (len (varint_bytes 9 v)));
      [| exact Hn | unfold VarintType; lia | discriminate
       | apply ConsumeFieldValue_varint; exact Hv
       | pose proof (varint_bytes_len 9 v); lia].
    rewrite from_app. reflexivity.
  - intros num payload rest m Hn Hp.
    rewrite (Hother num Fixed32Type _ 4);
      [| exact Hn | unfold Fixed32Type; lia | discriminate
       | apply ConsumeFieldValue_fixed32; exact Hp | lia].
    rewrite (from_len_app payload rest 4) by congruence. reflexivity.
  - intros num payload rest m Hn Hp.
    rewrite (Hother num Fixed64Type _ 8);
      [| exact Hn | unfold Fixed64Type; lia | discriminate
       | apply ConsumeFieldValue_fixed64; exact Hp | lia].
    rewrite (from_len_app payload rest 8) by congruence. reflexivity.
  - intros num d body rest m Hn Hw Hd.
    pose proof (ConsumeFieldValue_group num d body rest Hn Hw) as Hc.
    replace (Z.of_nat d <=? DefaultRecursionLimit) with true in Hc
      by (symmetry; apply Z.leb_le; exact Hd).
    rewrite (Hother num StartGroupType _ _ m Hn ltac:(unfold StartGroupType; lia)
               ltac:(discriminate) Hc (len_nonneg _)).
    rewrite app_assoc, from_app. reflexivity.
  - intros num d body rest m Hn Hw Hd. unfold dec.
    pose proof (ConsumeFieldValue_group num d body rest Hn Hw) as Hc.
    replace (Z.of_nat d <=? DefaultRecursionLimit) with false in Hc
      by (symmetry; apply Z.leb_gt; exact Hd).
    rewrite (decode_fields_other_type _ _ _ _ _ num StartGroupType _ errCodeRecursionDepth);
      [| exact Hn | unfold StartGroupType; lia | discriminate | exact Hc | lia].
    reflexivity.
  - intros num typ rest m Hn Ht. unfold dec.
    destruct (ConsumeFieldValue_reserved num typ rest Ht) as [n [Hc Hneg]].
    rewrite (decode_fields_other_type _ _ _ _ _ num typ rest n);
      [| exact Hn | unfold EndGroupType in Ht; lia
       | unfold BytesType, EndGroupType in *; lia | exact Hc | lia].
    replace (n <? 0) with true by (symmetry; apply Z.ltb_lt; lia). reflexivity.
Qed.
End DecoderSpec.

Lemma decoder_spec_ext {M} (f g : list byte -> M -> result M) known :
  (forall data m, f data m = g data m) -> decoder_spec g known -> decoder_spec f known.
Proof.
  intros Heq [H1 H2 H3 H4 H5 H6 H7 H8 H9].
  split; intros; rewrite !Heq; eauto.
Qed.

(** C4, as the code has it.  Each of the three decoders returns on every byte
    sequence, with a message or with a decode error: no slice bound leaves the
    input and no loop runs on.  A length-delimited field whose number the
    message does not use is stepped over, payload included.  A field of
    another wire type is stepped over by the extent the wire format gives it:
    the varint, the four bytes, the eight bytes, and the group of well-formed
    fields, body and matching end tag, as long as the groups inside it are
    nested no deeper than the recursion limit of 10000; a group with deeper
    nesting makes the decoder return the error "invalid field N".  A reserved
    wire type (6 or 7) has no extent and, like an end tag with no group open,
    makes the decoder return the same error. *)
Theorem decoders_total_and_skip :
  decoder_spec unmarshalTaskRequest [1; 2; 3; 4]
  /\ decoder_spec unmarshalTaskEvent [1; 2; 3]
  /\ decoder_spec unmarshalHealthResponse [1; 2].
Proof.
  split; [|split].
  - apply decoder_spec_ext with
      (g := fun data m =>
              decode_fields (errorString "invalid tag")
                (fun num => errorString ("invalid bytes for field " +:+ itoa num))
                invalid_field TaskRequest_field (length data) data m).
    { intros data m. apply unmarshalTaskRequest_loop_eq. }
    apply decode_fields_spec.
    + intros num val m. unfold TaskRequest_field.
      destruct (num =? 1); [exact I|]. destruct (num =? 2); [exact I|].
      destruct (num =? 3); [exact I|]. destruct (num =? 4); [|exact I].
      pose proof (unmarshalMapEntry_returns val) as H.
      destruct (unmarshalMapEntry val); simpl; auto.
    + intros num val m Hk. unfold TaskRequest_field.
      destruct (Z.eqb_spec num 1) as [->|_]; [exfalso; apply Hk; set_solver|].
      destruct (Z.eqb_spec num 2) as [->|_]; [exfalso; apply Hk; set_solver|].
      destruct (Z.eqb_spec num 3) as [->|_]; [exfalso; apply Hk; set_solver|].
      destruct (Z.eqb_spec num 4) as [->|_]; [exfalso; apply Hk; set_solver|].
      reflexivity.
  - apply decoder_spec_ext with
      (g := fun data m =>
              decode_fields (errorString "invalid tag")
                (fun num => errorString ("invalid bytes for field " +:+ itoa num))
                invalid_field TaskEvent_field (length data) data m).
    { intros data m. apply unmarshalTaskEvent_loop_eq. }
    apply decode_fields_spec.
    + intros num val m. unfold TaskEvent_field.
      destruct (num =? 1); [exact I|]. destruct (num =? 2); [exact I|].
      destruct (num =? 3); exact I.
    + intros num val m Hk. unfold TaskEvent_field.
      destruct (Z.eqb_spec num 1) as [->|_]; [exfalso; apply Hk; set_solver|].
      destruct (Z.eqb_spec num 2) as [->|_]; [exfalso; apply Hk; set_solver|].
      destruct (Z.eqb_spec num 3) as [->|_]; [exfalso; apply Hk; set_solver|].
      reflexivity.
  - apply decoder_spec_ext with
      (g := fun data m =>
              decode_fields (errorString "invalid tag")
                (fun num => errorString ("invalid bytes for field " +:+ itoa num))
                invalid_field HealthResponse_field (length data) data m).
    { intros data m. apply unmarshalHealthResponse_loop_eq. }
    apply decode_fields_spec.
    + intros num val m. unfold HealthResponse_field.
      destruct (num =? 1); [exact I|]. destruct (num =? 2); exact I.
    + intros num val m Hk. unfold HealthResponse_field.
      destruct (Z.eqb_spec num 1) as [->|_]; [exfalso; apply Hk; set_solver|].
      destruct (Z.eqb_spec num 2) as [->|_]; [exfalso; apply Hk; set_solver|].
      reflexivity.
Qed.

Lemma wire_fields_nested_groups k : wire_fields k (nested_groups k).
Proof.
  induction k as [|k IH]; [constructor|].
  apply (wire_group 1 k (nested_groups k) 0 []); [unfold valid_number, MaxInt32; lia | exact IH | constructor].
Qed.

(** A field numbered 9 in front of an encoded event: length-delimited, as a
    varint, with the reserved wire type 6, as a group that holds a varint and
    an empty group, and as a group around 10001 nested groups. *)
Lemma decoders_total_and_skip_witness :
  unmarshalTaskEvent
    (appendBytes [] 9 [x01; x02] ++ marshalTaskEvent (TaskEvent.mk "t1" "result" "done"))
    TaskEvent.zero
  = unmarshalTaskEvent (marshalTaskEvent (TaskEvent.mk "t1" "result" "done")) TaskEvent.zero
  /\ unmarshalTaskEvent
       (AppendVarint (AppendTag [] 9 VarintType) 300
        ++ marshalTaskEvent (TaskEvent.mk "t1" "result" "done"))
       TaskEvent.zero
     = unmarshalTaskEvent (marshalTaskEvent (TaskEvent.mk "t1" "result" "done")) TaskEvent.zero
  /\ unmarshalTaskEvent
       (AppendTag [] 9 6 ++ marshalTaskEvent (TaskEvent.mk "t1" "result" "done"))
       TaskEvent.zero
     = Err (invalid_field 9)
  /\ unmarshalTaskEvent
       (AppendTag [] 9 StartGroupType
        ++ (AppendVarint (AppendTag [] 7 VarintType) 300 ++ nested_groups 1)
        ++ AppendTag [] 9 EndGroupType
        ++ marshalTaskEvent (TaskEvent.mk "t1" "result" "done"))
       TaskEvent.zero
     = unmarshalTaskEvent (marshalTaskEvent (TaskEvent.mk "t1" "result" "done")) TaskEvent.zero
  /\ unmarshalTaskEvent
       (AppendTag [] 9 StartGroupType ++ nested_groups (Z.to_nat 10001)
        ++ AppendTag [] 9 EndGroupType
        ++ marshalTaskEvent (TaskEvent.mk "t1" "result" "done"))
       TaskEvent.zero
     = Err (invalid_field 9).
Proof.
  pose proof (proj1 (proj2 decoders_total_and_skip)) as H.
  split; [|split; [|split; [|split]]].
  - apply (spec_unknown_number _ _ H).
    + unfold valid_number, MaxInt32. lia.
    + rewrite !not_elem_of_cons. repeat split; try discriminate. apply not_elem_of_nil.
    + vm_compute. discriminate.
  - apply (spec_varint _ _ H).
    + unfold valid_number, MaxInt32. lia.
    + lia.
  - apply (spec_reserved _ _ H).
    + unfold valid_number, MaxInt32. lia.
    + left. reflexivity.
  - apply (spec_group _ _ H 9 1%nat).
    + unfold valid_number, MaxInt32. lia.
    + apply wire_varint; [unfold valid_number, MaxInt32; lia | lia |].
      apply wire_fields_nested_groups.
    + unfold DefaultRecursionLimit. lia.
  - apply (spec_group_too_deep _ _ H 9 (Z.to_nat 10001)).
    + unfold valid_number, MaxInt32. lia.
    + apply wire_fields_nested_groups.
    + rewrite Z2Nat.id by lia. unfold DefaultRecursionLimit. lia.
Defined.

(** C4 as the spec words it fails: the tag [0x0e] announces field 1 with wire
    type 6, which none of the messages uses.  It is not stepped over: each
    decoder gives up with "invalid field 1", although what follows the tag is a
    well-formed field that the decoder reads when the tag is not there. *)
Lemma reserved_wire_type_not_skipped :
  ConsumeTag [x0e] = (1, 6, 1)
  /\ unmarshalTaskRequest [x0e; x0a; x02; x74; x31] TaskRequest.zero
     = Err (errorString "invalid field 1")
  /\ unmarshalTaskRequest [x0a; x02; x74; x31] TaskRequest.zero
     = Ok (TaskRequest.mk "t1" "" "" None)
  /\ unmarshalTaskEvent [x0e; x0a; x02; x74; x31] TaskEvent.zero
     = Err (errorString "invalid field 1")
  /\ unmarshalTaskEvent [x0a; x02; x74; x31] TaskEvent.zero
     = Ok (TaskEvent.mk "t1" "" "")
  /\ unmarshalHealthResponse [x0e; x0a; x02; x74; x31] HealthResponse.zero
     = Err (errorString "invalid field 1")
  /\ unmarshalHealthResponse [x0a; x02; x74; x31] HealthResponse.zero
     = Ok (HealthResponse.mk "t1" "").
Proof. repeat split; vm_compute; reflexivity. Qed.

(** ** The registry: the first declarant of a skill owns it *)

Lemma register_skills_lookup sm m skill :
  register_skills sm m !! skill
  = match sm !! skill with
    | Some name => Some name
    | None => if bool_decide (skill ∈ Manifest.Skills m) then Some (Manifest.Name m) else None
    end.
Proof.
  unfold register_skills. generalize (Manifest.Name m) as name.
  generalize (Manifest.Skills m) as skills. intros skills name. revert sm.
  induction skills as [|s skills IH]; intros sm; simpl.
  - destruct (sm !! skill); reflexivity.
  - rewrite IH. destruct (decide (s = skill)) as [->|Hne].
    + destruct (sm !! skill) as [existing|] eqn:E.
      * rewrite E. reflexivity.
      * rewrite lookup_insert_eq. rewrite bool_decide_eq_true_2 by left. reflexivity.
    + assert (Hmem : bool_decide (skill ∈ s :: skills) = bool_decide (skill ∈ skills)).
      { apply bool_decide_ext. rewrite elem_of_cons.
        split; [intros [Heq|Hin]; [congruence | exact Hin] | auto]. }
      rewrite Hmem.
      destruct (sm !! s) as [existing|] eqn:E; [reflexivity|].
      rewrite lookup_insert_ne by exact Hne. reflexivity.
Qed.

Lemma foldl_register_agents r ms :
  Registry.agents (foldl register r ms) = Registry.agents r ++ ms.
Proof.
  revert r. induction ms as [|m ms IH]; intros r; simpl.
  - rewrite app_nil_r. reflexivity.
  - rewrite IH. simpl. rewrite <- app_assoc. reflexivity.
Qed.

Lemma foldl_register_lookup r ms skill :
  Registry.skillMap (foldl register r ms) !! skill
  = match Registry.skillMap r !! skill with
    | Some name => Some name
    | None => first_declarant skill ms
    end.
Proof.
  revert r. induction ms as [|m ms IH]; intros r; simpl.
  - destruct (Registry.skillMap r !! skill); reflexivity.
  - rewrite IH. simpl. rewrite register_skills_lookup.
    destruct (Registry.skillMap r !! skill); [reflexivity|].
    destruct (bool_decide (skill ∈ Manifest.Skills m)); reflexivity.
Qed.

Lemma first_declarant_app skill ms1 ms2 :
  first_declarant skill (ms1 ++ ms2)
  = match first_declarant skill ms1 with
    | Some name => Some name
    | None => first_declarant skill ms2
    end.
Proof.
  induction ms1 as [|m ms1 IH]; simpl; [reflexivity|].
  destruct (bool_decide (skill ∈ Manifest.Skills m)); [reflexivity | exact IH].
Qed.

Section NewRegistryFacts.
Variable filepath_Dir : string -> string.
Variable filepath_Join : list string -> string.
Variable ReadDir : string -> ReadDirResult.
Variable Stat_IsNotExist : string -> bool.
Variable ReadFile : string -> error + list byte.
Variable json_Unmarshal : list byte -> error + Manifest.t.

Lemma foldl_scan_entry agentsDir r entries :
  foldl (scan_entry filepath_Join Stat_IsNotExist ReadFile json_Unmarshal agentsDir) r entries
  = foldl register r
      (accepted filepath_Join Stat_IsNotExist ReadFile json_Unmarshal agentsDir entries).
Proof.
  revert r. induction entries as [|entry entries IH]; intros r; [reflexivity|].
  simpl. rewrite IH. unfold scan_entry.
  destruct (negb (IsDir entry)); [reflexivity|].
  destruct (Stat_IsNotExist _); [reflexivity|].
  destruct (LoadManifest _ _ _) as [m [err|]]; reflexivity.
Qed.

(** C5.  Whatever the directory holds, [NewRegistry] keeps every accepted
    manifest, in scan order, and maps each skill to one name: that of the
    first accepted manifest that declares it (and to none when no accepted
    manifest does).  So a manifest that loses one skill to an earlier
    declarant is still in the agent list, and each of its skills that no
    earlier manifest declares is mapped to it. *)
Theorem NewRegistry_first_declarant_wins :
  forall (agentsDir : string) (entries : list DirEntry),
    ReadDir agentsDir = DirEntries entries ->
    let ms := accepted filepath_Join Stat_IsNotExist ReadFile json_Unmarshal agentsDir entries in
    exists r,
      NewRegistry filepath_Dir filepath_Join ReadDir Stat_IsNotExist ReadFile json_Unmarshal
        agentsDir = (Some r, None)
      /\ Registry.agents r = ms
      /\ (forall skill, AgentForSkill r skill = first_declarant skill ms)
      /\ (forall before m after skill,
            ms = before ++ m :: after ->
            skill ∈ Manifest.Skills m ->
            first_declarant skill before = None ->
            m ∈ Registry.agents r /\ AgentForSkill r skill = Some (Manifest.Name m)).
Proof.
  intros agentsDir entries Hdir ms. unfold NewRegistry. rewrite Hdir. cbv zeta.
  eexists. split; [reflexivity|].
  rewrite foldl_scan_entry. fold ms.
  assert (Hlookup : forall skill,
    AgentForSkill (foldl register (Registry.mk [] ∅ (filepath_Dir agentsDir)) ms) skill
    = first_declarant skill ms).
  { intros skill. unfold AgentForSkill. rewrite foldl_register_lookup. simpl.
    rewrite lookup_empty. reflexivity. }
  split; [|split].
  - rewrite foldl_register_agents. reflexivity.
  - exact Hlookup.
  - intros before m after skill Hms Hin Hfirst. split.
    + rewrite foldl_register_agents. simpl. rewrite Hms.
      apply elem_of_app. right. left.
    + rewrite Hlookup, Hms, first_declarant_app, Hfirst. simpl.
      rewrite bool_decide_eq_true_2 by exact Hin. reflexivity.
Qed.
End NewRegistryFacts.

Lemma NewRegistry_first_declarant_wins_witness :
  exists r,
    NewRegistry (fun _ => ".") demo_Join demo_ReadDir (fun _ => false) demo_ReadFile
      demo_Unmarshal "agents" = (Some r, None)
    /\ Registry.agents r = [alpha_manifest; beta_manifest]
    /\ AgentForSkill r "summarize" = Some "alpha"
    /\ AgentForSkill r "translate" = Some "beta".
Proof.
  destruct (NewRegistry_first_declarant_wins (fun _ => ".") demo_Join demo_ReadDir
              (fun _ => false) demo_ReadFile demo_Unmarshal "agents" _ eq_refl)
    as (r & Hnew & Hagents & Hskill & _).
  exists r. split; [exact Hnew|]. split; [exact Hagents|].
  rewrite !Hskill. split; reflexivity.
Defined.

(** ** The manifest loader *)

Lemma Validate_None m :
  Validate m = None
  <-> Manifest.Name m <> "" /\ Manifest.Skills m <> [] /\ Manifest.Command m <> "".
Proof.
  unfold Validate.
  destruct (String.eqb_spec (Manifest.Name m) "") as [Hn|Hn].
  { split; [discriminate | intros (H & _); contradiction]. }
  destruct (Manifest.Skills m) as [|s skills].
  { simpl. split; [discriminate | intros (_ & H & _); contradiction]. }
  replace (len (s :: skills) =? 0) with false
    by (symmetry; apply Z.eqb_neq; unfold len; simpl; lia).
  destruct (String.eqb_spec (Manifest.Command m) "") as [Hc|Hc].
  { split; [discriminate | intros (_ & _ & H); contradiction]. }
  split; [intros _; repeat split; [exact Hn | discriminate | exact Hc] | reflexivity].
Qed.

Lemma prefix_empty s : String.prefix "" s = true.
Proof. destruct s; reflexivity. Qed.

Section LoadManifestFacts.
Variable ReadFile : string -> error + list byte.
Variable json_Unmarshal : list byte -> error + Manifest.t.

(** C8, as the code has it.  [LoadManifest] fails in three ways that its
    error tells apart: the file cannot be read, its content does not parse,
    or the parsed manifest is not valid; each error wraps its cause, and in
    every other case the parsed manifest is returned with no error.  A
    manifest is valid exactly when it has a name, at least one skill and a
    command; [dir], like [description] and [args], is not looked at. *)
Theorem LoadManifest_error_kinds :
  forall path : string,
    (forall cause, ReadFile path = inl cause ->
       exists err, LoadManifest ReadFile json_Unmarshal path = (Manifest.zero, Some err)
                   /\ manifest_error_kind err = Some ManifestIOError
                   /\ Unwrap err = Some cause)
    /\ (forall data cause, ReadFile path = inr data -> json_Unmarshal data = inl cause ->
       exists err, LoadManifest ReadFile json_Unmarshal path = (Manifest.zero, Some err)
                   /\ manifest_error_kind err = Some ManifestParseError
                   /\ Unwrap err = Some cause)
    /\ (forall data m cause, ReadFile path = inr data -> json_Unmarshal data = inr m ->
       Validate m = Some cause ->
       exists err, LoadManifest ReadFile json_Unmarshal path = (Manifest.zero, Some err)
                   /\ manifest_error_kind err = Some ManifestValidationError
                   /\ Unwrap err = Some cause)
    /\ (forall data m, ReadFile path = inr data -> json_Unmarshal data = inr m ->
       Validate m = None ->
       LoadManifest ReadFile json_Unmarshal path = (m, None))
    /\ (forall m, Validate m = None
                  <-> Manifest.Name m <> "" /\ Manifest.Skills m <> []
                      /\ Manifest.Command m <> "")
    /\ (forall name description skills command args dir dir',
          Validate (Manifest.mk name description skills command args dir)
          = Validate (Manifest.mk name description skills command args dir')).
Proof.
  intros path. split; [|split; [|split; [|split; [|split]]]].
  - intros cause H. unfold LoadManifest. rewrite H. eexists. split; [reflexivity|].
    split; [unfold manifest_error_kind, Errorf_w; simpl; rewrite prefix_empty; reflexivity | reflexivity].
  - intros data cause H1 H2. unfold LoadManifest. rewrite H1, H2.
    eexists. split; [reflexivity|].
    split; [unfold manifest_error_kind, Errorf_w; simpl; rewrite prefix_empty; reflexivity | reflexivity].
  - intros data m cause H1 H2 H3. unfold LoadManifest. rewrite H1, H2, H3.
    eexists. split; [reflexivity|].
    split; [unfold manifest_error_kind, Errorf_w; simpl; rewrite prefix_empty; reflexivity | reflexivity].
  - intros data m H1 H2 H3. unfold LoadManifest. rewrite H1, H2, H3. reflexivity.
  - apply Validate_None.
  - intros. reflexivity.
Qed.
End LoadManifestFacts.

Lemma LoadManifest_error_kinds_witness :
  LoadManifest demo_ReadFile demo_Unmarshal "agents/alpha/manifest.json"
  = (alpha_manifest, None)
  /\ exists err,
       LoadManifest demo_ReadFile demo_Unmarshal "agents/gamma/manifest.json"
       = (Manifest.zero, Some err)
       /\ manifest_error_kind err = Some ManifestParseError
       /\ Unwrap err = Some (errorString "unexpected end of JSON input").
Proof.
  split.
  - apply (proj1 (proj2 (proj2 (proj2
             (LoadManifest_error_kinds demo_ReadFile demo_Unmarshal
                "agents/alpha/manifest.json"))))
             (list_byte_of_string "agents/alpha/manifest.json") alpha_manifest);
      reflexivity.
  - apply (proj1 (proj2
             (LoadManifest_error_kinds demo_ReadFile demo_Unmarshal
                "agents/gamma/manifest.json"))
             (list_byte_of_string "agents/gamma/manifest.json")); reflexivity.
Defined.

(** C8 as the spec words it fails on [dir]: a manifest with a name, a skill
    and a command but no [dir] passes validation and is loaded. *)
Lemma Validate_accepts_missing_dir :
  Manifest.Dir no_dir_manifest = ""
  /\ Validate no_dir_manifest = None
  /\ LoadManifest (fun _ => inr []) (fun _ => inr no_dir_manifest) "agents/s1/manifest.json"
     = (no_dir_manifest, None).
Proof. repeat split. Qed.

(** ** The runner under every schedule *)

Lemma run_snoc c evs ev :
  run c (evs ++ [ev])
  = match run c evs with
    | Some c' => step c' ev
    | None => None
    end.
Proof. unfold run. rewrite foldl_app. reflexivity. Qed.

Lemma announced_snoc evs ev : announced (evs ++ [ev]) = announced evs ++ announced [ev].
Proof. unfold announced. apply omap_app. Qed.

Lemma before_port_insert (l : list Phase) i ph :
  before_port ph ->
  (forall j ph', l !! j = Some ph' -> before_port ph') ->
  forall j ph', <[i:=ph]> l !! j = Some ph' -> before_port ph'.
Proof.
  intros Hph Hl j ph' Hj. apply list_lookup_insert_Some in Hj.
  destruct Hj as [(-> & <- & _) | (_ & Hj)]; [exact Hph | eapply Hl; exact Hj].
Qed.

Lemma before_port_snoc (l : list Phase) ph :
  before_port ph ->
  (forall j ph', l !! j = Some ph' -> before_port ph') ->
  forall j ph', (l ++ [ph]) !! j = Some ph' -> before_port ph'.
Proof.
  intros Hph Hl j ph' Hj. apply lookup_app_Some in Hj.
  destruct Hj as [Hj | (_ & Hj)]; [eapply Hl; exact Hj|].
  apply list_lookup_singleton_Some in Hj. destruct Hj as (_ & <-). exact Hph.
Qed.

Ltac same_announced :=
  match goal with
  | |- invariant (?evs ++ [?ev]) _ =>
      assert (Hsame : announced (evs ++ [ev]) = announced evs)
        by (rewrite announced_snoc; simpl; rewrite ?app_nil_r; reflexivity)
  end.

Lemma invariant_fail_call evs ev i e c :
  announced [ev] = [] -> invariant evs c -> invariant (evs ++ [ev]) (fail_call i e c).
Proof.
  intros Hev [Hc Hs Hn Hp].
  assert (Hsame : announced (evs ++ [ev]) = announced evs)
    by (rewrite announced_snoc, Hev, app_nil_r; reflexivity).
  split; rewrite ?Hsame; simpl; try discriminate.
  - intros Ha. destruct (Hn Ha) as (H0 & _ & Hcalls).
    split; [exact H0|]. split; [discriminate|].
    apply before_port_insert; [exact I | exact Hcalls].
  - exact Hp.
Qed.

Lemma invariant_step evs c ev c' :
  invariant evs c -> step c ev = Some c' -> invariant (evs ++ [ev]) c'.
Proof.
  intros Hinv Hstep. pose proof Hinv as [Hc Hs Hn Hp].
  destruct ev as [|i cause|i cause|i cancel|i out|i failure|i|i| |werr| |failure]; simpl in Hstep.
  - (* EvStart *)
    same_announced. unfold Start_enter in Hstep.
    destruct (bool_decide (Runner.state (runner c) = StateRunning)
              || bool_decide (Runner.state (runner c) = StateStarting)) eqn:E;
      inversion Hstep; subst c'; clear Hstep; split; rewrite ?Hsame; simpl; auto;
      try discriminate.
    + intros Ha. destruct (Hn Ha) as (H0 & H1 & Hcalls).
      repeat split; auto. apply before_port_snoc; [exact I | exact Hcalls].
    + intros Ha. destruct (Hn Ha) as (H0 & H1 & Hcalls).
      repeat split; auto; try discriminate. apply before_port_snoc; [exact I | exact Hcalls].
  - destruct (calls c !! i) as [[| | | | |]|]; inversion Hstep; subst c'.
    apply invariant_fail_call; [reflexivity | exact Hinv].
  - destruct (calls c !! i) as [[| | | | |]|]; inversion Hstep; subst c'.
    apply invariant_fail_call; [reflexivity | exact Hinv].
  - (* EvSpawned *)
    destruct (calls c !! i) as [[| | | | |]|]; inversion Hstep; subst c'; clear Hstep.
    same_announced. split; rewrite ?Hsame; simpl; auto.
    intros Ha. destruct (Hn Ha) as (H0 & H1 & Hcalls).
    repeat split; auto. apply before_port_insert; [exact I | exact Hcalls].
  - (* EvHandshake *)
    destruct (calls c !! i) as [[| | | | |]|]; try discriminate Hstep.
    destruct (select_handshake out) as [port|e|] eqn:Esel; inversion Hstep; subst c'; clear Hstep.
    + assert (Hann : announced (evs ++ [EvHandshake i out]) = announced evs ++ [port])
        by (rewrite announced_snoc; simpl; rewrite Esel; reflexivity).
      split; rewrite ?Hann; simpl; auto.
      * intros Ha. apply app_eq_nil in Ha as [_ Ha]. discriminate Ha.
      * intros _. apply elem_of_app. right. left.
    + apply invariant_fail_call; [simpl; rewrite Esel; reflexivity | exact Hinv].
    + apply invariant_fail_call; [simpl; rewrite Esel; reflexivity | exact Hinv].
  - (* EvDial *)
    destruct (calls c !! i) as [[| | | | |]|] eqn:Ei; try discriminate Hstep.
    destruct failure as [cause|]; inversion Hstep; subst c'; clear Hstep.
    + apply invariant_fail_call; [reflexivity | exact Hinv].
    + same_announced. split; rewrite ?Hsame; simpl; auto.
      intros Ha. destruct (Hn Ha) as (_ & _ & Hcalls).
      destruct (Hcalls i PDial Ei).
  - (* EvConnected *)
    destruct (calls c !! i) as [[| | |cl| |]|] eqn:Ei; inversion Hstep; subst c'; clear Hstep.
    same_announced. split; rewrite ?Hsame; simpl; auto; try discriminate.
    intros Ha. destruct (Hn Ha) as (_ & _ & Hcalls).
    destruct (Hcalls i (PConnect cl) Ei).
  - (* EvReturn *)
    destruct (calls c !! i) as [[| | | | |]|]; inversion Hstep; subst c'; clear Hstep.
    same_announced. split; rewrite ?Hsame; simpl; auto.
    intros Ha. destruct (Hn Ha) as (H0 & H1 & Hcalls).
    repeat split; auto. apply before_port_insert; [exact I | exact Hcalls].
  - (* EvStop *)
    inversion Hstep; subst c'; clear Hstep.
    same_announced. split; rewrite ?Hsame; simpl; auto; try discriminate.
    intros Ha. destruct (Hn Ha) as (H0 & H1 & Hcalls). repeat split; auto; discriminate.
  - (* EvExit *)
    destruct (monitors c) as [|n]; [discriminate Hstep|].
    unfold monitor_locked in Hstep.
    destruct (Runner.done (runner c)) as [[|]|]; try discriminate Hstep;
      destruct (bool_decide (Runner.state (runner c) = StateRunning)) eqn:E;
      inversion Hstep; subst c'; clear Hstep;
      same_announced; split; rewrite ?Hsame; simpl; auto; try discriminate;
      intros Ha; destruct (Hn Ha) as (H0 & H1 & Hcalls); repeat split; auto; discriminate.
  - (* EvProbe *)
    destruct (bool_decide (Runner.state (runner c) = StateRunning));
      inversion Hstep; subst c'; clear Hstep;
      same_announced; split; rewrite ?Hsame; simpl; auto.
  - (* EvProbeResult *)
    destruct (probes c) as [|n]; [discriminate Hstep|].
    inversion Hstep; subst c'; clear Hstep.
    same_announced.
    destruct failure as [e|]; split; rewrite ?Hsame; simpl; auto; try discriminate.
    intros Ha. destruct (Hn Ha) as (H0 & H1 & Hcalls). repeat split; auto; discriminate.
Qed.

Lemma invariant_init m baseDir : invariant [] (init m baseDir).
Proof.
  split; simpl; try discriminate.
  - intros _. split; [reflexivity|]. split; [discriminate|].
    intros i ph H. rewrite lookup_nil in H. discriminate H.
  - intros H. contradiction.
Qed.

Lemma invariant_run m baseDir evs c :
  run (init m baseDir) evs = Some c -> invariant evs c.
Proof.
  revert c. induction evs as [|ev evs IH] using rev_ind; intros c Hrun.
  - inversion Hrun. apply invariant_init.
  - rewrite run_snoc in Hrun.
    destruct (run (init m baseDir) evs) as [c0|]; [|discriminate Hrun].
    eapply invariant_step; [apply IH; reflexivity | exact Hrun].
Qed.

(** ** The handshake *)

Lemma append_String a s1 s2 : String a s1 +:+ s2 = String a (s1 +:+ s2).
Proof. reflexivity. Qed.

Lemma append_empty_l s : "" +:+ s = s.
Proof. reflexivity. Qed.

Lemma strip_prefix_app p s : strip_prefix p (p +:+ s) = Some s.
Proof.
  induction p as [|a p IH]; [reflexivity|].
  rewrite append_String. simpl. rewrite Ascii.eqb_refl. exact IH.
Qed.

Lemma prefix_append p s : String.prefix p (p +:+ s) = true.
Proof.
  induction p as [|a p IH]; [apply prefix_empty|].
  rewrite append_String. simpl. destruct (ascii_dec a a); [exact IH | congruence].
Qed.

Lemma strip_prefix_Some p s rest : strip_prefix p s = Some rest -> s = p +:+ rest.
Proof.
  revert s. induction p as [|a p IH]; intros s H.
  - inversion H. reflexivity.
  - destruct s as [|b s]; [discriminate|]. simpl in H.
    destruct (Ascii.eqb a b) eqn:E; [|discriminate].
    apply Ascii.eqb_eq in E. subst b. rewrite append_String. f_equal. apply IH. exact H.
Qed.

Lemma append_empty_r s : s +:+ "" = s.
Proof. induction s as [|c s IH]; [reflexivity|]. rewrite append_String, IH. reflexivity. Qed.

(** *** Bytes and runes *)

Lemma append_assoc s1 s2 s3 : (s1 +:+ s2) +:+ s3 = s1 +:+ s2 +:+ s3.
Proof.
  induction s1 as [|c s1 IH]; [reflexivity|]. rewrite !append_String, IH. reflexivity.
Qed.

Lemma length_append s1 s2 :
  String.length (s1 +:+ s2) = (String.length s1 + String.length s2)%nat.
Proof.
  induction s1 as [|c s1 IH]; [reflexivity|]. rewrite append_String. simpl. rewrite IH.
  reflexivity.
Qed.

Lemma char_code_range c : 0 <= char_code c < 256.
Proof.
  unfold char_code. pose proof (nat_ascii_bounded c) as H. lia.
Qed.

Lemma ascii_of_char_code c : ascii_of_nat (Z.to_nat (char_code c)) = c.
Proof. unfold char_code. rewrite Nat2Z.id. apply ascii_nat_embedding. Qed.

Lemma char_code_of_ascii z :
  0 <= z < 256 -> char_code (ascii_of_nat (Z.to_nat z)) = z.
Proof.
  intros Hz. unfold char_code. rewrite nat_ascii_embedding by lia. lia.
Qed.

Lemma char_code_inj c z : char_code c = z -> c = ascii_of_nat (Z.to_nat z).
Proof. intros <-. symmetry. apply ascii_of_char_code. Qed.

Lemma forallb_seqZ (f : Z -> bool) m n k :
  forallb f (seqZ m n) = true -> m <= k < m + n -> f k = true.
Proof.
  intros H Hk. rewrite forallb_forall in H. apply H.
  apply list_elem_of_In, elem_of_seqZ. exact Hk.
Qed.

Lemma utf8_first_range p0 sz lo hi :
  utf8_first p0 = Some (sz, lo, hi) ->
  128 <= lo /\ hi <= 191
  /\ ((sz = 2%nat /\ 194 <= p0 < 224 /\ lo = 128 /\ hi = 191)
      \/ (sz = 3%nat /\ 224 <= p0 < 240) \/ (sz = 4%nat /\ 240 <= p0 < 245)).
Proof.
  unfold utf8_first. intros Hf.
  repeat match type of Hf with
         | (if ?b then _ else _) = _ => destruct b eqn:?
         end; inversion Hf; subst;
    repeat match goal with
           | H : (_ <? _) = _ |- _ => first [apply Z.ltb_lt in H | apply Z.ltb_ge in H]
           | H : (_ =? _) = _ |- _ => first [apply Z.eqb_eq in H | apply Z.eqb_neq in H]
           end; lia.
Qed.

(** The spaces of one byte, by running through the bytes below 128. *)
Lemma isSpace_ascii p0 :
  0 <= p0 < 128 -> isSpace p0 = true -> p0 <> 10 -> [p0] ∈ blank_codes.
Proof.
  intros Hp Hs Hn.
  assert (Hall : forallb (fun p => implb (isSpace p && negb (p =? 10))
                                    (bool_decide ([p] ∈ blank_codes)))
                   (seqZ 0 128) = true) by (vm_compute; reflexivity).
  pose proof (forallb_seqZ _ 0 128 p0 Hall ltac:(lia)) as H. cbv beta in H.
  rewrite Hs in H. replace (p0 =? 10) with false in H
    by (symmetry; apply Z.eqb_neq; exact Hn).
  exact (bool_decide_eq_true_1 _ H).
Qed.

(** The spaces of two and of three bytes, and that four bytes are none, by
    running through the encodings [DecodeRune] accepts. *)
Lemma isSpace_rune2 p0 b1 :
  194 <= p0 < 224 -> 128 <= b1 <= 191 -> isSpace (rune2 p0 b1) = true ->
  [p0; b1] ∈ blank_codes.
Proof.
  intros Hp Hb Hs.
  assert (Hall : forallb (fun p => forallb (fun b =>
                    implb (isSpace (rune2 p b)) (bool_decide ([p; b] ∈ blank_codes)))
                   (seqZ 128 64)) (seqZ 194 30) = true) by (vm_compute; reflexivity).
  pose proof (forallb_seqZ _ _ _ p0 Hall ltac:(lia)) as H1. cbv beta in H1.
  pose proof (forallb_seqZ _ _ _ b1 H1 ltac:(lia)) as H2. cbv beta in H2.
  rewrite Hs in H2. exact (bool_decide_eq_true_1 _ H2).
Qed.

Lemma isSpace_rune3 p0 b1 b2 lo hi :
  utf8_first p0 = Some (3%nat, lo, hi) ->
  lo <= b1 <= hi -> 128 <= b2 <= 191 -> isSpace (rune3 p0 b1 b2) = true ->
  [p0; b1; b2] ∈ blank_codes.
Proof.
  intros Hf Hb1 Hb2 Hs.
  assert (Hall : forallb (fun p =>
                    match utf8_first p with
                    | Some (_, lo, hi) =>
                        forallb (fun b =>
                          if (b <? lo) || (hi <? b) then true
                          else forallb (fun b' =>
                                 implb (isSpace (rune3 p b b'))
                                   (bool_decide ([p; b; b'] ∈ blank_codes)))
                                 (seqZ 128 64))
                          (seqZ 128 64)
                    | None => true
                    end) (seqZ 224 16) = true) by (vm_compute; reflexivity).
  destruct (utf8_first_range _ _ _ _ Hf) as (Hlo & Hhi & [(H & _) | [(_ & Hp) | (H & _)]]);
    try discriminate H.
  pose proof (forallb_seqZ _ _ _ p0 Hall ltac:(lia)) as H1. cbv beta in H1.
  rewrite Hf in H1.
  pose proof (forallb_seqZ _ _ _ b1 H1 ltac:(lia)) as H2. cbv beta in H2.
  replace ((b1 <? lo) || (hi <? b1)) with false in H2
    by (symmetry; apply orb_false_iff; split; apply Z.ltb_ge; lia).
  pose proof (forallb_seqZ _ _ _ b2 H2 ltac:(lia)) as H3. cbv beta in H3.
  rewrite Hs in H3. exact (bool_decide_eq_true_1 _ H3).
Qed.

Lemma isSpace_rune4 p0 b1 b2 b3 lo hi :
  utf8_first p0 = Some (4%nat, lo, hi) ->
  lo <= b1 <= hi -> 128 <= b2 <= 191 -> 128 <= b3 <= 191 ->
  isSpace (rune4 p0 b1 b2 b3) = false.
Proof.
  intros Hf Hb1 Hb2 Hb3.
  assert (Hall : forallb (fun p =>
                    match utf8_first p with
                    | Some (_, lo, hi) =>
                        forallb (fun b =>
                          if (b <? lo) || (hi <? b) then true
                          else forallb (fun b' => forallb (fun b'' =>
                                 negb (isSpace (rune4 p b b' b''))) (seqZ 128 64))
                                 (seqZ 128 64))
                          (seqZ 128 64)
                    | None => true
                    end) (seqZ 240 5) = true) by (vm_compute; reflexivity).
  destruct (utf8_first_range _ _ _ _ Hf) as (Hlo & Hhi & [(H & _) | [(H & _) | (_ & Hp)]]);
    try discriminate H.
  pose proof (forallb_seqZ _ _ _ p0 Hall ltac:(lia)) as H1. cbv beta in H1.
  rewrite Hf in H1.
  pose proof (forallb_seqZ _ _ _ b1 H1 ltac:(lia)) as H2. cbv beta in H2.
  replace ((b1 <? lo) || (hi <? b1)) with false in H2
    by (symmetry; apply orb_false_iff; split; apply Z.ltb_ge; lia).
  pose proof (forallb_seqZ _ _ _ b2 H2 ltac:(lia)) as H3. cbv beta in H3.
  pose proof (forallb_seqZ _ _ _ b3 H3 ltac:(lia)) as H4. cbv beta in H4.
  apply negb_true_iff. exact H4.
Qed.

Lemma byte_string_1 c0 s : byte_string [char_code c0] +:+ s = String c0 s.
Proof. unfold byte_string. cbn. rewrite ascii_of_char_code. reflexivity. Qed.

Lemma byte_string_2 c0 c1 s :
  byte_string [char_code c0; char_code c1] +:+ s = String c0 (String c1 s).
Proof. unfold byte_string. cbn. rewrite !ascii_of_char_code. reflexivity. Qed.

Lemma byte_string_3 c0 c1 c2 s :
  byte_string [char_code c0; char_code c1; char_code c2] +:+ s
  = String c0 (String c1 (String c2 s)).
Proof. unfold byte_string. cbn. rewrite !ascii_of_char_code. reflexivity. Qed.

Lemma isSpace_RuneError : isSpace RuneError = false.
Proof. reflexivity. Qed.

(** A rune that [SkipSpace] passes over is written by the bytes of a blank. *)
Lemma DecodeRune_blank_inv c0 s1 r size :
  DecodeRune (String c0 s1) = (r, size) -> isSpace r = true -> r <> 10 ->
  exists b, b ∈ blank_codes
            /\ String c0 s1 = byte_string b +:+ drop_string size (String c0 s1).
Proof.
  unfold DecodeRune. intros Hd Hs Hn.
  pose proof (char_code_range c0) as Hc0.
  destruct (Z.ltb_spec (char_code c0) 128) as [Hlow|Hhigh].
  { inversion Hd; subst r size. exists [char_code c0]. split.
    - apply isSpace_ascii; [lia | exact Hs | exact Hn].
    - rewrite byte_string_1. reflexivity. }
  assert (Herr : forall n, (RuneError, n) = (r, size) -> False).
  { intros n H. inversion H; subst r. rewrite isSpace_RuneError in Hs. discriminate Hs. }
  destruct (utf8_first (char_code c0)) as [[[sz lo] hi]|] eqn:Hf; [|destruct (Herr _ Hd)].
  destruct (utf8_first_range _ _ _ _ Hf) as (Hlo & Hhi & Hsz).
  destruct s1 as [|c1 s2]; [destruct (Herr _ Hd)|].
  destruct (Z.ltb_spec (char_code c1) lo); [destruct (Herr _ Hd)|].
  destruct (Z.ltb_spec hi (char_code c1)); [destruct (Herr _ Hd)|].
  cbn [orb] in Hd.
  destruct Hsz as [(-> & Hp & -> & ->) | [(-> & Hp) | (-> & Hp)]]; cbn [Nat.leb] in Hd.
  - inversion Hd; subst r size. exists [char_code c0; char_code c1]. split.
    + apply isSpace_rune2; [lia | lia | exact Hs].
    + rewrite byte_string_2. reflexivity.
  - destruct s2 as [|c2 s3]; [destruct (Herr _ Hd)|].
    unfold continuation in Hd.
    destruct (Z.leb_spec 128 (char_code c2)); [|destruct (Herr _ Hd)].
    destruct (Z.leb_spec (char_code c2) 191); [|destruct (Herr _ Hd)].
    cbn [andb negb] in Hd. inversion Hd; subst r size.
    exists [char_code c0; char_code c1; char_code c2]. split.
    + eapply isSpace_rune3; [exact Hf | lia | lia | exact Hs].
    + rewrite byte_string_3. reflexivity.
  - destruct s2 as [|c2 s3]; [destruct (Herr _ Hd)|].
    unfold continuation in Hd.
    destruct (Z.leb_spec 128 (char_code c2)); [|destruct (Herr _ Hd)].
    destruct (Z.leb_spec (char_code c2) 191); [|destruct (Herr _ Hd)].
    cbn [andb negb] in Hd.
    destruct s3 as [|c3 s4]; [destruct (Herr _ Hd)|].
    destruct (Z.leb_spec 128 (char_code c3)); [|destruct (Herr _ Hd)].
    destruct (Z.leb_spec (char_code c3) 191); [|destruct (Herr _ Hd)].
    cbn [andb negb] in Hd. inversion Hd; subst r size.
    rewrite (isSpace_rune4 _ _ _ _ _ _ Hf) in Hs by lia. discriminate Hs.
Qed.

(** The bytes of a blank are read as one rune, a space that is no newline. *)
Lemma DecodeRune_blank b rest :
  b ∈ blank_codes ->
  exists c0 s1 r,
    byte_string b +:+ rest = String c0 s1
    /\ DecodeRune (byte_string b +:+ rest) = (r, length b)
    /\ drop_string (length b) (byte_string b +:+ rest) = rest
    /\ isSpace r = true /\ r <> 10
    /\ String.length (byte_string b +:+ rest) = (length b + String.length rest)%nat
    /\ (1 <= length b)%nat.
Proof.
  intros Hb. unfold blank_codes in Hb.
  repeat (apply elem_of_cons in Hb as [-> | Hb];
          [eexists _, _, _; split; [reflexivity|]; split; [vm_compute; reflexivity|];
           split; [reflexivity|]; split; [reflexivity|]; split; [discriminate|];
           split; [reflexivity | simpl; lia]|]).
  inversion Hb.
Qed.

Lemma DecodeRune_size c0 s1 :
  (1 <= snd (DecodeRune (String c0 s1)))%nat
  /\ (String.length (drop_string (snd (DecodeRune (String c0 s1))) (String c0 s1))
      < String.length (String c0 s1))%nat.
Proof.
  assert (Hdrop : forall n s, (String.length (drop_string n s) <= String.length s)%nat).
  { induction n as [|n IH]; intros s; [simpl; lia|].
    destruct s as [|c s]; simpl; [lia|]. specialize (IH s). lia. }
  assert (Hgen : forall n, (1 <= n)%nat ->
            (String.length (drop_string n (String c0 s1)) < String.length (String c0 s1))%nat).
  { intros [|n] Hn; [lia|]. simpl. specialize (Hdrop n s1). lia. }
  assert (Hone : (1 <= snd (DecodeRune (String c0 s1)))%nat).
  { unfold DecodeRune.
    repeat match goal with
           | |- context [if ?b then _ else _] => destruct b
           | |- context [match ?x with _ => _ end] => destruct x
           end; simpl; lia. }
  split; [exact Hone | apply Hgen; exact Hone].
Qed.

(** *** Skipping blanks *)

Lemma SkipSpace_loop_S fuel c0 s1 :
  SkipSpace_loop (S fuel) (String c0 s1)
  = let '(r, size) := DecodeRune (String c0 s1) in
    let rest := drop_string size (String c0 s1) in
    if (r =? 13) && peek_newline rest then SkipSpace_loop fuel rest
    else if r =? 10 then Err (errorString "unexpected newline")
    else if negb (isSpace r) then Ok (String c0 s1)
    else SkipSpace_loop fuel rest.
Proof. reflexivity. Qed.

(** [SkipSpace] returns: the fuel it is given is enough. *)
Lemma SkipSpace_loop_returns fuel s :
  (String.length s <= fuel)%nat -> returns (SkipSpace_loop fuel s).
Proof.
  revert s. induction fuel as [|fuel IH]; intros s Hf.
  - destruct s; [exact I | simpl in Hf; lia].
  - destruct s as [|c0 s1]; [exact I|]. rewrite SkipSpace_loop_S.
    pose proof (DecodeRune_size c0 s1) as [_ Hlt].
    destruct (DecodeRune (String c0 s1)) as [r size]. simpl snd in Hlt. cbv zeta.
    destruct ((r =? 13) && peek_newline (drop_string size (String c0 s1)));
      [apply IH; lia|].
    destruct (r =? 10); [exact I|].
    destruct (negb (isSpace r)); [exact I | apply IH; lia].
Qed.

Lemma SkipSpace_returns s : returns (SkipSpace s).
Proof. apply SkipSpace_loop_returns. lia. Qed.

Lemma SkipSpace_loop_blanks blanks :
  Forall (fun b => b ∈ blank_codes) blanks ->
  forall tail fuel,
    stops_SkipSpace tail ->
    (String.length (blank_text blanks +:+ tail) <= fuel)%nat ->
    SkipSpace_loop fuel (blank_text blanks +:+ tail) = Ok tail.
Proof.
  induction 1 as [|b blanks Hb _ IH]; intros tail fuel (c & t & -> & Hc & Hs) Hf.
  - simpl blank_text. rewrite append_empty_l in *.
    destruct fuel as [|fuel]; [simpl in Hf; lia|]. rewrite SkipSpace_loop_S.
    unfold DecodeRune. replace (char_code c <? 128) with true
      by (symmetry; apply Z.ltb_lt; exact Hc).
    cbv zeta iota beta.
    assert (H13 : (char_code c =? 13) = false).
    { apply Z.eqb_neq. intros H. rewrite H in Hs. discriminate Hs. }
    assert (H10 : (char_code c =? 10) = false).
    { apply Z.eqb_neq. intros H. rewrite H in Hs. discriminate Hs. }
    rewrite H13, H10, Hs. reflexivity.
  - simpl blank_text in *. rewrite append_assoc in Hf |- *.
    destruct (DecodeRune_blank b (blank_text blanks +:+ String c t) Hb)
      as (c0 & s1 & r & Heq & Hd & Hdrop & Hsp & Hn & Hlen & Hpos).
    rewrite Hlen in Hf. destruct fuel as [|fuel]; [lia|].
    rewrite Heq in Hd, Hdrop |- *. rewrite SkipSpace_loop_S, Hd. cbv zeta. rewrite Hdrop.
    assert (Hgo : SkipSpace_loop fuel (blank_text blanks +:+ String c t)
                  = Ok (String c t)).
    { apply IH; [exists c, t; auto | lia]. }
    destruct ((r =? 13) && peek_newline (blank_text blanks +:+ String c t)); [exact Hgo|].
    replace (r =? 10) with false by (symmetry; apply Z.eqb_neq; exact Hn).
    rewrite Hsp. exact Hgo.
Qed.

Lemma SkipSpace_loop_inv fuel :
  forall s s0,
    SkipSpace_loop fuel s = Ok s0 ->
    exists blanks,
      Forall (fun b => b ∈ blank_codes) blanks /\ s = blank_text blanks +:+ s0.
Proof.
  induction fuel as [|fuel IH]; intros s s0 H.
  - destruct s; [|discriminate H]. inversion H. exists []. split; [constructor | reflexivity].
  - destruct s as [|c0 s1].
    { inversion H. exists []. split; [constructor | reflexivity]. }
    rewrite SkipSpace_loop_S in H.
    destruct (DecodeRune (String c0 s1)) as [r size] eqn:Hd. cbv zeta in H.
    assert (Hskip : isSpace r = true -> r <> 10 ->
                    SkipSpace_loop fuel (drop_string size (String c0 s1)) = Ok s0 ->
                    exists blanks,
                      Forall (fun b => b ∈ blank_codes) blanks
                      /\ String c0 s1 = blank_text blanks +:+ s0).
    { intros Hs Hn Hrec. destruct (IH _ _ Hrec) as (blanks & Hall & Hrest).
      destruct (DecodeRune_blank_inv c0 s1 r size Hd Hs Hn) as (b & Hb & Heq).
      exists (b :: blanks). split; [constructor; assumption|].
      simpl blank_text. rewrite append_assoc, <- Hrest. exact Heq. }
    destruct (Z.eqb_spec r 13) as [H13|H13].
    + subst r. cbn [andb] in H.
      destruct (peek_newline (drop_string size (String c0 s1)));
        [apply Hskip; [reflexivity | discriminate | exact H]|].
      cbn in H. apply Hskip; [reflexivity | discriminate | exact H].
    + cbn [andb] in H. destruct (Z.eqb_spec r 10) as [H10|H10]; [discriminate H|].
      destruct (isSpace r) eqn:Hs; cbn [negb] in H.
      * apply Hskip; [reflexivity | exact H10 | exact H].
      * inversion H. exists []. split; [constructor | reflexivity].
Qed.

(** *** Decimal digits *)

Lemma digit_of_Some c d : digit_of c = Some d <-> 48 <= char_code c <= 57 /\ d = char_code c - 48.
Proof.
  unfold digit_of. fold (char_code c). cbv zeta.
  destruct (Z.leb_spec 48 (char_code c)) as [H1|H1];
    destruct (Z.leb_spec (char_code c) 57) as [H2|H2];
    cbn [andb]; split; intros H; try (inversion H; lia); try (destruct H; lia).
  destruct H as [_ ->]. reflexivity.
Qed.

Lemma digit_of_None c : digit_of c = None <-> ~ (48 <= char_code c <= 57).
Proof.
  unfold digit_of. fold (char_code c). cbv zeta.
  destruct (Z.leb_spec 48 (char_code c)) as [H1|H1];
    destruct (Z.leb_spec (char_code c) 57) as [H2|H2];
    cbn [andb]; split; intros H; try discriminate H; try lia; try reflexivity.
Qed.

Lemma char_code_digit_char d : 0 <= d <= 9 -> char_code (digit_char d) = 48 + d.
Proof. intros Hd. unfold digit_char. apply char_code_of_ascii. lia. Qed.

Lemma digit_of_digit_char d : 0 <= d <= 9 -> digit_of (digit_char d) = Some d.
Proof.
  intros Hd. apply digit_of_Some. rewrite char_code_digit_char by exact Hd. lia.
Qed.

Lemma starts_with_digit_false s : starts_with_digit s = false <-> no_digit_head s.
Proof.
  destruct s as [|c s]; simpl; [split; auto|].
  rewrite <- digit_of_None. split.
  - intros H. apply bool_decide_eq_false_1 in H.
    destruct (digit_of c); [destruct H; eexists; reflexivity | reflexivity].
  - intros ->. apply bool_decide_eq_false_2. intros [x Hx]. discriminate Hx.
Qed.

Lemma decimal_cons d ds rest :
  decimal (d :: ds) +:+ rest = String (digit_char d) (decimal ds +:+ rest).
Proof. reflexivity. Qed.

Lemma digits_value_decimal ds :
  Forall (fun d => 0 <= d <= 9) ds ->
  forall rest acc,
    no_digit_head rest ->
    digits_value (decimal ds +:+ rest) acc = foldl (fun a d => 10 * a + d) acc ds.
Proof.
  induction 1 as [|d ds Hd _ IH]; intros rest acc Hrest.
  - change (decimal [] +:+ rest) with rest. simpl foldl.
    destruct rest as [|c rest]; [reflexivity|]. simpl in *.
    apply digit_of_None in Hrest. rewrite Hrest. reflexivity.
  - rewrite decimal_cons. cbn [digits_value foldl].
    rewrite digit_of_digit_char by exact Hd. apply IH. exact Hrest.
Qed.

(** The digits a text starts with, their value, and what follows them. *)
Lemma digits_value_split s :
  forall acc,
    exists ds rest,
      Forall (fun d => 0 <= d <= 9) ds /\ no_digit_head rest
      /\ s = decimal ds +:+ rest
      /\ digits_value s acc = foldl (fun a d => 10 * a + d) acc ds
      /\ (starts_with_digit s = true -> ds <> []).
Proof.
  induction s as [|c s IH]; intros acc.
  - exists [], "". repeat split; auto; try discriminate.
  - destruct (digit_of c) as [d|] eqn:Hc.
    + destruct (IH (10 * acc + d)) as (ds & rest & Hds & Hrest & Hs & Hv & _).
      apply digit_of_Some in Hc as [Hrange Hd].
      exists (d :: ds), rest. split; [constructor; [lia | exact Hds]|].
      split; [exact Hrest|]. split; [|split].
      * rewrite decimal_cons, <- Hs. f_equal. unfold digit_char.
        apply char_code_inj. lia.
      * cbn [digits_value foldl].
        replace (digit_of c) with (Some d) by (symmetry; apply digit_of_Some; lia).
        exact Hv.
      * intros _. discriminate.
    + exists [], (String c s). split; [constructor|]. split.
      * simpl. apply digit_of_None. exact Hc.
      * split; [reflexivity|]. split.
        -- simpl. rewrite Hc. reflexivity.
        -- simpl. rewrite Hc. intros H. apply bool_decide_eq_true_1 in H.
           destruct H as [x Hx]. discriminate Hx.
Qed.

(** *** A line that announces a port *)

Lemma isSpace_digit d : 0 <= d <= 9 -> isSpace (48 + d) = false.
Proof.
  intros Hd.
  assert (Hall : forallb (fun d => negb (isSpace (48 + d))) (seqZ 0 10) = true)
    by (vm_compute; reflexivity).
  pose proof (forallb_seqZ _ _ _ d Hall ltac:(lia)) as H. cbv beta in H.
  apply negb_true_iff. exact H.
Qed.

Lemma digit_char_not c d :
  0 <= d <= 9 -> ~ (48 <= char_code c <= 57) -> Ascii.eqb (digit_char d) c = false.
Proof.
  intros Hd Hc. apply Ascii.eqb_neq. intros <-.
  rewrite char_code_digit_char in Hc by exact Hd. lia.
Qed.

Lemma starts_with_digit_decimal d ds rest :
  0 <= d <= 9 -> starts_with_digit (decimal (d :: ds) +:+ rest) = true.
Proof.
  intros Hd. rewrite decimal_cons. simpl. rewrite digit_of_digit_char by exact Hd.
  apply bool_decide_eq_true_2. eexists. reflexivity.
Qed.

Lemma scanInt_announces blanks sign ds rest :
  Forall (fun b => b ∈ blank_codes) blanks ->
  sign ∈ [EmptyString; "+"; "-"] ->
  ds <> [] ->
  Forall (fun d => 0 <= d <= 9) ds ->
  no_digit_head rest ->
  MinInt <= signed sign (decimal_value ds) <= MaxInt ->
  scanInt (blank_text blanks +:+ sign +:+ decimal ds +:+ rest)
  = Some (signed sign (decimal_value ds)).
Proof.
  intros Hblanks Hsign Hne Hds Hrest Hrange.
  destruct ds as [|d ds]; [destruct Hne; reflexivity|].
  pose proof (Forall_inv Hds) as Hd. simpl in Hd.
  pose proof (digits_value_decimal (d :: ds) Hds rest 0 Hrest) as Hv.
  fold (decimal_value (d :: ds)) in Hv.
  pose proof (starts_with_digit_decimal d ds rest Hd) as Hstart.
  assert (Hcheck : forall v, MinInt <= v <= MaxInt ->
                             (MinInt <=? v) && (v <=? MaxInt) = true).
  { intros v Hvr. apply andb_true_iff. split; apply Z.leb_le; lia. }
  unfold scanInt, SkipSpace.
  apply elem_of_cons in Hsign as [-> | Hsign];
    [|apply elem_of_cons in Hsign as [-> | Hsign];
      [|apply list_elem_of_singleton in Hsign; subst sign]].
  - rewrite append_empty_l in *. rewrite SkipSpace_loop_blanks; [| exact Hblanks | | lia].
    + rewrite decimal_cons in *.
      rewrite (digit_char_not "-" d Hd) by (vm_compute; intros [H _]; apply H; reflexivity).
      rewrite (digit_char_not "+" d Hd) by (vm_compute; intros [H _]; apply H; reflexivity).
      rewrite Hstart, Hv. cbv zeta. unfold signed in *. simpl String.eqb in *.
      rewrite Hcheck by exact Hrange. reflexivity.
    + rewrite decimal_cons. eexists _, _. split; [reflexivity|].
      rewrite char_code_digit_char by exact Hd. split; [lia | apply isSpace_digit; exact Hd].
  - change ("+" +:+ decimal (d :: ds) +:+ rest)
      with (String "+" (decimal (d :: ds) +:+ rest)).
    rewrite SkipSpace_loop_blanks; [| exact Hblanks | | lia].
    + change (Ascii.eqb "+" "-") with false. change (Ascii.eqb "+" "+") with true.
      cbv iota beta. rewrite Hstart, Hv. cbv zeta. unfold signed in *.
      simpl String.eqb in *. rewrite Hcheck by exact Hrange. reflexivity.
    + eexists _, _. split; [reflexivity|]. split; [vm_compute; reflexivity | reflexivity].
  - change ("-" +:+ decimal (d :: ds) +:+ rest)
      with (String "-" (decimal (d :: ds) +:+ rest)).
    rewrite SkipSpace_loop_blanks; [| exact Hblanks | | lia].
    + change (Ascii.eqb "-" "-") with true.
      cbv iota beta. rewrite Hstart, Hv. cbv zeta. unfold signed in *.
      simpl String.eqb in *. rewrite Hcheck by exact Hrange. reflexivity.
    + eexists _, _. split; [reflexivity|]. split; [vm_compute; reflexivity | reflexivity].
Qed.

Lemma scanInt_inv s p :
  scanInt s = Some p ->
  exists blanks sign ds rest,
    Forall (fun b => b ∈ blank_codes) blanks
    /\ sign ∈ [EmptyString; "+"; "-"]
    /\ ds <> []
    /\ Forall (fun d => 0 <= d <= 9) ds
    /\ no_digit_head rest
    /\ MinInt <= signed sign (decimal_value ds) <= MaxInt
    /\ s = blank_text blanks +:+ sign +:+ decimal ds +:+ rest
    /\ p = signed sign (decimal_value ds).
Proof.
  unfold scanInt, SkipSpace. intros H.
  destruct (SkipSpace_loop (String.length s) s) as [[|c s']| | |] eqn:Hskip;
    try discriminate H.
  destruct (SkipSpace_loop_inv _ _ _ Hskip) as (blanks & Hblanks & Hs).
  assert (Hfin : forall sign digits,
    sign ∈ [EmptyString; "+"; "-"] ->
    String c s' = sign +:+ digits ->
    (if starts_with_digit digits
     then
       if (MinInt <=? signed sign (digits_value digits 0))
          && (signed sign (digits_value digits 0) <=? MaxInt)
       then Some (signed sign (digits_value digits 0)) else None
     else None) = Some p ->
    exists blanks sign ds rest,
      Forall (fun b => b ∈ blank_codes) blanks
      /\ sign ∈ [EmptyString; "+"; "-"]
      /\ ds <> []
      /\ Forall (fun d => 0 <= d <= 9) ds
      /\ no_digit_head rest
      /\ MinInt <= signed sign (decimal_value ds) <= MaxInt
      /\ s = blank_text blanks +:+ sign +:+ decimal ds +:+ rest
      /\ p = signed sign (decimal_value ds)).
  { intros sign digits Hsign Heq Hres.
    destruct (starts_with_digit digits) eqn:Hstart; [|discriminate Hres].
    destruct (digits_value_split digits 0) as (ds & rest & Hds & Hrest & Hdig & Hv & Hne).
    fold (decimal_value ds) in Hv. rewrite Hv in Hres.
    destruct ((MinInt <=? signed sign (decimal_value ds))
              && (signed sign (decimal_value ds) <=? MaxInt)) eqn:Hr; [|discriminate Hres].
    apply andb_true_iff in Hr as [Hr1 Hr2]. apply Z.leb_le in Hr1, Hr2.
    inversion Hres. exists blanks, sign, ds, rest.
    repeat split; auto. rewrite Hs, Heq, Hdig. reflexivity. }
  destruct (Ascii.eqb c "-") eqn:Hminus.
  { apply Ascii.eqb_eq in Hminus. subst c.
    apply (Hfin "-" s'); [right; right; left | reflexivity | exact H]. }
  destruct (Ascii.eqb c "+") eqn:Hplus.
  { apply Ascii.eqb_eq in Hplus. subst c.
    apply (Hfin "+" s'); [right; left | reflexivity | exact H]. }
  apply (Hfin "" (String c s')); [left | reflexivity | exact H].
Qed.

(** A line is taken for a port by the code exactly when it announces one in
    words, and the port is the one the words give. *)
Lemma line_port_announces line p : line_port line = Some p <-> announces line p.
Proof.
  split.
  - unfold line_port, Sscanf_AGENT_PORT. intros H.
    destruct (HasPrefix line "AGENT_PORT="); [|discriminate H].
    destruct (strip_prefix "AGENT_PORT=" line) as [rest0|] eqn:E; [|discriminate H].
    apply strip_prefix_Some in E. subst line.
    destruct (scanInt_inv _ _ H)
      as (blanks & sign & ds & rest & H1 & H2 & H3 & H4 & H5 & H6 & -> & ->).
    constructor; assumption.
  - intros [blanks sign ds rest H1 H2 H3 H4 H5 H6].
    unfold line_port, HasPrefix, Sscanf_AGENT_PORT.
    rewrite prefix_append, strip_prefix_app. apply scanInt_announces; assumption.
Qed.

(** *** The scanner and the select *)

Lemma no_match_line_port x : no_match x -> line_port (dropCR x.2) = None.
Proof.
  intros [_ H]. destruct (line_port (dropCR x.2)) as [port|] eqn:E; [|reflexivity].
  apply line_port_announces in E. destruct (H port E).
Qed.


Lemma scan_lines_step t raw ls closed :
  scan_lines ((t, raw) :: ls) closed
  = if MaxScanTokenSize <=? Z.of_nat (String.length raw) then ScannedEOF t
    else
      match line_port (dropCR raw) with
      | Some port => ScannedPort t port
      | None => scan_lines ls closed
      end.
Proof. reflexivity. Qed.

Lemma scan_lines_no_match_cons x ls closed :
  no_match x -> scan_lines (x :: ls) closed = scan_lines ls closed.
Proof.
  destruct x as [t raw]. intros H. rewrite scan_lines_step.
  pose proof (no_match_line_port _ H) as Hl. simpl in Hl. rewrite Hl.
  destruct H as [Hlen _]. unfold too_long in Hlen. simpl in Hlen. destruct (Z.leb_spec MaxScanTokenSize (Z.of_nat (String.length raw))); [lia|].
  reflexivity.
Qed.

Lemma scan_lines_first before t raw after port closed :
  Forall no_match before -> ~ too_long raw -> announces (dropCR raw) port ->
  scan_lines (before ++ (t, raw) :: after) closed = ScannedPort t port.
Proof.
  intros Hb Hlen Hl. induction Hb as [|x before H0 _ IH].
  - rewrite app_nil_l, scan_lines_step. unfold too_long in Hlen.
    destruct (Z.leb_spec MaxScanTokenSize (Z.of_nat (String.length raw))); [lia|].
    apply line_port_announces in Hl. rewrite Hl. reflexivity.
  - rewrite <- app_comm_cons, scan_lines_no_match_cons by exact H0. exact IH.
Qed.

Lemma scan_lines_too_long before t raw after closed :
  Forall no_match before -> too_long raw ->
  scan_lines (before ++ (t, raw) :: after) closed = ScannedEOF t.
Proof.
  intros Hb Hlen. induction Hb as [|x before H0 _ IH].
  - rewrite app_nil_l, scan_lines_step. unfold too_long in Hlen.
    destruct (Z.leb_spec MaxScanTokenSize (Z.of_nat (String.length raw))); [|lia].
    reflexivity.
  - rewrite <- app_comm_cons, scan_lines_no_match_cons by exact H0. exact IH.
Qed.







(** ** Running, the client and the port *)

(** C9, as the code has it.  Under every schedule, a runner in state Running
    holds a client, and its port is one that a handshake of the schedule
    delivered; so the port is non-zero whenever no child announced port 0.
    Nothing in [Start] rejects a port, zero included. *)
Theorem Running_has_client_and_announced_port :
  forall (m : Manifest.t) (baseDir : string) (evs : list Event) (c : Config),
    run (init m baseDir) evs = Some c ->
    Runner.state (runner c) = StateRunning ->
    is_Some (Runner.client (runner c))
    /\ Runner.port (runner c) ∈ announced evs
    /\ (Forall (fun port => port <> 0) (announced evs) -> Runner.port (runner c) <> 0).
Proof.
  intros m baseDir evs c Hrun Hstate.
  destruct (invariant_run m baseDir evs c Hrun) as [Hc _ Hn Hp].
  assert (Hin : Runner.port (runner c) ∈ announced evs).
  { apply Hp. intros Ha. destruct (Hn Ha) as (_ & Hne & _). contradiction. }
  split; [apply Hc; exact Hstate|]. split; [exact Hin|].
  intros Hall. rewrite Forall_forall in Hall. apply Hall. exact Hin.
Qed.

Lemma Running_has_client_and_announced_port_witness :
  exists c,
    run (init s1_manifest ".") happy_schedule = Some c
    /\ Runner.state (runner c) = StateRunning
    /\ is_Some (Runner.client (runner c))
    /\ Runner.port (runner c) ∈ announced happy_schedule
    /\ (Forall (fun port => port <> 0) (announced happy_schedule) ->
        Runner.port (runner c) <> 0).
Proof.
  eexists. split; [vm_compute; reflexivity|]. split; [reflexivity|].
  apply (Running_has_client_and_announced_port s1_manifest "." happy_schedule);
    reflexivity.
Defined.

(** C9 as the spec words it fails: a child that prints [AGENT_PORT=0] passes
    the handshake, [grpc.Dial] does not connect yet and so does not fail, and
    the runner is Running with port 0. *)
Lemma Running_with_port_zero :
  line_port "AGENT_PORT=0" = Some 0
  /\ exists c,
       run (init s1_manifest ".") port_zero_schedule = Some c
       /\ Runner.state (runner c) = StateRunning
       /\ Runner.port (runner c) = 0
       /\ AgentStatus.Port (Status (runner c)) = 0.
Proof.
  split; [reflexivity|]. eexists. split; [vm_compute; reflexivity|].
  repeat split.
Qed.

(** ** The status snapshot *)

Lemma step_port c ev c' :
  step c ev = Some c' ->
  Runner.port (runner c')
  = match announced [ev] with
    | port :: _ => port
    | [] => Runner.port (runner c)
    end.
Proof.
  intros Hstep.
  destruct ev as [|i cause|i cause|i cancel|i out|i failure|i|i| |werr| |failure]; simpl in Hstep.
  - unfold Start_enter in Hstep.
    destruct (bool_decide (Runner.state (runner c) = StateRunning)
              || bool_decide (Runner.state (runner c) = StateStarting));
      inversion Hstep; reflexivity.
  - destruct (calls c !! i) as [[| | | | |]|]; inversion Hstep; reflexivity.
  - destruct (calls c !! i) as [[| | | | |]|]; inversion Hstep; reflexivity.
  - destruct (calls c !! i) as [[| | | | |]|]; inversion Hstep; reflexivity.
  - destruct (calls c !! i) as [[| | | | |]|]; try discriminate Hstep.
    simpl. destruct (select_handshake out); inversion Hstep; reflexivity.
  - destruct (calls c !! i) as [[| | | | |]|]; try discriminate Hstep.
    destruct failure; inversion Hstep; reflexivity.
  - destruct (calls c !! i) as [[| | | | |]|]; inversion Hstep; reflexivity.
  - destruct (calls c !! i) as [[| | | | |]|]; inversion Hstep; reflexivity.
  - inversion Hstep; reflexivity.
  - destruct (monitors c); [discriminate Hstep|]. unfold monitor_locked in Hstep.
    destruct (Runner.done (runner c)) as [[|]|]; try discriminate Hstep;
      destruct (bool_decide (Runner.state (runner c) = StateRunning));
      inversion Hstep; reflexivity.
  - destruct (bool_decide (Runner.state (runner c) = StateRunning));
      inversion Hstep; reflexivity.
  - destruct (probes c); [discriminate Hstep|].
    destruct failure; inversion Hstep; reflexivity.
Qed.

Lemma run_port m baseDir evs c :
  run (init m baseDir) evs = Some c ->
  Runner.port (runner c) = default 0 (last (announced evs)).
Proof.
  revert c. induction evs as [|ev evs IH] using rev_ind; intros c Hrun.
  - inversion Hrun. reflexivity.
  - rewrite run_snoc in Hrun.
    destruct (run (init m baseDir) evs) as [c0|]; [|discriminate Hrun].
    rewrite (step_port _ _ _ Hrun), (IH c0 eq_refl), announced_snoc.
    destruct (announced [ev]) as [|port rest] eqn:E.
    + rewrite app_nil_r. reflexivity.
    + assert (Hrest : rest = []).
      { destruct ev; simpl in E; try discriminate E.
        destruct (select_handshake out); inversion E; reflexivity. }
      subst rest. rewrite last_snoc. reflexivity.
Qed.

(** C2, as the code has it.  Under every schedule the snapshot's port is the
    port of the latest handshake that delivered one, and zero while there has
    been none; the snapshot shows no error while the state is Starting.
    [Stop] changes neither field, and a [Start] that goes ahead clears the
    error and keeps the port: a Failed runner that is stopped still shows its
    error, and the port of an earlier process is shown until the next
    handshake replaces it. *)
Theorem Status_port_and_error :
  (forall (m : Manifest.t) (baseDir : string) (evs : list Event) (c : Config),
      run (init m baseDir) evs = Some c ->
      AgentStatus.Port (Status (runner c)) = default 0 (last (announced evs))
      /\ (announced evs = [] -> AgentStatus.Port (Status (runner c)) = 0)
      /\ (Runner.state (runner c) = StateStarting ->
          AgentStatus.Error (Status (runner c)) = ""))
  /\ (forall r : Runner.t,
      AgentStatus.State (Status (Stop_locked r).2) = "stopped"
      /\ AgentStatus.Port (Status (Stop_locked r).2) = AgentStatus.Port (Status r)
      /\ AgentStatus.Error (Status (Stop_locked r).2) = AgentStatus.Error (Status r))
  /\ (forall r : Runner.t,
      Runner.state r = StateStopped \/ Runner.state r = StateFailed ->
      (Start_enter r).1 = true
      /\ AgentStatus.State (Status (Start_enter r).2) = "starting"
      /\ AgentStatus.Port (Status (Start_enter r).2) = AgentStatus.Port (Status r)
      /\ AgentStatus.Error (Status (Start_enter r).2) = "").
Proof.
  split; [|split].
  - intros m baseDir evs c Hrun.
    pose proof (run_port m baseDir evs c Hrun) as Hport.
    destruct (invariant_run m baseDir evs c Hrun) as [_ Hs _ _].
    split; [exact Hport|]. split.
    + intros Ha. simpl. rewrite Hport, Ha. reflexivity.
    + intros Hst. simpl. rewrite (Hs Hst). reflexivity.
  - intros r. repeat split.
  - intros r Hst. unfold Start_enter.
    destruct Hst as [Hst|Hst]; rewrite Hst; simpl; repeat split.
Qed.

Lemma Status_port_and_error_witness :
  (exists c,
      run (init s1_manifest ".") happy_schedule = Some c
      /\ AgentStatus.Port (Status (runner c)) = 45001
      /\ AgentStatus.Error (Status (runner c)) = "")
  /\ (exists c,
      run (init s1_manifest ".") [EvStart; EvSpawned 0 1%nat] = Some c
      /\ AgentStatus.State (Status (runner c)) = "starting"
      /\ AgentStatus.Port (Status (runner c)) = 0
      /\ AgentStatus.Error (Status (runner c)) = "").
Proof.
  split.
  - eexists. split; [vm_compute; reflexivity|].
    split; [|reflexivity].
    apply (proj1 (proj1 Status_port_and_error s1_manifest "." happy_schedule _ eq_refl)).
  - eexists. split; [vm_compute; reflexivity|]. split; [reflexivity|].
    destruct (proj1 Status_port_and_error s1_manifest "." [EvStart; EvSpawned 0 1%nat] _ eq_refl)
      as (_ & Hzero & Hstarting).
    split; [apply Hzero; reflexivity | apply Hstarting; reflexivity].
Defined.

(** C2 as the spec words it fails: a running agent dies (Failed, with an
    error), then is stopped.  The snapshot in state Stopped still shows the
    error and the port 45001; after the next [Start] has begun, the snapshot in
    state Starting still shows port 45001 although no handshake of the new
    process has completed. *)
Lemma Stopped_after_Failed_keeps_error_and_port :
  (exists c,
      run (init s1_manifest ".") fail_then_stop_schedule = Some c
      /\ Status (runner c)
         = AgentStatus.mk "s1" "stopped" ["echo"] 45001
             "process exited unexpectedly with code 0")
  /\ (exists c,
      run (init s1_manifest ".") (fail_then_stop_schedule ++ [EvStart]) = Some c
      /\ Status (runner c) = AgentStatus.mk "s1" "starting" ["echo"] 45001 "").
Proof.
  split; eexists; (split; [vm_compute; reflexivity | reflexivity]).
Qed.

(** ** Stop and the paths that write Failed *)

(** The exit monitor moves to Failed from Running only: after [Stop] it leaves
    the state alone. *)
Lemma monitor_locked_not_Running werr r r' :
  monitor_locked werr r = Some r' ->
  Runner.state r <> StateRunning ->
  Runner.state r' = Runner.state r /\ Runner.err r' = Runner.err r.
Proof.
  unfold monitor_locked. intros H Hne.
  rewrite bool_decide_eq_false_2 in H by exact Hne.
  destruct (Runner.done r) as [[|]|]; inversion H; split; reflexivity.
Qed.

(** [setFailed] has no such guard: whatever the state was, it is Failed. *)
Lemma setFailed_unconditional e r :
  Runner.state (setFailed e r) = StateFailed /\ Runner.err (setFailed e r) = Some e.
Proof. split; reflexivity. Qed.

(** C1 fails on the code.  [Stop] is called while [Start] waits for the port:
    the state is Stopped.  The cancelled child closes its stdout, the scanner
    reports the end of the stream, and the handshake path of [Start], still in
    flight, calls [setFailed]: the state is Failed, after [Stop] and before
    any new [Start].  The exit monitor, run at the same point instead, leaves
    the state at Stopped. *)
Lemma Stop_then_handshake_failure_writes_Failed :
  (exists c,
      run (init s1_manifest ".") [EvStart; EvSpawned 0 1%nat; EvStop] = Some c
      /\ Runner.state (runner c) = StateStopped)
  /\ (exists c,
      run (init s1_manifest ".") stop_while_starting_schedule = Some c
      /\ Runner.state (runner c) = StateFailed
      /\ Runner.err (runner c)
         = Some (errorString "agent exited without printing AGENT_PORT"))
  /\ (exists c,
      run (init s1_manifest ".") [EvStart; EvSpawned 0 1%nat; EvStop; EvExit None] = Some c
      /\ Runner.state (runner c) = StateStopped).
Proof.
  split; [|split]; eexists; (split; [vm_compute; reflexivity | repeat split]).
Qed.

(** ** Execute and Health *)

(** C7.  On a runner that is not Running, or that has no client, [Execute] and
    [Health] return their not-running error and no result, and the runner they
    hand back is the one they were given: state, port, client and error are
    untouched.  On any runner at all they change nothing. *)
Theorem Execute_Health_not_running :
  forall (r : Runner.t) (stream : error + ExecuteStream) (reply : error + HealthResponse.t),
    (not_running r ->
       Execute r stream
       = (Ok ([], Some (errorString
                          ("agent " +:+ Manifest.Name (Runner.manifest r)
                           +:+ " is not running (state: "
                           +:+ State_string (Runner.state r) +:+ ")"))), r)
       /\ Health r reply
          = ((None, Some (errorString
                            ("agent " +:+ Manifest.Name (Runner.manifest r)
                             +:+ " is not running"))), r))
    /\ (Execute r stream).2 = r
    /\ (Health r reply).2 = r.
Proof.
  intros r stream reply. split; [|split].
  - intros Hnot.
    assert (Hguard : negb (bool_decide (Runner.state r = StateRunning))
                     || negb (bool_decide (is_Some (Runner.client r))) = true).
    { destruct Hnot as [Hs|Hc].
      - rewrite (bool_decide_eq_false_2 _ Hs). reflexivity.
      - rewrite Hc. apply orb_true_r. }
    unfold Execute, Health. cbv zeta. rewrite Hguard. split; reflexivity.
  - unfold Execute. cbv zeta.
    destruct (negb (bool_decide (Runner.state r = StateRunning))
              || negb (bool_decide (is_Some (Runner.client r)))); [reflexivity|].
    destruct stream; reflexivity.
  - unfold Health. cbv zeta.
    destruct (negb (bool_decide (Runner.state r = StateRunning))
              || negb (bool_decide (is_Some (Runner.client r)))); [reflexivity|].
    destruct reply; reflexivity.
Qed.

Lemma Execute_Health_not_running_witness :
  Execute (NewRunner s1_manifest ".") (inr {| incoming := []; ending := io_EOF |})
  = (Ok ([], Some (errorString "agent s1 is not running (state: stopped)")),
     NewRunner s1_manifest ".")
  /\ Health (NewRunner s1_manifest ".") (inr (HealthResponse.mk "ok" "s1"))
     = ((None, Some (errorString "agent s1 is not running")), NewRunner s1_manifest ".").
Proof.
  apply (proj1 (Execute_Health_not_running (NewRunner s1_manifest ".")
                  (inr {| incoming := []; ending := io_EOF |})
                  (inr (HealthResponse.mk "ok" "s1")))).
  left. discriminate.
Defined.

(** ** RecvAll *)

Lemma RecvAll_loop_spec fuel s events :
  (length (incoming s) < fuel)%nat ->
  RecvAll_loop fuel s events
  = Ok (events ++ incoming s,
        if decide (ending s = io_EOF) then None else Some (ending s)).
Proof.
  revert s events. induction fuel as [|fuel IH]; intros [inc fin] events Hf; [lia|].
  simpl in *. unfold Recv. simpl. destruct inc as [|ev inc].
  - rewrite app_nil_r. destruct (decide (fin = io_EOF)); reflexivity.
  - rewrite IH by (simpl in *; lia). simpl. rewrite <- app_assoc. reflexivity.
Qed.

(** C10.  [RecvAll] returns on every stream that ends.  When the stream ends
    normally it returns all the events, in the order received, and no error;
    when the stream breaks with another error it returns the events received
    before the break together with that error.  [Execute] on a Running runner
    whose call opened a stream returns just that, and leaves the runner as it
    was. *)
Theorem RecvAll_events_and_error :
  forall s : ExecuteStream,
    (ending s = io_EOF -> RecvAll s = Ok (incoming s, None))
    /\ (ending s <> io_EOF -> RecvAll s = Ok (incoming s, Some (ending s)))
    /\ (forall r : Runner.t,
          Runner.state r = StateRunning -> is_Some (Runner.client r) ->
          Execute r (inr s) = (RecvAll s, r)).
Proof.
  intros s. unfold RecvAll.
  rewrite RecvAll_loop_spec by lia. simpl. split; [|split].
  - intros He. destruct (decide (ending s = io_EOF)); [reflexivity | contradiction].
  - intros Hne. destruct (decide (ending s = io_EOF)); [contradiction | reflexivity].
  - intros r Hs Hc. unfold Execute. cbv zeta.
    rewrite (bool_decide_eq_true_2 _ Hs), (bool_decide_eq_true_2 _ Hc). simpl.
    unfold RecvAll. rewrite RecvAll_loop_spec by lia. reflexivity.
Qed.

Lemma RecvAll_events_and_error_witness :
  RecvAll {| incoming := [TaskEvent.mk "t1" "progress" "p"; TaskEvent.mk "t1" "result" "done"];
             ending := io_EOF |}
  = Ok ([TaskEvent.mk "t1" "progress" "p"; TaskEvent.mk "t1" "result" "done"], None)
  /\ RecvAll {| incoming := [TaskEvent.mk "t1" "progress" "p"];
                ending := errorString "rpc error: code = Unavailable" |}
     = Ok ([TaskEvent.mk "t1" "progress" "p"],
           Some (errorString "rpc error: code = Unavailable")).
Proof.
  split.
  - apply (proj1 (RecvAll_events_and_error
                    {| incoming := [TaskEvent.mk "t1" "progress" "p";
                                    TaskEvent.mk "t1" "result" "done"];
                       ending := io_EOF |})).
    reflexivity.
  - apply (proj1 (proj2 (RecvAll_events_and_error
                           {| incoming := [TaskEvent.mk "t1" "progress" "p"];
                              ending := errorString "rpc error: code = Unavailable" |}))).
    discriminate.
Defined.

(** ** Decoding into a message that already holds values *)

Lemma marshalTaskEvent_fields m :
  marshalTaskEvent m
  = appendString [] 1 (TaskEvent.TaskId m)
    ++ appendString [] 2 (TaskEvent.Type_ m) ++ appendString [] 3 (TaskEvent.Payload m).
Proof.
  unfold marshalTaskEvent. cbv zeta.
  rewrite (appendString_app _ 3), (appendString_app _ 2), <- app_assoc. reflexivity.
Qed.

Lemma marshalHealthResponse_fields m :
  marshalHealthResponse m
  = appendString [] 1 (HealthResponse.Status m) ++ appendString [] 2 (HealthResponse.AgentName m).
Proof.
  unfold marshalHealthResponse. cbv zeta. rewrite (appendString_app _ 2). reflexivity.
Qed.

Lemma marshalTaskRequest_fields range m :
  marshalTaskRequest range m
  = appendString [] 1 (TaskRequest.TaskId m)
    ++ appendString [] 2 (TaskRequest.Skill m)
    ++ appendString [] 3 (TaskRequest.Input m) ++ foldl appendEntry [] range.
Proof.
  unfold marshalTaskRequest. cbv zeta. rewrite foldl_appendEntry.
  rewrite (appendString_app _ 3), (appendString_app _ 2), <- !app_assoc. reflexivity.
Qed.

Lemma unmarshalTaskEvent_appendString num s rest m :
  valid_number num -> fits s ->
  unmarshalTaskEvent (appendString [] num s ++ rest) m
  = if String.eqb s "" then unmarshalTaskEvent rest m
    else let! m' := TaskEvent_field num (list_byte_of_string s) m in
         unmarshalTaskEvent rest m'.
Proof.
  intros Hn Hs. unfold unmarshalTaskEvent. rewrite unmarshalTaskEvent_loop_eq.
  rewrite decode_fields_appendString by (auto; lia).
  destruct (String.eqb s ""); [symmetry; apply unmarshalTaskEvent_loop_eq|].
  destruct (TaskEvent_field num (list_byte_of_string s) m); simpl; try reflexivity.
  symmetry. apply unmarshalTaskEvent_loop_eq.
Qed.

Lemma unmarshalHealthResponse_appendString num s rest m :
  valid_number num -> fits s ->
  unmarshalHealthResponse (appendString [] num s ++ rest) m
  = if String.eqb s "" then unmarshalHealthResponse rest m
    else let! m' := HealthResponse_field num (list_byte_of_string s) m in
         unmarshalHealthResponse rest m'.
Proof.
  intros Hn Hs. unfold unmarshalHealthResponse. rewrite unmarshalHealthResponse_loop_eq.
  rewrite decode_fields_appendString by (auto; lia).
  destruct (String.eqb s ""); [symmetry; apply unmarshalHealthResponse_loop_eq|].
  destruct (HealthResponse_field num (list_byte_of_string s) m); simpl; try reflexivity.
  symmetry. apply unmarshalHealthResponse_loop_eq.
Qed.

Lemma unmarshalTaskRequest_appendString num s rest m :
  valid_number num -> fits s ->
  unmarshalTaskRequest (appendString [] num s ++ rest) m
  = if String.eqb s "" then unmarshalTaskRequest rest m
    else let! m' := TaskRequest_field num (list_byte_of_string s) m in
         unmarshalTaskRequest rest m'.
Proof.
  intros Hn Hs. unfold unmarshalTaskRequest. rewrite unmarshalTaskRequest_loop_eq.
  rewrite decode_fields_appendString by (auto; lia).
  destruct (String.eqb s ""); [symmetry; apply unmarshalTaskRequest_loop_eq|].
  destruct (TaskRequest_field num (list_byte_of_string s) m); simpl; try reflexivity.
  symmetry. apply unmarshalTaskRequest_loop_eq.
Qed.

Lemma valid_number_small num : 1 <= num <= 4 -> valid_number num.
Proof. unfold valid_number, MaxInt32. lia. Qed.

Lemma unmarshalTaskEvent_marshal_app a rest m :
  valid_TaskEvent a ->
  unmarshalTaskEvent (marshalTaskEvent a ++ rest) m
  = unmarshalTaskEvent rest (merge_TaskEvent m a).
Proof.
  intros (H1 & H2 & H3). destruct a as [x y z], m as [x0 y0 z0]. simpl in H1, H2, H3.
  rewrite marshalTaskEvent_fields. cbn [TaskEvent.TaskId TaskEvent.Type_ TaskEvent.Payload].
  rewrite <- !app_assoc.
  rewrite unmarshalTaskEvent_appendString by (auto using valid_number_small with lia).
  unfold merge_TaskEvent, overwrite. simpl.
  destruct (String.eqb x ""); simpl;
    rewrite unmarshalTaskEvent_appendString by (auto using valid_number_small with lia);
    destruct (String.eqb y ""); simpl;
    rewrite unmarshalTaskEvent_appendString by (auto using valid_number_small with lia);
    destruct (String.eqb z ""); simpl;
    rewrite ?string_of_list_byte_of_string; reflexivity.
Qed.

Lemma unmarshalHealthResponse_marshal_app a rest m :
  valid_HealthResponse a ->
  unmarshalHealthResponse (marshalHealthResponse a ++ rest) m
  = unmarshalHealthResponse rest (merge_HealthResponse m a).
Proof.
  intros (H1 & H2). destruct a as [x y], m as [x0 y0]. simpl in H1, H2.
  rewrite marshalHealthResponse_fields. cbn [HealthResponse.Status HealthResponse.AgentName].
  rewrite <- !app_assoc.
  rewrite unmarshalHealthResponse_appendString by (auto using valid_number_small with lia).
  unfold merge_HealthResponse, overwrite. simpl.
  destruct (String.eqb x ""); simpl;
    rewrite unmarshalHealthResponse_appendString by (auto using valid_number_small with lia);
    destruct (String.eqb y ""); simpl;
    rewrite ?string_of_list_byte_of_string; reflexivity.
Qed.

Lemma unmarshalTaskRequest_entries range rest m :
  (forall kv, kv ∈ range -> len (entry_bytes kv) <= MaxInt) ->
  unmarshalTaskRequest (foldl appendEntry [] range ++ rest) m
  = unmarshalTaskRequest rest (foldl (fun m kv => set_Metadata m kv.1 kv.2) m range).
Proof.
  revert m. induction range as [|kv range IH]; intros m Hvalid; [reflexivity|].
  simpl foldl. rewrite foldl_appendEntry, appendEntry_eq, app_nil_l, <- app_assoc.
  assert (Hkv : len (entry_bytes kv) <= MaxInt) by (apply Hvalid; left).
  unfold unmarshalTaskRequest at 1. rewrite unmarshalTaskRequest_loop_eq.
  rewrite decode_fields_appendBytes;
    [| apply valid_number_small; lia | pose proof MaxInt_lt; lia | lia].
  unfold TaskRequest_field. simpl.
  rewrite unmarshalMapEntry_entry_bytes by exact Hkv. simpl.
  rewrite <- unmarshalTaskRequest_loop_eq. fold (unmarshalTaskRequest (foldl appendEntry [] range ++ rest)
    (set_Metadata m kv.1 kv.2)).
  apply IH. intros kv' Hin. apply Hvalid. right. exact Hin.
Qed.

Lemma unmarshalTaskRequest_marshal_app range a rest m :
  fits (TaskRequest.TaskId a) -> fits (TaskRequest.Skill a) -> fits (TaskRequest.Input a) ->
  (forall kv, kv ∈ range -> len (entry_bytes kv) <= MaxInt) ->
  unmarshalTaskRequest (marshalTaskRequest range a ++ rest) m
  = unmarshalTaskRequest rest (merge_TaskRequest m a range).
Proof.
  intros H1 H2 H3 Hvalid. destruct a as [x y z md], m as [x0 y0 z0 md0].
  simpl in H1, H2, H3.
  rewrite marshalTaskRequest_fields.
  cbn [TaskRequest.TaskId TaskRequest.Skill TaskRequest.Input].
  rewrite <- !app_assoc.
  assert (Hent : forall x1 y1 z1,
    unmarshalTaskRequest (foldl appendEntry [] range ++ rest) (TaskRequest.mk x1 y1 z1 md0)
    = unmarshalTaskRequest rest (TaskRequest.mk x1 y1 z1 (merge_Metadata md0 range))).
  { intros x1 y1 z1. rewrite unmarshalTaskRequest_entries by exact Hvalid.
    rewrite foldl_set_Metadata. reflexivity. }
  rewrite unmarshalTaskRequest_appendString by (auto using valid_number_small with lia).
  unfold merge_TaskRequest, overwrite. simpl.
  destruct (String.eqb x ""); simpl; unfold set_TaskId; simpl;
    rewrite unmarshalTaskRequest_appendString by (auto using valid_number_small with lia);
    destruct (String.eqb y ""); simpl; unfold set_Skill; simpl;
    rewrite unmarshalTaskRequest_appendString by (auto using valid_number_small with lia);
    destruct (String.eqb z ""); simpl; unfold set_Input; simpl;
    rewrite ?string_of_list_byte_of_string; apply Hent.
Qed.

Lemma foldl_insert_entry_union range (acc : gmap string string) :
  NoDup (range.*1) ->
  foldl insert_entry acc range = (list_to_map range : gmap string string) ∪ acc.
Proof.
  intros Hnd. apply map_eq. intros k.
  rewrite foldl_insert_entry_lookup by exact Hnd.
  rewrite lookup_union.
  destruct (list_to_map range !! k) as [v|]; simpl.
  - destruct (acc !! k); reflexivity.
  - destruct (acc !! k); reflexivity.
Qed.

Lemma overwrite_empty new : overwrite "" new = new.
Proof. unfold overwrite. destruct (String.eqb_spec new "") as [->|_]; reflexivity. Qed.

(** X1.  Decoding does not start from scratch.  Reading an encoded event, or
    an encoded health response, into a message that already holds values
    replaces exactly the fields that are non-empty in the encoded message and
    goes on with the bytes that follow; so two encodings written one after the
    other decode to the second message laid over the first. *)
Theorem unmarshal_overwrites_present_fields :
  (forall (a m : TaskEvent.t) (rest : list byte),
      valid_TaskEvent a ->
      unmarshalTaskEvent (marshalTaskEvent a ++ rest) m
      = unmarshalTaskEvent rest (merge_TaskEvent m a))
  /\ (forall a b : TaskEvent.t,
      valid_TaskEvent a -> valid_TaskEvent b ->
      unmarshalTaskEvent (marshalTaskEvent a ++ marshalTaskEvent b) TaskEvent.zero
      = Ok (merge_TaskEvent a b))
  /\ (forall (a m : HealthResponse.t) (rest : list byte),
      valid_HealthResponse a ->
      unmarshalHealthResponse (marshalHealthResponse a ++ rest) m
      = unmarshalHealthResponse rest (merge_HealthResponse m a))
  /\ (forall a b : HealthResponse.t,
      valid_HealthResponse a -> valid_HealthResponse b ->
      unmarshalHealthResponse (marshalHealthResponse a ++ marshalHealthResponse b)
        HealthResponse.zero
      = Ok (merge_HealthResponse a b)).
Proof.
  split; [|split; [|split]].
  - intros a m rest Ha. apply unmarshalTaskEvent_marshal_app. exact Ha.
  - intros a b Ha Hb. rewrite unmarshalTaskEvent_marshal_app by exact Ha.
    rewrite <- (app_nil_r (marshalTaskEvent b)).
    rewrite unmarshalTaskEvent_marshal_app by exact Hb.
    destruct a as [x y z]. unfold merge_TaskEvent. simpl.
    rewrite !overwrite_empty. reflexivity.
  - intros a m rest Ha. apply unmarshalHealthResponse_marshal_app. exact Ha.
  - intros a b Ha Hb. rewrite unmarshalHealthResponse_marshal_app by exact Ha.
    rewrite <- (app_nil_r (marshalHealthResponse b)).
    rewrite unmarshalHealthResponse_marshal_app by exact Hb.
    destruct a as [x y]. unfold merge_HealthResponse. simpl.
    rewrite !overwrite_empty. reflexivity.
Qed.

Lemma unmarshal_overwrites_present_fields_witness :
  unmarshalTaskEvent
    (marshalTaskEvent (TaskEvent.mk "" "result" "done")) (TaskEvent.mk "t1" "progress" "p")
  = Ok (TaskEvent.mk "t1" "result" "done")
  /\ unmarshalHealthResponse
       (marshalHealthResponse (HealthResponse.mk "ok" "")
        ++ marshalHealthResponse (HealthResponse.mk "" "s1")) HealthResponse.zero
     = Ok (HealthResponse.mk "ok" "s1").
Proof.
  split.
  - rewrite <- (app_nil_r (marshalTaskEvent (TaskEvent.mk "" "result" "done"))).
    rewrite (proj1 unmarshal_overwrites_present_fields).
    + reflexivity.
    + repeat split; apply fits_short; simpl; lia.
  - apply (proj2 (proj2 (proj2 unmarshal_overwrites_present_fields))).
    + repeat split; apply fits_short; simpl; lia.
    + repeat split; apply fits_short; simpl; lia.
Defined.

(** X2.  Reading an encoded request into a request that already holds values
    replaces the strings that are non-empty in the encoded one and adds its
    metadata entries to the ones already there, an encoded entry winning over
    an old one with the same key; the old entries are never dropped. *)
Theorem unmarshalTaskRequest_merges_metadata :
  forall (a m : TaskRequest.t) (range : list (string * string)) (rest : list byte),
    valid_TaskRequest a ->
    range ≡ₚ map_to_list (entries (TaskRequest.Metadata a)) ->
    exists m',
      unmarshalTaskRequest (marshalTaskRequest range a ++ rest) m
      = unmarshalTaskRequest rest m'
      /\ TaskRequest.TaskId m' = overwrite (TaskRequest.TaskId m) (TaskRequest.TaskId a)
      /\ TaskRequest.Skill m' = overwrite (TaskRequest.Skill m) (TaskRequest.Skill a)
      /\ TaskRequest.Input m' = overwrite (TaskRequest.Input m) (TaskRequest.Input a)
      /\ entries (TaskRequest.Metadata m')
         = entries (TaskRequest.Metadata a) ∪ entries (TaskRequest.Metadata m).
Proof.
  intros a m range rest (H1 & H2 & H3 & H4) Hperm.
  exists (merge_TaskRequest m a range). split.
  - apply unmarshalTaskRequest_marshal_app; try assumption.
    intros [k v] Hin. apply H4. rewrite Hperm in Hin.
    apply elem_of_map_to_list in Hin. exact Hin.
  - repeat split. simpl. unfold merge_Metadata.
    assert (Hnd : NoDup (range.*1)).
    { rewrite Hperm. apply NoDup_fst_map_to_list. }
    assert (Hmap : (list_to_map range : gmap string string)
                   = entries (TaskRequest.Metadata a)).
    { rewrite (list_to_map_proper range _ Hnd Hperm). apply list_to_map_to_list. }
    destruct range as [|kv range].
    + simpl in Hmap. rewrite <- Hmap. rewrite (left_id_L ∅ (∪)). reflexivity.
    + change (foldl insert_entry (entries (TaskRequest.Metadata m)) (kv :: range)
              = entries (TaskRequest.Metadata a) ∪ entries (TaskRequest.Metadata m)).
      rewrite (foldl_insert_entry_union (kv :: range)) by exact Hnd.
      rewrite Hmap. reflexivity.
Qed.

Lemma unmarshalTaskRequest_merges_metadata_witness :
  exists m',
    unmarshalTaskRequest (marshalTaskRequest [("b", "2"); ("a", "1")] request_t1 ++ [])
      (TaskRequest.mk "t0" "old" "x" (Some (<["a":="0"]> (<["c":="3"]> ∅))))
    = unmarshalTaskRequest [] m'
    /\ TaskRequest.TaskId m' = "t1"
    /\ TaskRequest.Skill m' = "s"
    /\ TaskRequest.Input m' = "x"
    /\ entries (TaskRequest.Metadata m')
       = entries (TaskRequest.Metadata request_t1) ∪ <["a":="0"]> (<["c":="3"]> ∅).
Proof.
  assert (Hvalid : valid_TaskRequest request_t1).
  { unfold valid_TaskRequest, request_t1. simpl.
    repeat split; try (apply fits_short; simpl; lia).
    intros k v H.
    destruct (decide (k = "a")) as [->|Ha].
    - rewrite lookup_insert_eq in H. inversion H; subst. vm_compute. discriminate.
    - rewrite lookup_insert_ne in H by congruence.
      destruct (decide (k = "b")) as [->|Hb].
      + rewrite lookup_insert_eq in H. inversion H; subst. vm_compute. discriminate.
      + rewrite lookup_insert_ne in H by congruence. rewrite lookup_empty in H.
        discriminate H. }
  assert (Hperm : [("b", "2"); ("a", "1")]
                  ≡ₚ map_to_list (entries (TaskRequest.Metadata request_t1))).
  { unfold request_t1. simpl.
    rewrite map_to_list_insert by reflexivity.
    rewrite map_to_list_insert by reflexivity.
    rewrite map_to_list_empty. apply Permutation_swap. }
  destruct (unmarshalTaskRequest_merges_metadata request_t1
              (TaskRequest.mk "t0" "old" "x" (Some (<["a":="0"]> (<["c":="3"]> ∅))))
              [("b", "2"); ("a", "1")] [] Hvalid Hperm)
    as (m' & Hdec & Hid & Hskill & Hinput & Hmd).
  exists m'. split; [exact Hdec|]. split; [exact Hid|]. split; [exact Hskill|].
  split; [exact Hinput | exact Hmd].
Defined.

(** ** A field cut short *)

Lemma varint_bytes_S k v :
  varint_bytes (S k) v
  = if v <? 128 then [byte_of_Z v]
    else byte_of_Z (Z.lor (Z.land v 127) 128) :: varint_bytes k (Z.shiftr v 7).
Proof. reflexivity. Qed.

Lemma consumeVarint_at_nil k shift acc n :
  consumeVarint_at k shift acc n [] = (0, errCodeTruncated).
Proof. destruct k; reflexivity. Qed.

Lemma consumeVarint_at_continue k shift acc n y b :
  128 <= byte_to_Z y ->
  consumeVarint_at (S k) shift acc n (y :: b)
  = consumeVarint_at k (shift + 7) (acc + Z.shiftl (byte_to_Z y - 128) shift) (n + 1) b.
Proof.
  intros Hy. change (consumeVarint_at (S k) shift acc n (y :: b))
    with (if byte_to_Z y <? 128 then (acc + Z.shiftl (byte_to_Z y) shift, n + 1)
          else consumeVarint_at k (shift + 7) (acc + Z.shiftl (byte_to_Z y - 128) shift)
                 (n + 1) b).
  replace (byte_to_Z y <? 128) with false by (symmetry; apply Z.ltb_ge; exact Hy).
  reflexivity.
Qed.

Lemma consumeVarint_at_truncated k shift acc n j v :
  (j < length (varint_bytes k v))%nat ->
  (consumeVarint_at k shift acc n (take j (varint_bytes k v))).2 = errCodeTruncated.
Proof.
  revert shift acc n j v. induction k as [|k IH]; intros shift acc n j v Hj.
  - change (varint_bytes 0 v) with [byte_of_Z v] in *. simpl in Hj.
    replace j with 0%nat by lia. reflexivity.
  - rewrite varint_bytes_S in *. destruct (v <? 128).
    + simpl in Hj. replace j with 0%nat by lia. reflexivity.
    + destruct j as [|j]; [reflexivity|].
      simpl in Hj. rewrite firstn_cons.
      rewrite consumeVarint_at_continue.
      * apply IH. lia.
      * rewrite lor_continuation.
        pose proof (Z.mod_pos_bound v 128 ltac:(lia)).
        rewrite byte_to_of_Z by lia. lia.
Qed.

Lemma ConsumeVarint_truncated j v :
  (j < length (varint_bytes 9 v))%nat ->
  (ConsumeVarint (take j (varint_bytes 9 v))).2 = errCodeTruncated.
Proof. apply consumeVarint_at_truncated. Qed.

Section DecodeFieldsTruncated.
Context {M : Type}.
Variables (etag : error) (ebytes efield : Z -> error).
Variable field : Z -> list byte -> M -> result M.

Lemma decode_fields_truncated fuel num val k m :
  valid_number num -> len val < 2 ^ 64 ->
  (0 < k < length (appendBytes [] num val))%nat -> (k <= fuel)%nat ->
  exists e,
    decode_fields etag ebytes efield field fuel (take k (appendBytes [] num val)) m = Err e
    /\ (e = etag \/ e = ebytes num).
Proof.
  intros Hn Hv Hk Hf.
  assert (Happ : appendBytes [] num val
                 = AppendTag [] num BytesType ++ (varint_bytes 9 (len val) ++ val)).
  { unfold appendBytes, AppendBytes, AppendTag, AppendVarint.
    rewrite ?app_nil_l, <- ?app_assoc. reflexivity. }
  rewrite Happ in *. clear Happ.
  set (T := AppendTag [] num BytesType) in *.
  set (L := varint_bytes 9 (len val)) in *.
  assert (HT : T = varint_bytes 9 (EncodeTag num BytesType)) by reflexivity.
  destruct fuel as [|fuel]; [lia|]. simpl decode_fields.
  assert (Hlen : len (take k (T ++ L ++ val)) = Z.of_nat k).
  { unfold len. rewrite length_take. lia. }
  replace (len (take k (T ++ L ++ val)) <=? 0) with false
    by (symmetry; apply Z.leb_gt; lia).
  destruct (le_lt_dec (length T) k) as [Hge|Hlt].
  - rewrite take_app_ge by exact Hge.
    unfold T at 1. rewrite ConsumeTag_AppendTag by (unfold valid_number in Hn; unfold BytesType; lia).
    fold T. pose proof (len_nonneg T).
    replace (len T <? 0) with false by (symmetry; apply Z.ltb_ge; lia).
    destruct (slice_from_ok (T ++ take (k - length T) (L ++ val)) (len T)) as [-> _].
    { rewrite len_app. pose proof (len_nonneg (take (k - length T) (L ++ val))). lia. }
    rewrite from_app. simpl bind.
    change (BytesType =? BytesType) with true. cbv iota.
    rewrite !length_app in Hk.
    assert (Hbytes : (ConsumeBytes (take (k - length T) (L ++ val))).2 < 0).
    { unfold ConsumeBytes.
      destruct (le_lt_dec (length L) (k - length T)) as [HgeL|HltL].
      - rewrite take_app_ge by exact HgeL. unfold L at 1.
        rewrite ConsumeVarint_bytes by (pose proof (len_nonneg val); lia). fold L.
        pose proof (len_nonneg L).
        replace (len L <? 0) with false by (symmetry; apply Z.ltb_ge; lia).
        rewrite from_app.
        replace (len (take (k - length T - length L) val) <? len val) with true.
        + simpl. unfold errCodeTruncated. lia.
        + symmetry. apply Z.ltb_lt. unfold len. rewrite length_take. lia.
      - rewrite take_app_le by lia.
        pose proof (ConsumeVarint_truncated (k - length T) (len val) HltL) as Htr.
        fold L in Htr.
        destruct (ConsumeVarint (take (k - length T) L)) as [v0 n0]. simpl in Htr. subst n0.
        simpl. unfold errCodeTruncated. lia. }
    destruct (ConsumeBytes (take (k - length T) (L ++ val))) as [val0 n0]. simpl in Hbytes.
    replace (n0 <? 0) with true by (symmetry; apply Z.ltb_lt; exact Hbytes).
    eexists. split; [reflexivity | right; reflexivity].
  - rewrite take_app_le by lia. unfold ConsumeTag.
    assert (Htr : (ConsumeVarint (take k T)).2 = errCodeTruncated).
    { rewrite HT. apply ConsumeVarint_truncated. rewrite <- HT. exact Hlt. }
    destruct (ConsumeVarint (take k T)) as [v0 n0]. simpl in Htr. subst n0.
    simpl. eexists. split; [reflexivity | left; reflexivity].
Qed.
End DecodeFieldsTruncated.

Lemma unmarshalTaskEvent_truncated num val k m :
  valid_number num -> len val <= MaxInt ->
  (0 < k < length (appendBytes [] num val))%nat ->
  exists e, unmarshalTaskEvent (take k (appendBytes [] num val)) m = Err e
            /\ (e = errorString "invalid tag"
                \/ e = errorString ("invalid bytes for field " +:+ itoa num)).
Proof.
  intros Hn Hv Hk. unfold unmarshalTaskEvent. rewrite unmarshalTaskEvent_loop_eq.
  apply decode_fields_truncated; [exact Hn | pose proof MaxInt_lt; lia | exact Hk |].
  rewrite length_take. lia.
Qed.

Lemma unmarshalHealthResponse_truncated num val k m :
  valid_number num -> len val <= MaxInt ->
  (0 < k < length (appendBytes [] num val))%nat ->
  exists e, unmarshalHealthResponse (take k (appendBytes [] num val)) m = Err e
            /\ (e = errorString "invalid tag"
                \/ e = errorString ("invalid bytes for field " +:+ itoa num)).
Proof.
  intros Hn Hv Hk. unfold unmarshalHealthResponse. rewrite unmarshalHealthResponse_loop_eq.
  apply decode_fields_truncated; [exact Hn | pose proof MaxInt_lt; lia | exact Hk |].
  rewrite length_take. lia.
Qed.

Lemma unmarshalTaskRequest_truncated num val k m :
  valid_number num -> len val <= MaxInt ->
  (0 < k < length (appendBytes [] num val))%nat ->
  exists e, unmarshalTaskRequest (take k (appendBytes [] num val)) m = Err e
            /\ (e = errorString "invalid tag"
                \/ e = errorString ("invalid bytes for field " +:+ itoa num)).
Proof.
  intros Hn Hv Hk. unfold unmarshalTaskRequest. rewrite unmarshalTaskRequest_loop_eq.
  apply decode_fields_truncated; [exact Hn | pose proof MaxInt_lt; lia | exact Hk |].
  rewrite length_take. lia.
Qed.

(** X3.  A message cut off inside a field is never taken for a shorter
    message: when the bytes of whole fields are followed by a length-delimited
    field of which only a proper, non-empty part arrived, each decoder returns
    an error, "invalid tag" when the cut falls inside the tag and "invalid
    bytes for field N" when it falls inside the length or the payload. *)
Theorem truncated_field_is_an_error :
  forall (num : Z) (val : list byte) (k : nat),
    valid_number num -> len val <= MaxInt ->
    (0 < k < length (appendBytes [] num val))%nat ->
    let cut := take k (appendBytes [] num val) in
    let errors e :=
      e = errorString "invalid tag"
      \/ e = errorString ("invalid bytes for field " +:+ itoa num) in
    (forall (a m : TaskEvent.t),
        valid_TaskEvent a ->
        exists e, unmarshalTaskEvent (marshalTaskEvent a ++ cut) m = Err e /\ errors e)
    /\ (forall (a m : HealthResponse.t),
        valid_HealthResponse a ->
        exists e, unmarshalHealthResponse (marshalHealthResponse a ++ cut) m = Err e
                  /\ errors e)
    /\ (forall (a m : TaskRequest.t) (range : list (string * string)),
        valid_TaskRequest a ->
        range ≡ₚ map_to_list (entries (TaskRequest.Metadata a)) ->
        exists e, unmarshalTaskRequest (marshalTaskRequest range a ++ cut) m = Err e
                  /\ errors e).
Proof.
  intros num val k Hn Hv Hk cut errors. split; [|split].
  - intros a m Ha. rewrite unmarshalTaskEvent_marshal_app by exact Ha.
    apply unmarshalTaskEvent_truncated; assumption.
  - intros a m Ha. rewrite unmarshalHealthResponse_marshal_app by exact Ha.
    apply unmarshalHealthResponse_truncated; assumption.
  - intros a m range (H1 & H2 & H3 & H4) Hperm.
    rewrite unmarshalTaskRequest_marshal_app; try assumption.
    + apply unmarshalTaskRequest_truncated; assumption.
    + intros [k0 v0] Hin. apply H4. rewrite Hperm in Hin.
      apply elem_of_map_to_list in Hin. exact Hin.
Qed.

Lemma truncated_field_is_an_error_witness :
  exists e,
    unmarshalTaskEvent
      (marshalTaskEvent (TaskEvent.mk "t1" "" "")
       ++ take 3 (appendBytes [] 3 (list_byte_of_string "done"))) TaskEvent.zero
    = Err e
    /\ (e = errorString "invalid tag"
        \/ e = errorString ("invalid bytes for field " +:+ itoa 3)).
Proof.
  apply (proj1 (truncated_field_is_an_error 3 (list_byte_of_string "done") 3
                  ltac:(unfold valid_number, MaxInt32; lia)
                  ltac:(vm_compute; discriminate)
                  ltac:(vm_compute; lia))).
  repeat split; apply fits_short; simpl; lia.
Defined.

(** ** Empty messages and equal encodings *)

Lemma appendString_nil_iff num s : appendString [] num s = [] <-> s = "".
Proof.
  split.
  - intros H. destruct s as [|c s]; [reflexivity|].
    pose proof (appendString_len [] num (String c s)) as Hl. rewrite H in Hl.
    unfold len in Hl. simpl in Hl. lia.
  - intros ->. reflexivity.
Qed.

Lemma foldl_appendEntry_nil_iff range : foldl appendEntry [] range = [] <-> range = [].
Proof.
  split; [|intros ->; reflexivity].
  destruct range as [|kv range]; [reflexivity|]. simpl.
  rewrite foldl_appendEntry, appendEntry_eq, app_nil_l.
  intros H. apply app_eq_nil in H as [H _].
  unfold appendBytes, AppendBytes, AppendTag, AppendVarint in H.
  rewrite ?app_nil_l in H. apply app_eq_nil in H as [H _]. apply app_eq_nil in H as [H _].
  pose proof (varint_bytes_len 9 (EncodeTag 4 BytesType)) as Hl. rewrite H in Hl.
  unfold len in Hl. simpl in Hl. lia.
Qed.

(** X4.  A message whose fields are all empty is encoded as no bytes at all,
    and no other message is; decoding no bytes leaves the message it is given
    untouched.  On the wire an all-empty request, event or health response
    cannot be told from [Empty]. *)
Theorem marshal_empty_iff_zero :
  (forall m : TaskEvent.t, marshalTaskEvent m = [] <-> m = TaskEvent.zero)
  /\ (forall m : HealthResponse.t, marshalHealthResponse m = [] <-> m = HealthResponse.zero)
  /\ (forall (range : list (string * string)) (m : TaskRequest.t),
        marshalTaskRequest range m = []
        <-> TaskRequest.TaskId m = "" /\ TaskRequest.Skill m = ""
            /\ TaskRequest.Input m = "" /\ range = [])
  /\ (forall m : TaskEvent.t, unmarshalTaskEvent [] m = Ok m)
  /\ (forall m : HealthResponse.t, unmarshalHealthResponse [] m = Ok m)
  /\ (forall m : TaskRequest.t, unmarshalTaskRequest [] m = Ok m).
Proof.
  split; [|split; [|split; [|repeat split]]].
  - intros [x y z]. rewrite marshalTaskEvent_fields. simpl. split.
    + intros H. apply app_eq_nil in H as [Hx H]. apply app_eq_nil in H as [Hy Hz].
      apply appendString_nil_iff in Hx, Hy, Hz. subst. reflexivity.
    + intros H. inversion H. reflexivity.
  - intros [x y]. rewrite marshalHealthResponse_fields. simpl. split.
    + intros H. apply app_eq_nil in H as [Hx Hy].
      apply appendString_nil_iff in Hx, Hy. subst. reflexivity.
    + intros H. inversion H. reflexivity.
  - intros range [x y z md]. rewrite marshalTaskRequest_fields. simpl. split.
    + intros H. apply app_eq_nil in H as [Hx H]. apply app_eq_nil in H as [Hy H].
      apply app_eq_nil in H as [Hz Hr].
      apply appendString_nil_iff in Hx, Hy, Hz. apply foldl_appendEntry_nil_iff in Hr.
      auto.
    + intros (-> & -> & -> & ->). reflexivity.
Qed.

(** X5.  Two messages with the same encoding are the same message: events and
    health responses are equal, requests have the same strings and the same
    metadata entries, whatever order each encoder visited its map in. *)
Theorem marshal_injective :
  (forall a b : TaskEvent.t,
      valid_TaskEvent a -> valid_TaskEvent b ->
      marshalTaskEvent a = marshalTaskEvent b -> a = b)
  /\ (forall a b : HealthResponse.t,
      valid_HealthResponse a -> valid_HealthResponse b ->
      marshalHealthResponse a = marshalHealthResponse b -> a = b)
  /\ (forall (a b : TaskRequest.t) (ra rb : list (string * string)),
      valid_TaskRequest a -> valid_TaskRequest b ->
      ra ≡ₚ map_to_list (entries (TaskRequest.Metadata a)) ->
      rb ≡ₚ map_to_list (entries (TaskRequest.Metadata b)) ->
      marshalTaskRequest ra a = marshalTaskRequest rb b -> same_TaskRequest a b).
Proof.
  split; [|split].
  - intros a b Ha Hb Heq.
    pose proof (unmarshalTaskEvent_marshalTaskEvent a Ha) as Da.
    pose proof (unmarshalTaskEvent_marshalTaskEvent b Hb) as Db.
    rewrite Heq in Da. congruence.
  - intros a b Ha Hb Heq.
    pose proof (unmarshalHealthResponse_marshalHealthResponse a Ha) as Da.
    pose proof (unmarshalHealthResponse_marshalHealthResponse b Hb) as Db.
    rewrite Heq in Da. congruence.
  - intros a b ra rb Ha Hb Hpa Hpb Heq.
    pose proof (unmarshalTaskRequest_marshalTaskRequest ra a Ha Hpa) as Da.
    pose proof (unmarshalTaskRequest_marshalTaskRequest rb b Hb Hpb) as Db.
    rewrite Heq in Da. rewrite Db in Da. inversion Da as [[H1 H2 H3 H4]].
    unfold same_TaskRequest. repeat split; try congruence.
    assert (Hnil : forall (r : list (string * string)) (md : gmap string string),
               r ≡ₚ map_to_list md -> r = [] -> md = ∅).
    { intros r md Hp ->. symmetry in Hp. apply Permutation_nil_r in Hp.
      apply map_to_list_empty_iff in Hp. exact Hp. }
    destruct ra as [|ka ra], rb as [|kb rb]; try discriminate H4.
    + rewrite (Hnil _ _ Hpa eq_refl), (Hnil _ _ Hpb eq_refl). reflexivity.
    + inversion H4. congruence.
Qed.

Lemma valid_two_entries (id skill input : string) (md : gmap string string) :
  fits id -> fits skill -> fits input ->
  (forall k v, md !! k = Some v -> (k = "a" /\ v = "1") \/ (k = "b" /\ v = "2")) ->
  valid_TaskRequest (TaskRequest.mk id skill input (Some md)).
Proof.
  intros H1 H2 H3 Hmd. repeat split; try assumption.
  intros k v H. simpl in H. destruct (Hmd k v H) as [[-> ->]|[-> ->]];
    vm_compute; discriminate.
Qed.

Lemma marshal_injective_witness :
  same_TaskRequest request_t1
    (TaskRequest.mk "t1" "s" "" (Some (<["b":="2"]> (<["a":="1"]> ∅)))).
Proof.
  apply (proj2 (proj2 marshal_injective) request_t1
           (TaskRequest.mk "t1" "s" "" (Some (<["b":="2"]> (<["a":="1"]> ∅))))
           [("b", "2"); ("a", "1")] [("b", "2"); ("a", "1")]).
  - apply valid_two_entries; try (apply fits_short; simpl; lia).
    intros k v H.
    destruct (decide (k = "a")) as [->|Ha].
    + rewrite lookup_insert_eq in H. inversion H. auto.
    + rewrite lookup_insert_ne in H by congruence.
      destruct (decide (k = "b")) as [->|Hb].
      * rewrite lookup_insert_eq in H. inversion H. auto.
      * rewrite lookup_insert_ne in H by congruence. rewrite lookup_empty in H.
        discriminate H.
  - apply valid_two_entries; try (apply fits_short; simpl; lia).
    intros k v H.
    destruct (decide (k = "b")) as [->|Hb].
    + rewrite lookup_insert_eq in H. inversion H. auto.
    + rewrite lookup_insert_ne in H by congruence.
      destruct (decide (k = "a")) as [->|Ha].
      * rewrite lookup_insert_eq in H. inversion H. auto.
      * rewrite lookup_insert_ne in H by congruence. rewrite lookup_empty in H.
        discriminate H.
  - unfold request_t1. simpl.
    rewrite map_to_list_insert by reflexivity.
    rewrite map_to_list_insert by reflexivity.
    rewrite map_to_list_empty. apply Permutation_swap.
  - simpl.
    rewrite map_to_list_insert by reflexivity.
    rewrite map_to_list_insert by reflexivity.
    rewrite map_to_list_empty. reflexivity.
  - reflexivity.
Defined.

(** ** Metadata entries that are not well formed *)

Lemma slice_from_cases data n :
  (exists d, slice_from data n = Ok d) \/ slice_from data n = Panic.
Proof. unfold slice_from. destruct ((0 <=? n) && (n <=? len data)); eauto. Qed.

Section DecodeFieldsErrors.
Context {M : Type}.
Variables (etag : error) (ebytes efield : Z -> error).
Variable field : Z -> list byte -> M -> result M.

Lemma decode_fields_Err fuel data m e :
  decode_fields etag ebytes efield field fuel data m = Err e ->
  e = etag \/ (exists n, e = ebytes n) \/ (exists n, e = efield n)
  \/ (exists num val m', field num val m' = Err e).
Proof.
  revert data m. induction fuel as [|fuel IH]; intros data m; simpl.
  - destruct (len data <=? 0); discriminate.
  - destruct (len data <=? 0); [discriminate|].
    destruct (ConsumeTag data) as [[num typ] n].
    destruct (n <? 0); [intros H; inversion H; auto|].
    destruct (slice_from_cases data n) as [[data1 ->]| ->]; simpl; [|discriminate].
    destruct (typ =? BytesType).
    + destruct (ConsumeBytes data1) as [val k].
      destruct (k <? 0); [intros H; inversion H; right; left; eexists; reflexivity|].
      destruct (slice_from_cases data1 k) as [[data2 ->]| ->]; simpl; [|discriminate].
      destruct (field num val m) as [m'|e'| |] eqn:Ef; simpl;
        [apply IH | intros H; inversion H; subst; right; right; right; do 3 eexists; exact Ef
         | discriminate | discriminate].
    + destruct (ConsumeFieldValue num typ data1) as [k|]; simpl; [|discriminate].
      destruct (k <? 0); [intros H; inversion H; right; right; left; eexists; reflexivity|].
      destruct (slice_from_cases data1 k) as [[data2 ->]| ->]; simpl; [|discriminate].
      apply IH.
Qed.
End DecodeFieldsErrors.

(** X6.  A metadata entry is decoded on its own and its fate decides the
    request's: when the payload of a field 4 does not decode as an entry the
    whole request fails with the entry's error, which is one of "invalid map
    entry tag", "invalid map entry bytes" and "invalid map entry field"; when
    it does, the key is set to the value in the metadata and the decoder goes
    on with the rest. *)
Theorem malformed_metadata_entry_fails_request :
  forall (val rest : list byte) (m : TaskRequest.t),
    len val <= MaxInt ->
    returns (unmarshalMapEntry val)
    /\ (forall e, unmarshalMapEntry val = Err e ->
          (e = errorString "invalid map entry tag"
           \/ e = errorString "invalid map entry bytes"
           \/ e = errorString "invalid map entry field")
          /\ unmarshalTaskRequest (appendBytes [] 4 val ++ rest) m = Err e)
    /\ (forall k v, unmarshalMapEntry val = Ok (k, v) ->
          unmarshalTaskRequest (appendBytes [] 4 val ++ rest) m
          = unmarshalTaskRequest rest (set_Metadata m k v)).
Proof.
  intros val rest m Hv.
  assert (Hstep : unmarshalTaskRequest (appendBytes [] 4 val ++ rest) m
                  = let! kv := unmarshalMapEntry val in
                    unmarshalTaskRequest rest (set_Metadata m kv.1 kv.2)).
  { unfold unmarshalTaskRequest at 1. rewrite unmarshalTaskRequest_loop_eq.
    rewrite decode_fields_appendBytes;
      [| apply valid_number_small; lia | pose proof MaxInt_lt; lia | lia].
    unfold TaskRequest_field. simpl.
    destruct (unmarshalMapEntry val) as [kv| | |]; simpl; try reflexivity.
    symmetry. apply unmarshalTaskRequest_loop_eq. }
  split; [apply unmarshalMapEntry_returns|]. split.
  - intros e He. split.
    + unfold unmarshalMapEntry in He. rewrite unmarshalMapEntry_loop_eq in He.
      apply decode_fields_Err in He.
      destruct He as [->|[[n ->]|[[n ->]|(num & val' & kv & Hf)]]]; auto.
      unfold mapEntry_field in Hf.
      destruct (num =? 1); [discriminate|]. destruct (num =? 2); discriminate.
    + rewrite Hstep, He. reflexivity.
  - intros k v Hkv. rewrite Hstep, Hkv. reflexivity.
Qed.

Lemma malformed_metadata_entry_fails_request_witness :
  unmarshalMapEntry [x0e] = Err (errorString "invalid map entry field")
  /\ unmarshalTaskRequest (appendBytes [] 4 [x0e] ++ marshalTaskEvent (TaskEvent.mk "t1" "" ""))
       TaskRequest.zero
     = Err (errorString "invalid map entry field").
Proof.
  split; [reflexivity|].
  apply (proj1 (proj2 (malformed_metadata_entry_fails_request [x0e]
                         (marshalTaskEvent (TaskEvent.mk "t1" "" "")) TaskRequest.zero
                         ltac:(vm_compute; discriminate)))).
  reflexivity.
Defined.

(** ** The registry: what the skill map holds *)

Lemma first_declarant_Some skill ms name :
  first_declarant skill ms = Some name ->
  exists m, m ∈ ms /\ Manifest.Name m = name /\ skill ∈ Manifest.Skills m.
Proof.
  induction ms as [|m ms IH]; simpl; [discriminate|].
  destruct (bool_decide (skill ∈ Manifest.Skills m)) eqn:E.
  - intros H. inversion H. apply bool_decide_eq_true_1 in E.
    exists m. split; [left | auto].
  - intros H. destruct (IH H) as (m' & Hin & Hn & Hs).
    exists m'. split; [right; exact Hin | auto].
Qed.

Lemma first_declarant_is_Some skill ms m :
  m ∈ ms -> skill ∈ Manifest.Skills m -> is_Some (first_declarant skill ms).
Proof.
  intros Hin Hs. induction ms as [|m0 ms IH]; [inversion Hin|]. simpl.
  destruct (bool_decide (skill ∈ Manifest.Skills m0)) eqn:E; [eexists; reflexivity|].
  apply elem_of_cons in Hin as [->|Hin].
  - apply bool_decide_eq_false_1 in E. contradiction.
  - apply IH. exact Hin.
Qed.

Lemma foldl_register_baseDir r ms :
  Registry.baseDir (foldl register r ms) = Registry.baseDir r.
Proof.
  revert r. induction ms as [|m ms IH]; intros r; [reflexivity|].
  simpl. rewrite IH. reflexivity.
Qed.

Section RegistryFacts.
Variable filepath_Dir : string -> string.
Variable filepath_Join : list string -> string.
Variable ReadDir : string -> ReadDirResult.
Variable Stat_IsNotExist : string -> bool.
Variable ReadFile : string -> error + list byte.
Variable json_Unmarshal : list byte -> error + Manifest.t.

Lemma accepted_valid agentsDir entries m :
  m ∈ accepted filepath_Join Stat_IsNotExist ReadFile json_Unmarshal agentsDir entries ->
  Validate m = None.
Proof.
  unfold accepted. intros Hin. apply list_elem_of_omap in Hin.
  destruct Hin as (entry & _ & Hentry).
  destruct (negb (IsDir entry)); [discriminate|].
  destruct (Stat_IsNotExist _); [discriminate|].
  unfold LoadManifest in Hentry.
  destruct (ReadFile _) as [e|data]; [discriminate|].
  destruct (json_Unmarshal data) as [e|m0]; [discriminate|].
  destruct (Validate m0) eqn:Ev; [discriminate|].
  inversion Hentry; subst. exact Ev.
Qed.

Lemma NewRegistry_Some agentsDir r :
  NewRegistry filepath_Dir filepath_Join ReadDir Stat_IsNotExist ReadFile json_Unmarshal
    agentsDir = (Some r, None) ->
  exists ms,
    r = foldl register (Registry.mk [] ∅ (filepath_Dir agentsDir)) ms
    /\ forall m, m ∈ ms -> Validate m = None.
Proof.
  unfold NewRegistry. cbv zeta. destruct (ReadDir agentsDir) as [entries| |e]; intros H.
  - inversion H. rewrite foldl_scan_entry. eexists. split; [reflexivity|].
    intros m. apply accepted_valid.
  - inversion H. exists []. split; [reflexivity|]. intros m Hin. inversion Hin.
  - discriminate H.
Qed.

(** X7.  In a registry that [NewRegistry] returns the skill map is sound and
    complete for the agent list: the name a skill is mapped to is the name of
    a registered agent that declares the skill, and every skill declared by a
    registered agent is mapped to some agent. *)
Theorem skillMap_sound_and_complete :
  forall (agentsDir : string) (r : Registry.t),
    NewRegistry filepath_Dir filepath_Join ReadDir Stat_IsNotExist ReadFile json_Unmarshal
      agentsDir = (Some r, None) ->
    (forall skill name,
        AgentForSkill r skill = Some name ->
        exists m, m ∈ Registry.agents r /\ Manifest.Name m = name
                  /\ skill ∈ Manifest.Skills m)
    /\ (forall m skill,
        m ∈ Registry.agents r -> skill ∈ Manifest.Skills m ->
        is_Some (AgentForSkill r skill)).
Proof.
  intros agentsDir r Hnew. destruct (NewRegistry_Some agentsDir r Hnew) as (ms & -> & _).
  assert (Hagents : Registry.agents (foldl register (Registry.mk [] ∅ (filepath_Dir agentsDir)) ms)
                    = ms) by (rewrite foldl_register_agents; reflexivity).
  assert (Hlookup : forall skill,
    AgentForSkill (foldl register (Registry.mk [] ∅ (filepath_Dir agentsDir)) ms) skill
    = first_declarant skill ms).
  { intros skill. unfold AgentForSkill. rewrite foldl_register_lookup. simpl.
    rewrite lookup_empty. reflexivity. }
  rewrite Hagents. split.
  - intros skill name H. rewrite Hlookup in H. apply first_declarant_Some. exact H.
  - intros m skill Hin Hs. rewrite Hlookup. eapply first_declarant_is_Some; eassumption.
Qed.

(** X8.  [NewRegistry] fails only when the agents directory cannot be read for
    a reason other than its absence, and then with an error that wraps the
    cause; a missing directory gives an empty registry.  Every manifest of a
    registry it returns has passed validation (a name, at least one skill, a
    command), and the base directory is the parent of the agents directory. *)
Theorem NewRegistry_outcomes :
  forall agentsDir : string,
    match ReadDir agentsDir with
    | DirError cause =>
        exists err,
          NewRegistry filepath_Dir filepath_Join ReadDir Stat_IsNotExist ReadFile
            json_Unmarshal agentsDir = (None, Some err)
          /\ Unwrap err = Some cause
          /\ Error err = "read agents dir: " +:+ Error cause
    | DirNotExist =>
        NewRegistry filepath_Dir filepath_Join ReadDir Stat_IsNotExist ReadFile
          json_Unmarshal agentsDir
        = (Some (Registry.mk [] ∅ (filepath_Dir agentsDir)), None)
    | DirEntries _ =>
        exists r,
          NewRegistry filepath_Dir filepath_Join ReadDir Stat_IsNotExist ReadFile
            json_Unmarshal agentsDir = (Some r, None)
          /\ Registry.baseDir r = filepath_Dir agentsDir
          /\ forall m, m ∈ Registry.agents r ->
                       Manifest.Name m <> "" /\ Manifest.Skills m <> []
                       /\ Manifest.Command m <> ""
    end.
Proof.
  intros agentsDir. destruct (ReadDir agentsDir) as [entries| |cause] eqn:Hdir.
  - assert (Hnew : exists r,
      NewRegistry filepath_Dir filepath_Join ReadDir Stat_IsNotExist ReadFile json_Unmarshal
        agentsDir = (Some r, None)).
    { unfold NewRegistry. rewrite Hdir. eexists. reflexivity. }
    destruct Hnew as [r Hnew]. exists r. split; [exact Hnew|].
    destruct (NewRegistry_Some agentsDir r Hnew) as (ms & -> & Hvalid). split.
    + rewrite foldl_register_baseDir. reflexivity.
    + intros m Hin. rewrite foldl_register_agents in Hin. simpl in Hin.
      apply Validate_None. apply Hvalid. exact Hin.
  - unfold NewRegistry. rewrite Hdir. reflexivity.
  - unfold NewRegistry. rewrite Hdir. eexists. split; [reflexivity|]. split; reflexivity.
Qed.
End RegistryFacts.

Lemma skillMap_sound_and_complete_witness :
  exists r,
    NewRegistry (fun _ => ".") demo_Join demo_ReadDir (fun _ => false) demo_ReadFile
      demo_Unmarshal "agents" = (Some r, None)
    /\ (forall skill name,
          AgentForSkill r skill = Some name ->
          exists m, m ∈ Registry.agents r /\ Manifest.Name m = name
                    /\ skill ∈ Manifest.Skills m)
    /\ (forall m skill,
          m ∈ Registry.agents r -> skill ∈ Manifest.Skills m ->
          is_Some (AgentForSkill r skill)).
Proof.
  eexists. split; [reflexivity|].
  apply (skillMap_sound_and_complete (fun _ => ".") demo_Join demo_ReadDir (fun _ => false)
           demo_ReadFile demo_Unmarshal "agents").
  reflexivity.
Defined.

(** ** The manager *)

Lemma last_named_snoc name ms m :
  last_named name (ms ++ [m])
  = if decide (Manifest.Name m = name) then Some m else last_named name ms.
Proof.
  unfold last_named. rewrite filter_app. simpl.
  rewrite filter_cons, filter_nil. destruct (decide (Manifest.Name m = name)).
  - apply last_snoc.
  - rewrite app_nil_r. reflexivity.
Qed.

Lemma last_named_Some name ms m :
  last_named name ms = Some m -> m ∈ ms /\ Manifest.Name m = name.
Proof.
  unfold last_named. intros H. apply last_Some_elem_of in H.
  apply list_elem_of_filter in H. destruct H; auto.
Qed.

Lemma last_named_is_Some name ms m :
  m ∈ ms -> Manifest.Name m = name -> is_Some (last_named name ms).
Proof.
  intros Hin Hn. unfold last_named.
  assert (Hf : m ∈ filter (fun m => Manifest.Name m = name) ms)
    by (apply list_elem_of_filter; auto).
  destruct (filter (fun m => Manifest.Name m = name) ms) as [|x l] using rev_ind.
  - inversion Hf.
  - rewrite last_snoc. eexists. reflexivity.
Qed.

Lemma NewManager_lookup reg name :
  Manager.runners (NewManager reg) !! name
  = (fun m => NewRunner m (Registry.baseDir reg)) <$> last_named name (Registry.agents reg).
Proof.
  unfold NewManager. simpl. generalize (Registry.baseDir reg) as base. intros base.
  induction (Registry.agents reg) as [|m ms IH] using rev_ind.
  - simpl. rewrite lookup_empty. reflexivity.
  - rewrite foldl_app. simpl. rewrite last_named_snoc.
    destruct (decide (Manifest.Name m = name)) as [<-|Hne].
    + rewrite lookup_insert_eq. reflexivity.
    + rewrite lookup_insert_ne by exact Hne. exact IH.
Qed.

(** X9.  [NewManager] makes one runner for every agent name of the registry
    and no other: a name has a runner exactly when some registered manifest
    carries it, the runner is a fresh one (Stopped, port 0, no client, no
    error) built from the last manifest with that name, and its status shows
    that name. *)
Theorem NewManager_runners :
  forall (reg : Registry.t) (name : string),
    Manager.runners (NewManager reg) !! name
    = (fun m => NewRunner m (Registry.baseDir reg)) <$> last_named name (Registry.agents reg)
    /\ (is_Some (Manager.runners (NewManager reg) !! name)
        <-> exists m, m ∈ Registry.agents reg /\ Manifest.Name m = name)
    /\ (forall r, Manager.runners (NewManager reg) !! name = Some r ->
          Runner.manifest r ∈ Registry.agents reg
          /\ Runner.state r = StateStopped /\ Runner.client r = None
          /\ Status r = AgentStatus.mk name "stopped"
                          (Manifest.Skills (Runner.manifest r)) 0 "").
Proof.
  intros reg name. pose proof (NewManager_lookup reg name) as Hl.
  split; [exact Hl|]. split.
  - rewrite Hl. split.
    + intros [r Hr]. destruct (last_named name (Registry.agents reg)) as [m|] eqn:E;
        [|discriminate Hr].
      exists m. apply last_named_Some. exact E.
    + intros (m & Hin & Hn).
      destruct (last_named_is_Some name _ m Hin Hn) as [m' ->]. eexists. reflexivity.
  - intros r Hr. rewrite Hl in Hr.
    destruct (last_named name (Registry.agents reg)) as [m|] eqn:E; [|discriminate Hr].
    inversion Hr; subst r. apply last_named_Some in E as [Hin Hn].
    simpl. repeat split; auto. unfold Status. simpl. rewrite Hn. reflexivity.
Qed.

Lemma Execute_frame r call : (Execute r call).2 = r.
Proof.
  unfold Execute. cbv zeta.
  destruct (negb (bool_decide (Runner.state r = StateRunning))
            || negb (bool_decide (is_Some (Runner.client r)))); [reflexivity|].
  destruct call; reflexivity.
Qed.

Lemma Health_frame r call : (Health r call).2 = r.
Proof.
  unfold Health. cbv zeta.
  destruct (negb (bool_decide (Runner.state r = StateRunning))
            || negb (bool_decide (is_Some (Runner.client r)))); [reflexivity|].
  destruct call; reflexivity.
Qed.

Lemma Execute_Stopped r call :
  Runner.state r = StateStopped ->
  Execute r call
  = (Ok ([], Some (errorString ("agent " +:+ Manifest.Name (Runner.manifest r)
                                +:+ " is not running (state: stopped)"))), r).
Proof.
  intros Hs. unfold Execute. cbv zeta. rewrite Hs. reflexivity.
Qed.

Lemma RouteTask_unchanged mgr name call : (RouteTask mgr name call).2 = mgr.
Proof.
  unfold RouteTask. destruct (Manager.runners mgr !! name) as [r|] eqn:E; [|reflexivity].
  pose proof (Execute_frame r call) as Hframe.
  destruct (Execute r call) as [res r'] eqn:Ex. simpl in *. subst r'.
  destruct mgr as [reg runners]. simpl in *. f_equal. apply insert_id. exact E.
Qed.

Lemma RouteTask_result mgr name call :
  (RouteTask mgr name call).1
  = match Manager.runners mgr !! name with
    | None => Ok ([], Some (errorString ("unknown agent: " +:+ name)))
    | Some r => (Execute r call).1
    end.
Proof.
  unfold RouteTask. destruct (Manager.runners mgr !! name) as [r|]; [|reflexivity].
  destruct (Execute r call) as [res r']. reflexivity.
Qed.

Section ManagerFacts.
Variable filepath_Dir : string -> string.
Variable filepath_Join : list string -> string.
Variable ReadDir : string -> ReadDirResult.
Variable Stat_IsNotExist : string -> bool.
Variable ReadFile : string -> error + list byte.
Variable json_Unmarshal : list byte -> error + Manifest.t.

Lemma NewRegistry_resolves agentsDir reg skill name :
  NewRegistry filepath_Dir filepath_Join ReadDir Stat_IsNotExist ReadFile json_Unmarshal
    agentsDir = (Some reg, None) ->
  AgentForSkill reg skill = Some name ->
  exists m, m ∈ Registry.agents reg /\ Manifest.Name m = name.
Proof.
  intros Hnew H.
  destruct (NewRegistry_Some filepath_Dir filepath_Join ReadDir Stat_IsNotExist ReadFile
              json_Unmarshal agentsDir reg Hnew) as (ms & -> & _).
  unfold AgentForSkill in H. rewrite foldl_register_lookup in H. simpl in H.
  rewrite lookup_empty in H. rewrite foldl_register_agents. simpl.
  destruct (first_declarant_Some skill ms name H) as (m & Hin & Hn & _).
  exists m. auto.
Qed.

(** X10.  Routing composes with the registry: in a manager made from a
    registry that [NewRegistry] returned, the agent a skill resolves to is
    known to [RouteTask]; before any agent is started the task is refused with
    that agent's not-running error, not with an unknown-agent error, and the
    manager is left as it was.  A name that no registered manifest carries is
    refused as unknown. *)
Theorem RouteTask_resolved_skill :
  forall (agentsDir : string) (reg : Registry.t) (call : error + ExecuteStream),
    NewRegistry filepath_Dir filepath_Join ReadDir Stat_IsNotExist ReadFile json_Unmarshal
      agentsDir = (Some reg, None) ->
    (forall skill name,
        AgentForSkill reg skill = Some name ->
        RouteTask (NewManager reg) name call
        = (Ok ([], Some (errorString ("agent " +:+ name
                                      +:+ " is not running (state: stopped)"))),
           NewManager reg))
    /\ (forall name,
        (forall m, m ∈ Registry.agents reg -> Manifest.Name m <> name) ->
        RouteTask (NewManager reg) name call
        = (Ok ([], Some (errorString ("unknown agent: " +:+ name))), NewManager reg)).
Proof.
  intros agentsDir reg call Hnew.
  split.
  - intros skill name Hskill.
    destruct (NewRegistry_resolves agentsDir reg skill name Hnew Hskill) as (m & Hin & Hn).
    destruct (last_named_is_Some name _ m Hin Hn) as [m' Hm'].
    pose proof (NewManager_lookup reg name) as Hl. rewrite Hm' in Hl.
    apply last_named_Some in Hm' as [_ Hn'].
    rewrite (surjective_pairing (RouteTask (NewManager reg) name call)).
    rewrite RouteTask_unchanged, RouteTask_result, Hl.
    cbn [fmap option_fmap option_map]. rewrite Execute_Stopped by reflexivity.
    simpl. rewrite Hn'. reflexivity.
  - intros name Hnone.
    pose proof (NewManager_lookup reg name) as Hl.
    destruct (last_named name (Registry.agents reg)) as [m|] eqn:E.
    + apply last_named_Some in E as [Hin Hn]. destruct (Hnone m Hin Hn).
    + unfold RouteTask. rewrite Hl. reflexivity.
Qed.
End ManagerFacts.
Lemma RouteTask_resolved_skill_witness :
  exists reg,
    NewRegistry (fun _ => ".") demo_Join demo_ReadDir (fun _ => false) demo_ReadFile
      demo_Unmarshal "agents" = (Some reg, None)
    /\ AgentForSkill reg "summarize" = Some "alpha"
    /\ RouteTask (NewManager reg) "alpha" (inl (errorString "connection refused"))
       = (Ok ([], Some (errorString "agent alpha is not running (state: stopped)")),
          NewManager reg)
    /\ RouteTask (NewManager reg) "gamma" (inl (errorString "connection refused"))
       = (Ok ([], Some (errorString "unknown agent: gamma")), NewManager reg).
Proof.
  eexists. split; [reflexivity|]. split; [vm_compute; reflexivity|].
  destruct (RouteTask_resolved_skill (fun _ => ".") demo_Join demo_ReadDir (fun _ => false)
              demo_ReadFile demo_Unmarshal "agents" _
              (inl (errorString "connection refused")) eq_refl) as [Hknown Hunknown].
  split.
  - apply (Hknown "summarize"). vm_compute. reflexivity.
  - apply Hunknown. intros m Hin.
    change (m ∈ [alpha_manifest; beta_manifest]) in Hin.
    apply elem_of_cons in Hin as [-> | Hin]; [discriminate|].
    apply elem_of_cons in Hin as [-> | Hin]; [discriminate|].
    inversion Hin.
Defined.

(** ** [StopAll] *)

Lemma run_cons c ev evs :
  run c (ev :: evs)
  = match step c ev with
    | Some c' => run c' evs
    | None => None
    end.
Proof.
  unfold run. cbn [foldl]. destruct (step c ev) as [c'|]; [reflexivity|].
  induction evs as [|e evs IH]; [reflexivity | exact IH].
Qed.

Lemma fleet_run_cons f x tr :
  fleet_run f (x :: tr)
  = match fleet_step f x with
    | Some f' => fleet_run f' tr
    | None => None
    end.
Proof.
  unfold fleet_run. cbn [foldl]. destruct (fleet_step f x) as [f'|]; [reflexivity|].
  induction tr as [|y tr IH]; [reflexivity | exact IH].
Qed.

(** A run of the fleet is, on each runner, a run of that runner. *)
Lemma fleet_step_on f x f' name :
  fleet_step f x = Some f' ->
  match f !! name with
  | None => f' !! name = None
  | Some c => exists c', f' !! name = Some c' /\ run c (events_on name [x]) = Some c'
  end.
Proof.
  unfold fleet_step, events_on. cbn [omap list_omap].
  destruct (f !! (fleet_target x).1) as [c0|] eqn:E0; [|discriminate].
  destruct (step c0 (fleet_target x).2) as [c0'|] eqn:Es; [|discriminate].
  intros [= <-]. destruct (decide ((fleet_target x).1 = name)) as [Hn|Hn].
  - rewrite (bool_decide_eq_true_2 _ Hn). subst name.
    rewrite E0, lookup_insert_eq. exists c0'. split; [reflexivity|].
    rewrite run_cons, Es. reflexivity.
  - rewrite (bool_decide_eq_false_2 _ Hn). rewrite lookup_insert_ne by exact Hn.
    destruct (f !! name) as [c|]; [|reflexivity]. exists c. split; reflexivity.
Qed.

Lemma run_app c evs1 evs2 :
  run c (evs1 ++ evs2)
  = match run c evs1 with
    | Some c' => run c' evs2
    | None => None
    end.
Proof.
  revert c. induction evs1 as [|ev evs1 IH]; intros c; [reflexivity|].
  rewrite <- app_comm_cons, !run_cons. destruct (step c ev); [apply IH | reflexivity].
Qed.

Lemma fleet_run_on f tr f' name :
  fleet_run f tr = Some f' ->
  match f !! name with
  | None => f' !! name = None
  | Some c => exists c', f' !! name = Some c' /\ run c (events_on name tr) = Some c'
  end.
Proof.
  revert f. induction tr as [|x tr IH]; intros f Hrun.
  - injection Hrun as <-. destruct (f !! name) as [c|]; [|reflexivity].
    exists c. split; reflexivity.
  - rewrite fleet_run_cons in Hrun.
    destruct (fleet_step f x) as [f1|] eqn:Es; [|discriminate].
    pose proof (fleet_step_on f x f1 name Es) as H1.
    pose proof (IH f1 Hrun) as H2.
    destruct (f !! name) as [c|].
    + destruct H1 as (c1 & E1 & R1). rewrite E1 in H2. destruct H2 as (c' & E' & R').
      exists c'. split; [exact E'|].
      change (x :: tr) with ([x] ++ tr). unfold events_on. rewrite omap_app.
      fold (events_on name [x]). fold (events_on name tr).
      rewrite run_app, R1. exact R'.
    + rewrite H1 in H2. exact H2.
Qed.

Lemma events_on_StopAll_range name tr :
  name ∈ StopAll_range tr -> EvStop ∈ events_on name tr.
Proof.
  unfold StopAll_range, events_on. intros Hin.
  apply list_elem_of_omap in Hin as (x & Hx & Hname).
  apply list_elem_of_omap. exists x. split; [exact Hx|].
  destruct x as [n|n ev]; [|discriminate]. injection Hname as ->.
  cbn [fleet_target fst snd]. rewrite bool_decide_eq_true_2 by reflexivity. reflexivity.
Qed.

Lemma quiet_insert c i ph r :
  quiet c -> ~ in_flight ph -> quiet (set_call i ph c r).
Proof.
  intros Hq Hph j ph' Hj. unfold set_call in Hj. cbn [calls] in Hj.
  destruct (decide (j = i)) as [->|Hne].
  - destruct (decide (i < length (calls c))%nat) as [Hlt|Hge].
    + rewrite list_lookup_insert_eq in Hj by exact Hlt. injection Hj as <-. exact Hph.
    + rewrite list_insert_ge in Hj by lia. eapply Hq; exact Hj.
  - rewrite list_lookup_insert_ne in Hj by congruence. eapply Hq; exact Hj.
Qed.

Lemma quiet_not_in_flight c i ph :
  quiet c -> calls c !! i = Some ph -> in_flight ph -> False.
Proof. intros Hq Hi Hph. exact (Hq i ph Hi Hph). Qed.

Lemma kept_refl c : quiet c -> kept c c.
Proof. intros Hq. split; auto. Qed.

Lemma kept_trans c1 c2 c3 : kept c1 c2 -> kept c2 c3 -> kept c1 c3.
Proof.
  intros [Q1 M1 P1 S1 N1] [Q2 M2 P2 S2 N2]. split.
  - exact Q2.
  - congruence.
  - congruence.
  - auto.
  - intros H. destruct (N1 H) as [H1 E1]. destruct (N2 H1) as [H2 E2].
    split; [exact H2 | congruence].
Qed.

Lemma calm_step c ev c' :
  quiet c -> calm ev -> step c ev = Some c' ->
  kept c c' /\ (ev = EvStop -> stopped c').
Proof.
  intros Hq Hcalm Hstep.
  destruct ev as [|i cause|i cause|i cf|i out|i failure|i|i| |werr| |failure];
    cbn [step] in Hstep; try contradiction.
  - destruct (calls c !! i) as [[| | | | |]|] eqn:Hi; try discriminate.
    destruct (quiet_not_in_flight c i _ Hq Hi I).
  - destruct (calls c !! i) as [[| | | | |]|] eqn:Hi; try discriminate.
    destruct (quiet_not_in_flight c i _ Hq Hi I).
  - destruct (calls c !! i) as [[| | | | |]|] eqn:Hi; try discriminate.
    destruct (quiet_not_in_flight c i _ Hq Hi I).
  - destruct (calls c !! i) as [[| | | | |]|] eqn:Hi; try discriminate.
    destruct (quiet_not_in_flight c i _ Hq Hi I).
  - destruct (calls c !! i) as [[| | | | |]|] eqn:Hi; try discriminate.
    destruct (quiet_not_in_flight c i _ Hq Hi I).
  - destruct (calls c !! i) as [[| | | | |]|] eqn:Hi; try discriminate.
    destruct (quiet_not_in_flight c i _ Hq Hi I).
  - destruct (calls c !! i) as [[| | | | |]|] eqn:Hi; try discriminate.
    injection Hstep as <-. split; [|discriminate].
    split; [apply quiet_insert; [exact Hq | exact (fun H => H)]
           | reflexivity | reflexivity | exact (fun H => H)
           | intros Hn; split; [exact Hn | reflexivity]].
  - injection Hstep as <-. split.
    + split; [exact Hq | reflexivity | reflexivity | intros _; repeat split
             | intros _; split; [discriminate | reflexivity]].
    + intros _. repeat split.
  - destruct (monitors c) as [|n]; [discriminate|].
    destruct (monitor_locked werr (runner c)) as [r|] eqn:Hm; [|discriminate].
    injection Hstep as <-. split; [|discriminate].
    unfold monitor_locked in Hm.
    assert (Hr : Runner.manifest r = Runner.manifest (runner c)
                 /\ Runner.port r = Runner.port (runner c)
                 /\ Runner.client r = Runner.client (runner c)
                 /\ Runner.cancel r = Runner.cancel (runner c)
                 /\ (Runner.state (runner c) <> StateRunning ->
                     Runner.state r = Runner.state (runner c)
                     /\ Runner.err r = Runner.err (runner c))).
    { destruct (Runner.done (runner c)) as [[|]|]; try discriminate;
        destruct (decide (Runner.state (runner c) = StateRunning)) as [Hs|Hs];
        rewrite ?(bool_decide_eq_true_2 _ Hs), ?(bool_decide_eq_false_2 _ Hs) in Hm;
        injection Hm as <-; repeat split; try reflexivity; contradiction. }
    destruct Hr as (Hm1 & Hm2 & Hm3 & Hm4 & Hm5).
    split; cbn [runner calls]; [exact Hq | exact Hm1 | exact Hm2 | |].
    + intros (Hst & Hcl & Hcf).
      assert (Hn : Runner.state (runner c) <> StateRunning) by (rewrite Hst; discriminate).
      destruct (Hm5 Hn) as [E1 _]. repeat split; cbn [runner]; congruence.
    + intros Hn. destruct (Hm5 Hn) as [E1 E2]. split; [congruence | exact E2].
  - destruct (bool_decide (Runner.state (runner c) = StateRunning));
      injection Hstep as <-; (split; [|discriminate]);
      (split; [exact Hq | reflexivity | reflexivity | exact (fun H => H)
              | intros Hn; split; [exact Hn | reflexivity]]).
  - destruct (probes c) as [|n]; [discriminate|]. destruct failure as [e|]; [contradiction|].
    injection Hstep as <-. split; [|discriminate].
    split; [exact Hq | reflexivity | reflexivity | exact (fun H => H)
           | intros Hn; split; [exact Hn | reflexivity]].
Qed.

Lemma calm_run c evs c' :
  quiet c -> Forall calm evs -> run c evs = Some c' ->
  kept c c' /\ (EvStop ∈ evs -> stopped c').
Proof.
  revert c. induction evs as [|ev evs IH]; intros c Hq Hcalm Hrun.
  - injection Hrun as <-. split; [apply kept_refl; exact Hq|]. intros H. inversion H.
  - rewrite run_cons in Hrun. destruct (step c ev) as [c1|] eqn:Hstep; [|discriminate].
    apply Forall_cons in Hcalm as [Hev Hevs].
    destruct (calm_step c ev c1 Hq Hev Hstep) as [K1 S1].
    destruct (IH c1 (kept_quiet _ _ K1) Hevs Hrun) as [K2 S2].
    split; [exact (kept_trans _ _ _ K1 K2)|].
    intros Hin. apply elem_of_cons in Hin as [Heq | Hin].
    + apply (kept_stopped _ _ K2). apply S1. symmetry. exact Heq.
    + exact (S2 Hin).
Qed.

Lemma StopAll_Some f tr f' :
  StopAll f tr = Some f' ->
  StopAll_range tr ≡ₚ (map_to_list f).*1 /\ fleet_run f tr = Some f'.
Proof. unfold StopAll. destruct (decide _) as [Hp|]; [auto | discriminate]. Qed.

(** X11.  [StopAll] among the other goroutines.  Whatever happens meanwhile,
    [StopAll] keeps the set of names.  A runner on which no call of [Start] is
    on its way to Running when [StopAll] begins, and on which, until [StopAll]
    returns, no caller enters [Start] and no health probe fails, is Stopped
    with no client and no cancel function when [StopAll] returns, whatever the
    order of the loop and whatever its monitor and the probes do in between:
    its status reads "stopped" with the name, the skills and the port it had,
    its error is the one it had unless it was Running, and a task routed to it
    is refused with the not-running error.  The conditions are needed: a
    runner that [StopAll] stops while its [Start] waits for the port is Failed
    when [StopAll] returns. *)
Theorem StopAll_stops_quiet_runners :
  (forall (reg : Registry.t) (f f' : gmap string Config) (tr : list FleetEvent),
     StopAll f tr = Some f' ->
     (forall name, f' !! name = None <-> f !! name = None)
     /\ forall (name : string) (c : Config) (call : error + ExecuteStream),
          f !! name = Some c ->
          quiet c ->
          Forall calm (events_on name tr) ->
          exists c',
            f' !! name = Some c'
            /\ Runner.state (runner c') = StateStopped
            /\ Runner.client (runner c') = None
            /\ Runner.cancel (runner c') = None
            /\ (Runner.state (runner c) <> StateRunning ->
                Runner.err (runner c') = Runner.err (runner c))
            /\ Manager_AgentStatus (manager_of reg f') name
               = (AgentStatus.mk (AgentStatus.Name (Status (runner c))) "stopped"
                    (AgentStatus.Skills (Status (runner c)))
                    (AgentStatus.Port (Status (runner c)))
                    (AgentStatus.Error (Status (runner c'))), true)
            /\ (RouteTask (manager_of reg f') name call).1
               = Ok ([], Some (errorString
                                 ("agent " +:+ Manifest.Name (Runner.manifest (runner c))
                                  +:+ " is not running (state: stopped)"))))
  /\ (exists f' c',
        StopAll starting_fleet StopAll_while_starting = Some f'
        /\ f' !! "s1" = Some c'
        /\ Runner.state (runner c') = StateFailed
        /\ Runner.err (runner c')
           = Some (errorString "agent exited without printing AGENT_PORT")).
Proof.
  split.
  - intros reg f f' tr Hstop. apply StopAll_Some in Hstop as [Hperm Hrun].
    split.
    + intros name. pose proof (fleet_run_on f tr f' name Hrun) as H.
      destruct (f !! name) as [c|].
      * destruct H as (c' & E & _). rewrite E. split; discriminate.
      * rewrite H. split; reflexivity.
    + intros name c call Hc Hq Hcalm.
      pose proof (fleet_run_on f tr f' name Hrun) as H. rewrite Hc in H.
      destruct H as (c' & E & R).
      assert (Hin : EvStop ∈ events_on name tr).
      { apply events_on_StopAll_range. rewrite Hperm.
        apply list_elem_of_fmap. exists (name, c). split; [reflexivity|].
        apply elem_of_map_to_list. exact Hc. }
      destruct (calm_run c _ c' Hq Hcalm R) as [K S].
      destruct (S Hin) as (Hst & Hcl & Hcf).
      exists c'. split; [exact E|]. split; [exact Hst|]. split; [exact Hcl|].
      split; [exact Hcf|].
      assert (Hl : Manager.runners (manager_of reg f') !! name = Some (runner c'))
        by (unfold manager_of; cbn [Manager.runners]; rewrite lookup_fmap, E; reflexivity).
      split; [intros Hn; exact (proj2 (kept_not_running _ _ K Hn))|]. split.
      * unfold Manager_AgentStatus. rewrite Hl. unfold Status. cbn [AgentStatus.Name
          AgentStatus.Skills AgentStatus.Port AgentStatus.Error].
        rewrite Hst, (kept_manifest _ _ K), (kept_port _ _ K). reflexivity.
      * rewrite RouteTask_result, Hl, Execute_Stopped by exact Hst.
        rewrite (kept_manifest _ _ K). reflexivity.
  - eexists _, _. split; [vm_compute; reflexivity|]. split; [vm_compute; reflexivity|].
    split; reflexivity.
Qed.

Lemma StopAll_stops_quiet_runners_witness :
  exists f' c',
    StopAll running_fleet StopAll_running = Some f'
    /\ f' !! "s1" = Some c'
    /\ Runner.state (runner c') = StateStopped
    /\ Runner.client (runner c') = None
    /\ Runner.cancel (runner c') = None
    /\ Manager_AgentStatus (manager_of (Registry.mk [] ∅ ".") f') "s1"
       = (AgentStatus.mk "s1" "stopped" ["echo"] 45001
            (AgentStatus.Error (Status (runner c'))), true)
    /\ (RouteTask (manager_of (Registry.mk [] ∅ ".") f') "s1"
          (inl (errorString "connection refused"))).1
       = Ok ([], Some (errorString "agent s1 is not running (state: stopped)")).
Proof.
  assert (E : exists f', StopAll running_fleet StopAll_running = Some f')
    by (eexists; vm_compute; reflexivity).
  destruct E as [f' E]. exists f'.
  destruct (proj1 StopAll_stops_quiet_runners (Registry.mk [] ∅ ".") _ _ _ E) as [_ H].
  assert (Hq : quiet running_s1).
  { intros i ph Hi. destruct i as [|i]; [injection Hi as <-; exact (fun H => H)|].
    destruct i; discriminate Hi. }
  assert (Hc : Forall calm (events_on "s1" StopAll_running))
    by (vm_compute; repeat constructor).
  destruct (H "s1" running_s1 (inl (errorString "connection refused")) eq_refl Hq Hc)
    as (c' & H1 & H2 & H3 & H4 & _ & H6 & H7).
  exists c'. split; [exact E|]. split; [exact H1|]. split; [exact H2|].
  split; [exact H3|]. split; [exact H4|]. split; [exact H6 | exact H7].
Defined.

(** ** The health loop *)

Lemma check_runner_not_Running r probe :
  Runner.state r <> StateRunning -> check_runner r probe = r.
Proof.
  intros Hs. unfold check_runner. rewrite (bool_decide_eq_false_2 _ Hs). reflexivity.
Qed.

Lemma check_runner_Running r probe cl :
  Runner.state r = StateRunning -> Runner.client r = Some cl ->
  check_runner r probe
  = match probe with
    | inl e => setFailed e r
    | inr _ => r
    end.
Proof.
  intros Hs Hc. unfold check_runner, Health. cbv zeta. rewrite Hs, Hc.
  destruct probe; reflexivity.
Qed.

Lemma check_runner_cases r probe :
  check_runner r probe = r \/ exists e, check_runner r probe = setFailed e r.
Proof.
  unfold check_runner.
  destruct (negb (bool_decide (Runner.state r = StateRunning))); [left; reflexivity|].
  pose proof (Health_frame r probe) as Hf.
  destruct (Health r probe) as [[resp [e|]] r']; simpl in Hf; subst r'.
  - right. exists e. reflexivity.
  - left. reflexivity.
Qed.

(** X12.  One round of the health loop.  It keeps the set of names and, in
    every runner, the manifest, the port and the client.  A runner that is not
    Running is left exactly as it was, whatever its agent would answer; a
    Running runner whose probe succeeds is left as it was; a Running runner
    whose probe fails becomes Failed with the probe's error.  No runner
    becomes Running by a health check. *)
Theorem checkAll_marks_failed_probes :
  forall (mgr : Manager.t) (probe : string -> error + HealthResponse.t) (name : string),
    Manager.registry (checkAll mgr probe) = Manager.registry mgr
    /\ match Manager.runners mgr !! name with
       | None => Manager.runners (checkAll mgr probe) !! name = None
       | Some r =>
           exists r',
             Manager.runners (checkAll mgr probe) !! name = Some r'
             /\ Runner.manifest r' = Runner.manifest r
             /\ Runner.port r' = Runner.port r
             /\ Runner.client r' = Runner.client r
             /\ (Runner.state r <> StateRunning -> r' = r)
             /\ (Runner.state r = StateRunning -> is_Some (Runner.client r) ->
                 match probe name with
                 | inl e => r' = setFailed e r
                 | inr _ => r' = r
                 end)
             /\ (Runner.state r' = StateRunning -> r' = r)
       end.
Proof.
  intros mgr probe name. split; [reflexivity|].
  assert (Hl : Manager.runners (checkAll mgr probe) !! name
               = (fun r => check_runner r (probe name)) <$> Manager.runners mgr !! name).
  { unfold checkAll. simpl. rewrite map_lookup_imap.
    destruct (Manager.runners mgr !! name); reflexivity. }
  destruct (Manager.runners mgr !! name) as [r|]; [|exact Hl].
  exists (check_runner r (probe name)). split; [exact Hl|].
  destruct (check_runner_cases r (probe name)) as [Heq | [e Heq]].
  - rewrite Heq. repeat split; auto.
    intros Hs [cl Hc]. rewrite (check_runner_Running r _ cl Hs Hc) in Heq.
    destruct (probe name); [symmetry; exact Heq | reflexivity].
  - split; [rewrite Heq; reflexivity|]. split; [rewrite Heq; reflexivity|].
    split; [rewrite Heq; reflexivity|]. split; [|split].
    + intros Hs. apply check_runner_not_Running. exact Hs.
    + intros Hs [cl Hc]. rewrite (check_runner_Running r _ cl Hs Hc).
      destruct (probe name); reflexivity.
    + rewrite Heq. discriminate.
Qed.

(** ** The handshake line *)

Lemma string_of_uint_decimal d : NilEmpty.string_of_uint d = decimal (uint_digits d).
Proof.
  induction d as [|d IH|d IH|d IH|d IH|d IH|d IH|d IH|d IH|d IH|d IH];
    [reflexivity|..]; cbn [NilEmpty.string_of_uint uint_digits]; rewrite IH; reflexivity.
Qed.

Lemma uint_digits_range d : Forall (fun x => 0 <= x <= 9) (uint_digits d).
Proof.
  induction d as [|d IH|d IH|d IH|d IH|d IH|d IH|d IH|d IH|d IH|d IH];
    [constructor|..]; cbn [uint_digits]; (constructor; [lia | exact IH]).
Qed.

Lemma uint_digits_of_uint_acc d acc :
  foldl (fun a x => 10 * a + x) (Z.pos acc) (uint_digits d) = Z.pos (Pos.of_uint_acc d acc).
Proof.
  revert acc.
  induction d as [|d IH|d IH|d IH|d IH|d IH|d IH|d IH|d IH|d IH|d IH]; intros acc;
    [reflexivity|..]; cbn [uint_digits foldl Pos.of_uint_acc]; rewrite <- IH; f_equal; lia.
Qed.

Lemma uint_digits_of_uint d : decimal_value (uint_digits d) = Z.of_N (Pos.of_uint d).
Proof.
  unfold decimal_value.
  induction d as [|d IH|d IH|d IH|d IH|d IH|d IH|d IH|d IH|d IH|d IH];
    [reflexivity | exact IH | ..]; cbn [uint_digits foldl Pos.of_uint];
    apply (uint_digits_of_uint_acc d).
Qed.

(** The text [%d] prints for an [int]: a minus sign for a negative number,
    then its decimal digits. *)
Lemma itoa_decimal p :
  exists sign ds,
    sign ∈ [EmptyString; "+"; "-"] /\ ds <> []
    /\ Forall (fun x => 0 <= x <= 9) ds
    /\ itoa p = sign +:+ decimal ds
    /\ signed sign (decimal_value ds) = p.
Proof.
  assert (Hpos : forall q,
    NilZero.string_of_uint (Pos.to_uint q) = decimal (uint_digits (Pos.to_uint q))
    /\ uint_digits (Pos.to_uint q) <> []
    /\ decimal_value (uint_digits (Pos.to_uint q)) = Z.pos q).
  { intros q. pose proof (DecimalPos.Unsigned.to_uint_nonnil q) as Hnil.
    pose proof (DecimalPos.Unsigned.of_to q) as Hof.
    rewrite uint_digits_of_uint, Hof. split; [|split; [|reflexivity]].
    - rewrite <- string_of_uint_decimal. destruct (Pos.to_uint q); [destruct Hnil|..]; reflexivity.
    - destruct (Pos.to_uint q); [destruct Hnil; reflexivity|..]; discriminate. }
  unfold itoa. destruct p as [|q|q].
  - exists "", [0]. split; [left|]. split; [discriminate|].
    split; [repeat constructor; lia|]. split; reflexivity.
  - destruct (Hpos q) as (Hs & Hne & Hv).
    exists "", (uint_digits (Pos.to_uint q)). split; [left|]. split; [exact Hne|].
    split; [apply uint_digits_range|]. split; [exact Hs|].
    unfold signed. simpl String.eqb. cbv iota. exact Hv.
  - destruct (Hpos q) as (Hs & Hne & Hv).
    exists "-", (uint_digits (Pos.to_uint q)). split; [right; right; left|]. split; [exact Hne|].
    split; [apply uint_digits_range|]. split.
    + change (String "-" (NilZero.string_of_uint (Pos.to_uint q))
              = String "-" (decimal (uint_digits (Pos.to_uint q)))).
      rewrite Hs. reflexivity.
    + unfold signed. simpl String.eqb. cbv iota. rewrite Hv. reflexivity.
Qed.

Lemma announces_itoa p rest :
  MinInt <= p <= MaxInt -> no_digit_head rest ->
  announces ("AGENT_PORT=" +:+ itoa p +:+ rest) p.
Proof.
  intros Hp Hrest. destruct (itoa_decimal p) as (sign & ds & Hsign & Hne & Hds & Hi & Hv).
  rewrite Hi, append_assoc.
  pose proof (announces_intro [] sign ds rest) as H. simpl blank_text in H.
  rewrite append_empty_l, Hv in H. apply H; auto.
Qed.

(** *** The carriage return at the end of a line *)

Lemma dropCR_app s1 c s2 : dropCR (s1 +:+ String c s2) = s1 +:+ dropCR (String c s2).
Proof.
  induction s1 as [|a s1 IH]; [reflexivity|].
  rewrite !append_String.
  destruct (s1 +:+ String c s2) as [|b r] eqn:E; [destruct s1; discriminate E|].
  change (dropCR (String a (String b r))) with (String a (dropCR (String b r))).
  rewrite <- IH. reflexivity.
Qed.

Lemma decimal_last ds :
  ds <> [] -> Forall (fun x => 0 <= x <= 9) ds ->
  exists front d, 0 <= d <= 9 /\ decimal ds = front +:+ String (digit_char d) EmptyString.
Proof.
  intros Hne Hds. induction Hds as [|d ds Hd Hds IH]; [destruct Hne; reflexivity|].
  destruct ds as [|d' ds].
  - exists "", d. split; [exact Hd | reflexivity].
  - destruct (IH ltac:(discriminate)) as (front & d0 & Hd0 & Heq).
    exists (String (digit_char d) front), d0. split; [exact Hd0|].
    change (decimal (d :: d' :: ds)) with (String (digit_char d) (decimal (d' :: ds))).
    rewrite Heq. reflexivity.
Qed.

Lemma no_digit_head_dropCR rest : no_digit_head rest -> no_digit_head (dropCR rest).
Proof.
  destruct rest as [|c rest]; [auto|]. intros H. cbn [dropCR].
  destruct rest; [destruct (Ascii.eqb c (ascii_of_nat 13)); [exact I | exact H] | exact H].
Qed.

(** Dropping the carriage return leaves a line that announces a port
    announcing the same port. *)
Lemma announces_dropCR line port : announces line port -> announces (dropCR line) port.
Proof.
  intros [blanks sign ds rest H1 H2 H3 H4 H5 H6].
  assert (Hgoal : dropCR ("AGENT_PORT=" +:+ blank_text blanks +:+ sign +:+ decimal ds +:+ rest)
                  = "AGENT_PORT=" +:+ blank_text blanks +:+ sign +:+ decimal ds +:+ dropCR rest).
  { destruct rest as [|c rest].
    - destruct (decimal_last ds H3 H4) as (front & d & Hd & Heq).
      change (dropCR "") with "". rewrite !append_empty_r, Heq.
      rewrite <- !append_assoc, dropCR_app. cbn [dropCR].
      replace (Ascii.eqb (digit_char d) (ascii_of_nat 13)) with false; [reflexivity|].
      symmetry. apply digit_char_not; [exact Hd | vm_compute; intros [H _]; apply H; reflexivity].
    - rewrite <- !append_assoc, dropCR_app. reflexivity. }
  rewrite Hgoal. constructor; auto. apply no_digit_head_dropCR. exact H5.
Qed.

Lemma scan_lines_ScannedPort ls closed t port :
  scan_lines ls closed = ScannedPort t port ->
  exists raw, (t, raw) ∈ ls /\ ~ too_long raw /\ line_port (dropCR raw) = Some port.
Proof.
  induction ls as [|[t0 raw0] ls IH]; intros H.
  - simpl in H. destruct closed; discriminate H.
  - rewrite scan_lines_step in H.
    destruct (Z.leb_spec MaxScanTokenSize (Z.of_nat (String.length raw0))) as [|Hlen];
      [discriminate H|].
    destruct (line_port (dropCR raw0)) as [p|] eqn:E.
    + inversion H; subst. exists raw0. split; [left|].
      split; [unfold too_long; lia | exact E].
    + destruct (IH H) as (raw & Hin & Hrest). exists raw. split; [right; exact Hin | exact Hrest].
Qed.

(** X13.  The scanner reads back what the agent prints.  A line that is
    [AGENT_PORT=] followed by the decimal text of an [int], negative ones
    included, and by anything that does not start with a digit, a carriage
    return for one, delivers that very number when the line is shorter than
    64 KiB, and ends the scan with nothing delivered when it is not.  A port
    the scanner delivers comes from a line shorter than 64 KiB that, its
    carriage return dropped, announces that port in the words of the
    handshake, so that it starts with [AGENT_PORT=], and the port fits an
    [int]. *)
Theorem scanner_reads_printed_port :
  (forall (t p : Z) (rest : string) (ls : list (Z * string)) (closed : option Z),
      MinInt <= p <= MaxInt ->
      no_digit_head rest ->
      scan_lines ((t, "AGENT_PORT=" +:+ itoa p +:+ rest) :: ls) closed
      = if bool_decide (too_long ("AGENT_PORT=" +:+ itoa p +:+ rest))
        then ScannedEOF t else ScannedPort t p)
  /\ (forall (ls : list (Z * string)) (closed : option Z) (t port : Z),
      scan_lines ls closed = ScannedPort t port ->
      MinInt <= port <= MaxInt
      /\ exists raw,
           (t, raw) ∈ ls /\ ~ too_long raw /\ announces (dropCR raw) port
           /\ exists rest, dropCR raw = "AGENT_PORT=" +:+ rest).
Proof.
  split.
  - intros t p rest ls closed Hp Hrest.
    destruct (bool_decide (too_long ("AGENT_PORT=" +:+ itoa p +:+ rest))) eqn:Hlen.
    + apply bool_decide_eq_true_1 in Hlen.
      apply (scan_lines_too_long [] t _ ls closed); [constructor | exact Hlen].
    + apply bool_decide_eq_false_1 in Hlen.
      apply (scan_lines_first [] t _ ls p closed); [constructor | exact Hlen |].
      apply announces_dropCR, announces_itoa; assumption.
  - intros ls closed t port H.
    destruct (scan_lines_ScannedPort ls closed t port H) as (raw & Hin & Hlen & Hl).
    apply line_port_announces in Hl.
    assert (Hshape : MinInt <= port <= MaxInt
                     /\ exists rest, dropCR raw = "AGENT_PORT=" +:+ rest).
    { inversion Hl as [blanks sign ds rest H1 H2 H3 H4 H5 H6 Heq Hport].
      split; [exact H6 | eexists; reflexivity]. }
    destruct Hshape as [Hrange Hprefix].
    split; [exact Hrange|]. exists raw. auto.
Qed.

Lemma scanner_reads_printed_port_witness :
  (MinInt <= -7 <= MaxInt
   /\ no_digit_head " (debug)"
   /\ scan_lines [(20, "AGENT_PORT=-7 (debug)"); (30, "AGENT_PORT=1")] None
      = ScannedPort 20 (-7))
  /\ (scan_lines (lines stdout_45001) (closed stdout_45001) = ScannedPort 20 45001
      /\ MinInt <= 45001 <= MaxInt
      /\ exists raw,
           (20, raw) ∈ lines stdout_45001 /\ ~ too_long raw /\ announces (dropCR raw) 45001
           /\ exists rest, dropCR raw = "AGENT_PORT=" +:+ rest).
Proof.
  destruct scanner_reads_printed_port as [Hprint Hread].
  split.
  - assert (Hp : MinInt <= -7 <= MaxInt) by (unfold MinInt, MaxInt; lia).
    assert (Hr : no_digit_head " (debug)") by (vm_compute; intros [H _]; apply H; reflexivity).
    split; [exact Hp|]. split; [exact Hr|].
    exact (Hprint 20 (-7) " (debug)" [(30, "AGENT_PORT=1")] None Hp Hr).
  - assert (Hs : scan_lines (lines stdout_45001) (closed stdout_45001) = ScannedPort 20 45001)
      by (vm_compute; reflexivity).
    split; [exact Hs|]. exact (Hread _ _ _ _ Hs).
Defined.

(** ** The life cycle over all schedules *)

Lemma in_flight_insert (l : list Phase) i j ph ph0 ph' :
  l !! i = Some ph -> in_flight ph ->
  l !! j = Some ph0 -> (in_flight ph0 -> in_flight ph') ->
  exists i' ph'', <[j:=ph']> l !! i' = Some ph'' /\ in_flight ph''.
Proof.
  intros Hi Hph Hj Hkeep. destruct (decide (i = j)) as [->|Hne].
  - exists j, ph'. split.
    + apply list_lookup_insert_eq. eapply lookup_lt_Some. exact Hj.
    + apply Hkeep. rewrite Hi in Hj. inversion Hj. subst ph0. exact Hph.
  - exists i, ph. split; [|exact Hph].
    rewrite list_lookup_insert_ne by (intros Heq; apply Hne; symmetry; exact Heq). exact Hi.
Qed.

Lemma lifecycle_fail_call m baseDir i e c :
  lifecycle m baseDir c -> lifecycle m baseDir (fail_call i e c).
Proof.
  intros [Hm Hb Hst Hf Hs]. split; simpl; auto; try discriminate;
    try (intros _; eexists; reflexivity).
Qed.

Lemma lifecycle_step m baseDir c ev c' :
  lifecycle m baseDir c -> step c ev = Some c' -> lifecycle m baseDir c'.
Proof.
  intros Hinv Hstep. pose proof Hinv as [Hm Hb Hst Hf Hs].
  destruct ev as [|i cause|i cause|i cancel|i out|i failure|i|i| |werr| |failure]; simpl in Hstep.
  - (* EvStart *)
    unfold Start_enter in Hstep.
    destruct (bool_decide (Runner.state (runner c) = StateRunning)
              || bool_decide (Runner.state (runner c) = StateStarting)) eqn:E;
      inversion Hstep; subst c'; clear Hstep; split; simpl; auto; try discriminate.
    + intros H. destruct (Hs H) as (i & ph & Hi & Hph). exists i, ph. split; [|exact Hph].
      apply lookup_app_l_Some. exact Hi.
    + intros _. exists (length (calls c)), PSpawn. split; [|exact I].
      rewrite lookup_app_r by lia. rewrite Nat.sub_diag. reflexivity.
  - destruct (calls c !! i) as [[| | | | |]|]; inversion Hstep; subst c'.
    apply lifecycle_fail_call. exact Hinv.
  - destruct (calls c !! i) as [[| | | | |]|]; inversion Hstep; subst c'.
    apply lifecycle_fail_call. exact Hinv.
  - (* EvSpawned *)
    destruct (calls c !! i) as [[| | | | |]|] eqn:Ei; inversion Hstep; subst c'; clear Hstep.
    split; simpl; auto.
    intros H. destruct (Hs H) as (i0 & ph & Hi & Hph).
    eapply in_flight_insert; [exact Hi | exact Hph | exact Ei | intros _; exact I].
  - (* EvHandshake *)
    destruct (calls c !! i) as [[| | | | |]|] eqn:Ei; try discriminate Hstep.
    destruct (select_handshake out) as [port|e|]; inversion Hstep; subst c'; clear Hstep.
    + split; simpl; auto.
      intros H. destruct (Hs H) as (i0 & ph & Hi & Hph).
      eapply in_flight_insert; [exact Hi | exact Hph | exact Ei | intros _; exact I].
    + apply lifecycle_fail_call. exact Hinv.
    + apply lifecycle_fail_call. exact Hinv.
  - (* EvDial *)
    destruct (calls c !! i) as [[| | | | |]|] eqn:Ei; try discriminate Hstep.
    destruct failure as [cause|]; inversion Hstep; subst c'; clear Hstep.
    + apply lifecycle_fail_call. exact Hinv.
    + split; simpl; auto.
      intros H. destruct (Hs H) as (i0 & ph & Hi & Hph).
      eapply in_flight_insert; [exact Hi | exact Hph | exact Ei | intros _; exact I].
  - (* EvConnected *)
    destruct (calls c !! i) as [[| | |cl| |]|] eqn:Ei; inversion Hstep; subst c'; clear Hstep.
    split; simpl; auto; discriminate.
  - (* EvReturn *)
    destruct (calls c !! i) as [[| | | | |]|] eqn:Ei; inversion Hstep; subst c'; clear Hstep.
    split; simpl; auto.
    intros H. destruct (Hs H) as (i0 & ph & Hi & Hph).
    eapply in_flight_insert; [exact Hi | exact Hph | exact Ei | intros []].
  - (* EvStop *)
    inversion Hstep; subst c'; clear Hstep. split; simpl; auto; discriminate.
  - (* EvExit *)
    destruct (monitors c) as [|n]; [discriminate Hstep|].
    unfold monitor_locked in Hstep.
    destruct (Runner.done (runner c)) as [[|]|]; try discriminate Hstep;
      destruct (bool_decide (Runner.state (runner c) = StateRunning)) eqn:E;
      inversion Hstep; subst c'; clear Hstep; split; simpl; auto; try discriminate;
      try (intros _; eexists; reflexivity).
  - (* EvProbe *)
    destruct (bool_decide (Runner.state (runner c) = StateRunning));
      inversion Hstep; subst c'; clear Hstep; split; simpl; auto.
  - (* EvProbeResult *)
    destruct (probes c) as [|n]; [discriminate Hstep|].
    inversion Hstep; subst c'; clear Hstep.
    destruct failure as [e|]; split; simpl; auto; try discriminate;
      try (intros _; eexists; reflexivity).
Qed.

Lemma lifecycle_init m baseDir : lifecycle m baseDir (init m baseDir).
Proof. split; simpl; auto; discriminate. Qed.

Lemma lifecycle_run m baseDir evs c :
  run (init m baseDir) evs = Some c -> lifecycle m baseDir c.
Proof.
  revert c. induction evs as [|ev evs IH] using rev_ind; intros c Hrun.
  - inversion Hrun. apply lifecycle_init.
  - rewrite run_snoc in Hrun.
    destruct (run (init m baseDir) evs) as [c0|]; [|discriminate Hrun].
    eapply lifecycle_step; [apply IH; reflexivity | exact Hrun].
Qed.

(** X14.  What no interleaving of [Start], [Stop], process exits and health
    probes can break.  The runner keeps the manifest and the base directory it
    was made with, so its status always shows the manifest's name and skills.
    A Stopped runner has no client; a Failed runner has an error; and while
    the runner is Starting some call of [Start] is still on its way, so the
    state is never left at Starting with nobody to move it on. *)
Theorem runner_lifecycle_invariants :
  forall (m : Manifest.t) (baseDir : string) (evs : list Event) (c : Config),
    run (init m baseDir) evs = Some c ->
    Runner.manifest (runner c) = m
    /\ Runner.baseDir (runner c) = baseDir
    /\ AgentStatus.Name (Status (runner c)) = Manifest.Name m
    /\ AgentStatus.Skills (Status (runner c)) = Manifest.Skills m
    /\ (Runner.state (runner c) = StateStopped -> Runner.client (runner c) = None)
    /\ (Runner.state (runner c) = StateFailed -> is_Some (Runner.err (runner c)))
    /\ (Runner.state (runner c) = StateStarting ->
        exists i ph, calls c !! i = Some ph /\ in_flight ph).
Proof.
  intros m baseDir evs c Hrun. destruct (lifecycle_run m baseDir evs c Hrun) as [Hm Hb Hst Hf Hs].
  unfold Status. simpl. rewrite Hm. repeat split; auto.
Qed.

Lemma runner_lifecycle_invariants_witness :
  exists c,
    run (init s1_manifest ".") stop_while_starting_schedule = Some c
    /\ Runner.state (runner c) = StateFailed
    /\ Runner.manifest (runner c) = s1_manifest
    /\ AgentStatus.Name (Status (runner c)) = "s1"
    /\ is_Some (Runner.err (runner c)).
Proof.
  eexists. split; [vm_compute; reflexivity|].
  split; [reflexivity|].
  destruct (runner_lifecycle_invariants s1_manifest "." stop_while_starting_schedule _
              eq_refl) as (Hm & _ & Hn & _ & _ & Hf & _).
  split; [exact Hm|]. split; [exact Hn|]. apply Hf. reflexivity.
Defined.

(** ** Races between [Start] and the other methods *)



(** X16.  What a failed [Start] returns.  The call sets the error under the
    lock and reads [r.err] again for its return value after the lock is
    released.  When nothing comes between, it returns the error it has just
    set.  When another [Start] enters in between, that one clears the error,
    and the failed call returns no error at all. *)
Theorem failed_Start_return_value :
  forall (c : Config) (i : nat) (e : error),
    (i < length (calls c))%nat ->
    (exists c',
        step (fail_call i e c) (EvReturn i) = Some c'
        /\ calls c' !! i = Some (PReturned (Some e))
        /\ Runner.state (runner c') = StateFailed
        /\ Runner.err (runner c') = Some e)
    /\ (exists c',
        run (fail_call i e c) [EvStart; EvReturn i] = Some c'
        /\ calls c' !! i = Some (PReturned None)
        /\ Runner.state (runner c') = StateStarting
        /\ Runner.err (runner c') = None).
Proof.
  intros c i e Hlt. split.
  - eexists. cbn [step fail_call set_call runner calls monitors probes].
    rewrite list_lookup_insert_eq by exact Hlt.
    split; [reflexivity|]. cbn [set_call runner calls].
    split; [|split; reflexivity].
    apply list_lookup_insert_eq. unfold fail_call, set_call. simpl.
    rewrite ?length_insert. exact Hlt.
  - assert (Henter : Start_enter (setFailed e (runner c))
                     = (true,
                        Runner.mk (Runner.manifest (runner c)) (Runner.baseDir (runner c))
                          StateStarting (Runner.port (runner c)) (Runner.client (runner c))
                          (Runner.cancel (runner c)) (Some false) None)) by reflexivity.
    eexists. unfold run. cbn [foldl].
    cbn [step fail_call set_call runner calls monitors probes]. rewrite Henter.
    cbn [calls]. rewrite lookup_app_l by (rewrite length_insert; exact Hlt).
    rewrite list_lookup_insert_eq by exact Hlt.
    split; [reflexivity|]. cbn [set_call runner calls Runner.err Runner.state].
    split; [|split; reflexivity].
    apply list_lookup_insert_eq. rewrite ?length_app, ?length_insert. lia.
Qed.

Lemma failed_Start_return_value_witness :
  (exists c',
      step (fail_call 0 (errorString "timeout waiting for AGENT_PORT") waiting) (EvReturn 0)
      = Some c'
      /\ calls c' !! 0%nat
         = Some (PReturned (Some (errorString "timeout waiting for AGENT_PORT")))
      /\ Runner.state (runner c') = StateFailed
      /\ Runner.err (runner c') = Some (errorString "timeout waiting for AGENT_PORT"))
  /\ (exists c',
      run (fail_call 0 (errorString "timeout waiting for AGENT_PORT") waiting)
        [EvStart; EvReturn 0] = Some c'
      /\ calls c' !! 0%nat = Some (PReturned None)
      /\ Runner.state (runner c') = StateStarting
      /\ Runner.err (runner c') = None).
Proof.
  apply (failed_Start_return_value waiting 0 (errorString "timeout waiting for AGENT_PORT")).
  simpl. lia.
Defined.

(** X17.  Two children alive at once bring the exit monitors down.  Each
    monitor closes whatever channel [r.done] holds when its child exits.  With
    two monitors waiting and the channel open, the first exit closes it and
    the second exit closes the same channel again, which panics.  The schedule
    [restart_after_timeout_schedule] leads there: a child that never announces
    its port is not cancelled by the timeout, and the runner is started
    again. *)
Theorem second_exit_closes_done_twice :
  forall (c : Config) (w1 w2 : option error),
    Runner.done (runner c) = Some false ->
    (2 <= monitors c)%nat ->
    exists c1,
      step c (EvExit w1) = Some c1
      /\ (1 <= monitors c1)%nat
      /\ Runner.done (runner c1) = Some true
      /\ monitor_locked w2 (runner c1) = None.
Proof.
  intros c w1 w2 Hdone Hmon.
  destruct (monitors c) as [|n] eqn:En; [lia|].
  cbn [step]. rewrite En. unfold monitor_locked. rewrite Hdone.
  destruct (bool_decide (Runner.state (runner c) = StateRunning));
    eexists; (split; [reflexivity|]); cbn [monitors runner Runner.done];
    (split; [lia|]); split; reflexivity.
Qed.

Lemma second_exit_closes_done_twice_witness :
  exists c c1,
    run (init s1_manifest ".") restart_after_timeout_schedule = Some c
    /\ step c (EvExit None) = Some c1
    /\ (1 <= monitors c1)%nat
    /\ Runner.done (runner c1) = Some true
    /\ monitor_locked None (runner c1) = None.
Proof.
  eexists.
  destruct (second_exit_closes_done_twice
              {| runner := Runner.mk s1_manifest "." StateStarting 0 None (Some 2%nat)
                             (Some false) None;
                 calls := [PFailed; PHandshake]; monitors := 2; probes := 0 |}
              None None eq_refl (le_n 2)) as (c1 & H1 & H2 & H3 & H4).
  exists c1. split; [vm_compute; reflexivity|]. repeat split; assumption.
Defined.

(** ** The codec across message types *)

Lemma unmarshalTaskEvent_skips_entries range m :
  (forall kv, kv ∈ range -> len (entry_bytes kv) <= MaxInt) ->
  unmarshalTaskEvent (foldl appendEntry [] range) m = Ok m.
Proof.
  intros Hvalid. induction range as [|kv range IH].
  - reflexivity.
  - simpl foldl. rewrite foldl_appendEntry, appendEntry_eq, app_nil_l.
    assert (Hkv : len (entry_bytes kv) <= MaxInt) by (apply Hvalid; left).
    unfold unmarshalTaskEvent at 1. rewrite unmarshalTaskEvent_loop_eq.
    rewrite decode_fields_appendBytes;
      [| unfold MaxInt32; lia | pose proof MaxInt_lt; lia | lia].
    unfold TaskEvent_field. simpl bind.
    rewrite <- unmarshalTaskEvent_loop_eq. apply IH.
    intros kv' Hin. apply Hvalid. right. exact Hin.
Qed.

Lemma merge_TaskEvent_zero a : merge_TaskEvent TaskEvent.zero a = a.
Proof. destruct a. unfold merge_TaskEvent. simpl. rewrite !overwrite_empty. reflexivity. Qed.

(** X18.  The codec does not check what kind of message the bytes came from.
    The three strings of a task event and of a task request share the field
    numbers 1 to 3, so the bytes of an event decode as a request with the same
    three strings and no metadata, and the bytes of a request decode as an
    event, the metadata entries being passed over; the bytes of a health
    response decode as an event that holds its two strings.  An [Empty]
    accepts any bytes at all. *)
Theorem Codec_ignores_the_message_kind :
  (forall (e : TaskEvent.t) (range : list (string * string)),
      valid_TaskEvent e ->
      Codec_Unmarshal (Codec_Marshal range (MsgTaskEvent e)).1 (MsgTaskRequest TaskRequest.zero)
      = Ok (MsgTaskRequest (TaskRequest.mk (TaskEvent.TaskId e) (TaskEvent.Type_ e)
                              (TaskEvent.Payload e) None)))
  /\ (forall (m : TaskRequest.t) (range : list (string * string)),
      valid_TaskRequest m ->
      range ≡ₚ map_to_list (entries (TaskRequest.Metadata m)) ->
      Codec_Unmarshal (Codec_Marshal range (MsgTaskRequest m)).1 (MsgTaskEvent TaskEvent.zero)
      = Ok (MsgTaskEvent (TaskEvent.mk (TaskRequest.TaskId m) (TaskRequest.Skill m)
                            (TaskRequest.Input m))))
  /\ (forall (h : HealthResponse.t) (range : list (string * string)),
      valid_HealthResponse h ->
      Codec_Unmarshal (Codec_Marshal range (MsgHealthResponse h)).1 (MsgTaskEvent TaskEvent.zero)
      = Ok (MsgTaskEvent (TaskEvent.mk (HealthResponse.Status h)
                            (HealthResponse.AgentName h) "")))
  /\ (forall data : list byte, Codec_Unmarshal data MsgEmpty = Ok MsgEmpty).
Proof.
  split; [|split; [|split]].
  - intros e range (H1 & H2 & H3). simpl.
    change (marshalTaskEvent e)
      with (marshalTaskRequest []
              (TaskRequest.mk (TaskEvent.TaskId e) (TaskEvent.Type_ e) (TaskEvent.Payload e)
                 None)).
    rewrite unmarshalTaskRequest_marshalTaskRequest.
    + reflexivity.
    + repeat split; auto. simpl. intros k v Hk. rewrite lookup_empty in Hk. discriminate Hk.
    + simpl. rewrite map_to_list_empty. reflexivity.
  - intros m range (H1 & H2 & H3 & H4) Hperm. simpl.
    assert (Hvalid : forall kv, kv ∈ range -> len (entry_bytes kv) <= MaxInt).
    { intros [k v] Hin. apply H4. rewrite Hperm in Hin.
      apply elem_of_map_to_list in Hin. exact Hin. }
    assert (Hsplit : marshalTaskRequest range m
                     = marshalTaskEvent (TaskEvent.mk (TaskRequest.TaskId m)
                                           (TaskRequest.Skill m) (TaskRequest.Input m))
                       ++ foldl appendEntry [] range).
    { rewrite marshalTaskRequest_fields, marshalTaskEvent_fields, <- !app_assoc. reflexivity. }
    rewrite Hsplit, unmarshalTaskEvent_marshal_app by (repeat split; assumption).
    rewrite merge_TaskEvent_zero, unmarshalTaskEvent_skips_entries by exact Hvalid.
    reflexivity.
  - intros h range (H1 & H2). simpl.
    change (marshalHealthResponse h)
      with (marshalTaskEvent (TaskEvent.mk (HealthResponse.Status h)
                                (HealthResponse.AgentName h) "")).
    rewrite unmarshalTaskEvent_marshalTaskEvent; [reflexivity|].
    repeat split; auto. apply fits_short. simpl. lia.
  - reflexivity.
Qed.

(** ** The two status views of the manager *)

Lemma AllStatuses_fmap range : AllStatuses range = (fun kv => Status kv.2) <$> range.
Proof.
  unfold AllStatuses.
  assert (H : forall acc,
    foldl (fun statuses (kv : string * Runner.t) => statuses ++ [Status kv.2]) acc range
    = acc ++ ((fun kv => Status kv.2) <$> range)).
  { induction range as [|kv range IH]; intros acc; simpl.
    - rewrite app_nil_r. reflexivity.
    - rewrite IH, <- app_assoc. reflexivity. }
  apply (H []).
Qed.

(** X19.  [AllStatuses] and [AgentStatus] agree.  In whatever order the map
    of runners is visited, [AllStatuses] returns one status for each runner,
    and a status is in the list exactly when it is what [AgentStatus] returns
    for some known name. *)
Theorem AllStatuses_agrees_with_AgentStatus :
  forall (mgr : Manager.t) (range : list (string * Runner.t)),
    range ≡ₚ map_to_list (Manager.runners mgr) ->
    length (AllStatuses range) = size (Manager.runners mgr)
    /\ forall st : AgentStatus.t,
         st ∈ AllStatuses range <-> exists name, Manager_AgentStatus mgr name = (st, true).
Proof.
  intros mgr range Hperm. rewrite AllStatuses_fmap. split.
  - rewrite length_fmap, Hperm, length_map_to_list. reflexivity.
  - intros st. rewrite list_elem_of_fmap. split.
    + intros ([name r] & -> & Hin). rewrite Hperm in Hin.
      apply elem_of_map_to_list in Hin. exists name.
      unfold Manager_AgentStatus. rewrite Hin. reflexivity.
    + intros [name H]. unfold Manager_AgentStatus in H.
      destruct (Manager.runners mgr !! name) as [r|] eqn:E; [|discriminate H].
      inversion H. exists (name, r). split; [reflexivity|].
      rewrite Hperm. apply elem_of_map_to_list. exact E.
Qed.

Lemma AllStatuses_agrees_with_AgentStatus_witness :
  length (AllStatuses [("s1", NewRunner s1_manifest ".")])
  = size (Manager.runners
            (Manager.mk (Registry.mk [s1_manifest] ∅ ".")
               {["s1" := NewRunner s1_manifest "."]}))
  /\ forall st : AgentStatus.t,
       st ∈ AllStatuses [("s1", NewRunner s1_manifest ".")]
       <-> exists name,
             Manager_AgentStatus
               (Manager.mk (Registry.mk [s1_manifest] ∅ ".")
                  {["s1" := NewRunner s1_manifest "."]}) name = (st, true).
Proof.
  apply (AllStatuses_agrees_with_AgentStatus
           (Manager.mk (Registry.mk [s1_manifest] ∅ ".") {["s1" := NewRunner s1_manifest "."]})
           [("s1", NewRunner s1_manifest ".")]).
  simpl. rewrite map_to_list_singleton. reflexivity.
Defined.

(** ** The stderr writer *)

Lemma foldl_nonempty_lines acc lines :
  foldl (fun logged line => if negb (String.eqb line "") then logged ++ [line] else logged)
        acc lines
  = acc ++ filter (fun line => line <> "") lines.
Proof.
  revert acc. induction lines as [|line lines IH]; intros acc; simpl.
  - rewrite app_nil_r. reflexivity.
  - rewrite IH, filter_cons. destruct (String.eqb_spec line "") as [->|Hne]; simpl.
    + destruct (decide ("" <> "")) as [H|_]; [destruct H|]; reflexivity.
    + destruct (decide (line <> "")) as [_|H]; [|destruct H; exact Hne].
      rewrite <- app_assoc. reflexivity.
Qed.

Lemma logged_filter p :
  logged p = filter (fun line => line <> "") (Split_newline (TrimRight_newline p)).
Proof. unfold logged, logWriter_Write. simpl. apply foldl_nonempty_lines. Qed.

Lemma filter_nonempty_cons_empty lines :
  filter (fun line : string => line <> "") ("" :: lines)
  = filter (fun line => line <> "") lines.
Proof.
  rewrite filter_cons. destruct (decide ("" <> "")) as [H|_]; [destruct H|]; reflexivity.
Qed.

Lemma Split_newline_cons s : exists line lines, Split_newline s = line :: lines.
Proof.
  induction s as [|c s (line & lines & IH)]; simpl; [eauto|].
  destruct (Ascii.eqb c newline); [eauto|]. rewrite IH. eauto.
Qed.

Lemma Split_newline_app s1 s2 :
  Split_newline (s1 +:+ String newline s2) = Split_newline s1 ++ Split_newline s2.
Proof.
  induction s1 as [|c s1 IH].
  - rewrite append_empty_l. reflexivity.
  - rewrite append_String. simpl. rewrite IH.
    destruct (Ascii.eqb c newline); [reflexivity|].
    destruct (Split_newline_cons s1) as (line & lines & ->). reflexivity.
Qed.

Lemma TrimRight_newline_tail p :
  exists tail,
    p = TrimRight_newline p +:+ tail
    /\ (tail = ""
        \/ exists tail', tail = String newline tail'
                         /\ filter (fun line => line <> "") (Split_newline tail') = []).
Proof.
  induction p as [|c p (tail & Hp & Htail)].
  - exists "". split; [reflexivity | left; reflexivity].
  - simpl. destruct (TrimRight_newline p) as [|d t] eqn:Et.
    + rewrite append_empty_l in Hp. subst tail.
      destruct (Ascii.eqb c newline) eqn:Ec.
      * apply Ascii.eqb_eq in Ec. subst c. exists (String newline p).
        split; [reflexivity|]. right. exists p. split; [reflexivity|].
        destruct Htail as [-> | (tail' & -> & Hf)]; [reflexivity|].
        simpl. rewrite ?Ascii.eqb_refl, filter_nonempty_cons_empty. exact Hf.
      * exists p. split; [reflexivity | exact Htail].
    + exists tail. split; [|exact Htail].
      rewrite append_String. f_equal. exact Hp.
Qed.

Lemma Split_newline_no_newline s line :
  line ∈ Split_newline s -> ~ has_newline line.
Proof.
  revert line. induction s as [|c s IH]; intros line Hin.
  - apply list_elem_of_singleton in Hin. subst line. intros [].
  - simpl in Hin. destruct (Ascii.eqb c newline) eqn:Ec.
    + apply elem_of_cons in Hin as [-> | Hin]; [intros [] | apply IH; exact Hin].
    + destruct (Split_newline_cons s) as (l & ls & Hs). rewrite Hs in *.
      apply elem_of_cons in Hin as [-> | Hin].
      * intros [Hc | Hl].
        -- subst c. rewrite Ascii.eqb_refl in Ec. discriminate Ec.
        -- apply (IH l); [left | exact Hl].
      * apply IH. right. exact Hin.
Qed.

Lemma logged_Split p : logged p = filter (fun line => line <> "") (Split_newline p).
Proof.
  rewrite logged_filter. destruct (TrimRight_newline_tail p) as (tail & Hp & Htail).
  rewrite Hp at 2. destruct Htail as [-> | (tail' & -> & Hf)].
  - rewrite append_empty_r. reflexivity.
  - rewrite Split_newline_app, filter_app, Hf, app_nil_r. reflexivity.
Qed.

(** X20.  What the stderr writer logs.  [Write] always reports the whole
    chunk as written and no error.  It logs the non-empty lines of the chunk,
    in order: trimming the trailing newlines first changes nothing.  No logged
    line is empty or holds a newline.  A chunk cut at a newline logs the same
    lines as its two halves written one after the other. *)
Theorem logWriter_Write_lines :
  forall p : string,
    (logWriter_Write p).1.2 = Z.of_nat (String.length p)
    /\ (logWriter_Write p).2 = None
    /\ logged p = filter (fun line => line <> "") (Split_newline p)
    /\ (forall line, line ∈ logged p -> line <> "" /\ ~ has_newline line)
    /\ (forall p1 p2, p = p1 +:+ String newline p2 -> logged p = logged p1 ++ logged p2).
Proof.
  intros p. split; [reflexivity|]. split; [reflexivity|]. split; [apply logged_Split|].
  split.
  - intros line Hin. rewrite logged_Split in Hin. apply list_elem_of_filter in Hin.
    destruct Hin as [Hne Hin]. split; [exact Hne|].
    eapply Split_newline_no_newline. exact Hin.
  - intros p1 p2 ->. rewrite !logged_Split, Split_newline_app, filter_app. reflexivity.
Qed.

(** ** Calls of [Start] are serialised *)

Lemma serialised_none c' :
  (forall i ph, calls c' !! i = Some ph -> ~ in_flight ph) -> serialised c'.
Proof. intros H i ph Hi Hph. destruct (H i ph Hi Hph). Qed.

(** The call that was on its way has left: nobody is on the way. *)
Lemma serialised_leave c i ph0 ph' r :
  serialised c -> calls c !! i = Some ph0 -> in_flight ph0 -> ~ in_flight ph' ->
  serialised (set_call i ph' c r).
Proof.
  intros Hser Hi Hph0 Hph'. apply serialised_none. simpl. intros j ph Hj Hph.
  apply list_lookup_insert_Some in Hj. destruct Hj as [(-> & <- & _) | (Hne & Hj)].
  - exact (Hph' Hph).
  - destruct (Hser i ph0 Hi Hph0) as [_ Huniq]. apply Hne. symmetry.
    exact (Huniq j ph Hj Hph).
Qed.

(** The call on its way moves one step on; the state stays. *)
Lemma serialised_advance c i ph0 ph' r :
  serialised c -> calls c !! i = Some ph0 -> in_flight ph0 ->
  Runner.state r = Runner.state (runner c) ->
  serialised (set_call i ph' c r).
Proof.
  intros Hser Hi Hph0 Hstate. destruct (Hser i ph0 Hi Hph0) as [Hs Huniq].
  intros j ph Hj Hph. simpl in *. rewrite Hstate. split; [exact Hs|].
  assert (Hji : j = i).
  { apply list_lookup_insert_Some in Hj. destruct Hj as [(-> & _) | (_ & Hj)]; [reflexivity|].
    exact (Huniq j ph Hj Hph). }
  subst j. intros k ph'' Hk Hph''.
  apply list_lookup_insert_Some in Hk. destruct Hk as [(-> & _) | (_ & Hk)]; [reflexivity|].
  exact (Huniq k ph'' Hk Hph'').
Qed.

(** The calls stay and the state stays, or no call is on its way. *)
Lemma serialised_same_calls c c' :
  serialised c -> calls c' = calls c ->
  (Runner.state (runner c') = Runner.state (runner c)
   \/ Runner.state (runner c) <> StateStarting) ->
  serialised c'.
Proof.
  intros Hser Hcalls Hstate i ph Hi Hph. rewrite Hcalls in *.
  destruct (Hser i ph Hi Hph) as [Hs Huniq]. split; [|exact Huniq].
  destruct Hstate as [-> | Hne]; [exact Hs | destruct (Hne Hs)].
Qed.

Lemma serialised_step c ev c' :
  undisturbed ev -> serialised c -> step c ev = Some c' -> serialised c'.
Proof.
  intros Hev Hser Hstep.
  destruct ev as [|i cause|i cause|i cancel|i out|i failure|i|i| |werr| |failure]; simpl in Hstep.
  - (* EvStart *)
    unfold Start_enter in Hstep.
    destruct (bool_decide (Runner.state (runner c) = StateRunning)
              || bool_decide (Runner.state (runner c) = StateStarting)) eqn:E;
      inversion Hstep; subst c'; clear Hstep.
    + intros i ph Hi Hph. simpl in *. apply lookup_app_Some in Hi.
      destruct Hi as [Hi | (_ & Hi)].
      * destruct (Hser i ph Hi Hph) as [Hs Huniq]. split; [exact Hs|].
        intros j ph' Hj Hph'. apply lookup_app_Some in Hj.
        destruct Hj as [Hj | (_ & Hj)]; [exact (Huniq j ph' Hj Hph')|].
        apply list_lookup_singleton_Some in Hj. destruct Hj as (_ & <-). destruct Hph'.
      * apply list_lookup_singleton_Some in Hi. destruct Hi as (_ & <-). destruct Hph.
    + apply orb_false_iff in E as [_ E]. apply bool_decide_eq_false_1 in E.
      assert (Hnone : forall j ph', calls c !! j = Some ph' -> ~ in_flight ph').
      { intros j ph' Hj Hph'. destruct (Hser j ph' Hj Hph') as [Hs _]. exact (E Hs). }
      intros i ph Hi Hph. simpl in *. split; [reflexivity|].
      apply lookup_app_Some in Hi. destruct Hi as [Hi | (Hge & Hi)];
        [destruct (Hnone i ph Hi Hph)|].
      apply list_lookup_singleton_Some in Hi. destruct Hi as (Hi0 & _).
      intros j ph' Hj Hph'. apply lookup_app_Some in Hj.
      destruct Hj as [Hj | (Hgej & Hj)]; [destruct (Hnone j ph' Hj Hph')|].
      apply list_lookup_singleton_Some in Hj. destruct Hj as (Hj0 & _). lia.
  - destruct (calls c !! i) as [[| | | | |]|] eqn:Ei; inversion Hstep; subst c'.
    eapply serialised_leave; [exact Hser | exact Ei | exact I | intros []].
  - destruct (calls c !! i) as [[| | | | |]|] eqn:Ei; inversion Hstep; subst c'.
    eapply serialised_leave; [exact Hser | exact Ei | exact I | intros []].
  - (* EvSpawned *)
    destruct (calls c !! i) as [[| | | | |]|] eqn:Ei; inversion Hstep; subst c'; clear Hstep.
    apply (serialised_advance c i PSpawn PHandshake (Start_store_cancel cancel (runner c))
             Hser Ei I eq_refl).
  - (* EvHandshake *)
    destruct (calls c !! i) as [[| | | | |]|] eqn:Ei; try discriminate Hstep.
    destruct (select_handshake out) as [port|e|]; inversion Hstep; subst c'; clear Hstep.
    + eapply serialised_advance; [exact Hser | exact Ei | exact I | reflexivity].
    + eapply serialised_leave; [exact Hser | exact Ei | exact I | intros []].
    + eapply serialised_leave; [exact Hser | exact Ei | exact I | intros []].
  - (* EvDial *)
    destruct (calls c !! i) as [[| | | | |]|] eqn:Ei; try discriminate Hstep.
    destruct failure as [cause|]; inversion Hstep; subst c'; clear Hstep.
    + eapply serialised_leave; [exact Hser | exact Ei | exact I | intros []].
    + eapply serialised_advance; [exact Hser | exact Ei | exact I | reflexivity].
  - (* EvConnected *)
    destruct (calls c !! i) as [[| | |cl| |]|] eqn:Ei; inversion Hstep; subst c'; clear Hstep.
    eapply serialised_leave; [exact Hser | exact Ei | exact I | intros []].
  - (* EvReturn *)
    destruct (calls c !! i) as [[| | | | |]|] eqn:Ei; inversion Hstep; subst c'; clear Hstep.
    intros j ph Hj Hph. simpl in *.
    apply list_lookup_insert_Some in Hj. destruct Hj as [(_ & <- & _) | (Hne & Hj)];
      [destruct Hph|].
    destruct (Hser j ph Hj Hph) as [Hs Huniq]. split; [exact Hs|].
    intros k ph' Hk Hph'. apply list_lookup_insert_Some in Hk.
    destruct Hk as [(_ & <- & _) | (_ & Hk)]; [destruct Hph'|].
    exact (Huniq k ph' Hk Hph').
  - destruct Hev.
  - (* EvExit *)
    destruct (monitors c) as [|n]; [discriminate Hstep|].
    unfold monitor_locked in Hstep.
    destruct (Runner.done (runner c)) as [[|]|]; try discriminate Hstep;
      destruct (bool_decide (Runner.state (runner c) = StateRunning)) eqn:E;
      inversion Hstep; subst c'; clear Hstep;
      (apply (serialised_same_calls c); [exact Hser | reflexivity |]);
      try (left; reflexivity);
      right; apply bool_decide_eq_true_1 in E; rewrite E; discriminate.
  - (* EvProbe *)
    destruct (bool_decide (Runner.state (runner c) = StateRunning));
      inversion Hstep; subst c'; clear Hstep;
      (apply (serialised_same_calls c); [exact Hser | reflexivity | left; reflexivity]).
  - (* EvProbeResult *)
    destruct failure as [e|]; [destruct Hev|].
    destruct (probes c) as [|n]; [discriminate Hstep|].
    inversion Hstep; subst c'; clear Hstep.
    apply (serialised_same_calls c); [exact Hser | reflexivity | left; reflexivity].
Qed.

Lemma serialised_run m baseDir evs c :
  Forall undisturbed evs -> run (init m baseDir) evs = Some c -> serialised c.
Proof.
  revert c. induction evs as [|ev evs IH] using rev_ind; intros c Hevs Hrun.
  - inversion Hrun. intros i ph Hi. simpl in Hi. rewrite lookup_nil in Hi. discriminate Hi.
  - apply Forall_app in Hevs as [Hevs Hev]. apply Forall_cons in Hev as [Hev _].
    rewrite run_snoc in Hrun.
    destruct (run (init m baseDir) evs) as [c0|]; [|discriminate Hrun].
    eapply serialised_step; [exact Hev | apply IH; [exact Hevs | reflexivity] | exact Hrun].
Qed.

(** X21.  The state guard serialises the calls of [Start] that are on their
    way to Running.  As long as nobody calls [Stop] and no health probe fails,
    however many callers enter [Start] and however their steps interleave with
    each other and with process exits, at most one call at any time is
    spawning, waiting for the port, dialling or connecting, and while it is
    the runner is Starting; every other call has returned or has failed.  A
    call that has failed and has yet to read [r.err] and return is still
    inside [Start], and the next call may be on its way by then: the guard
    does not keep these two apart. *)
Theorem Start_calls_are_serialised :
  forall (m : Manifest.t) (baseDir : string) (evs : list Event) (c : Config),
    Forall undisturbed evs ->
    run (init m baseDir) evs = Some c ->
    forall i ph,
      calls c !! i = Some ph -> in_flight ph ->
      Runner.state (runner c) = StateStarting
      /\ forall j ph', calls c !! j = Some ph' -> in_flight ph' -> j = i.
Proof.
  intros m baseDir evs c Hevs Hrun. exact (serialised_run m baseDir evs c Hevs Hrun).
Qed.

Lemma Start_calls_are_serialised_witness :
  exists c,
    run (init s1_manifest ".")
      [EvStart; EvSpawnFail 0 (errorString "no such file"); EvStart; EvStart;
       EvSpawned 1 1%nat] = Some c
    /\ calls c = [PFailed; PHandshake; PReturned None]
    /\ Runner.state (runner c) = StateStarting
    /\ forall j ph', calls c !! j = Some ph' -> in_flight ph' -> j = 1%nat.
Proof.
  eexists. split; [vm_compute; reflexivity|]. split; [reflexivity|].
  apply (Start_calls_are_serialised s1_manifest "."
           [EvStart; EvSpawnFail 0 (errorString "no such file"); EvStart; EvStart;
            EvSpawned 1 1%nat] _
           ltac:(repeat constructor) eq_refl 1%nat PHandshake eq_refl I).
Defined.

(** ** The agent endpoints *)

Lemma TrimPrefix_app p s : TrimPrefix (p +:+ s) p = s.
Proof. unfold TrimPrefix. rewrite strip_prefix_app. reflexivity. Qed.

Lemma Index_slash_no_slash_cons c s :
  no_slash (String c s) -> Ascii.eqb c "/" = false /\ no_slash s.
Proof.
  unfold no_slash. simpl. destruct (Ascii.eqb c "/"); [discriminate|]. intros H.
  split; [reflexivity|]. destruct (Z.ltb_spec (Index_slash s) 0) as [Hlt|Hge]; [|lia].
  clear H. induction s as [|d s IH]; [reflexivity|]. simpl in *.
  destruct (Ascii.eqb d "/"); [lia|].
  destruct (Z.ltb_spec (Index_slash s) 0); [reflexivity | lia].
Qed.

Lemma Index_slash_app name rest :
  no_slash name ->
  Index_slash (name +:+ String "/" rest) = Z.of_nat (String.length name).
Proof.
  induction name as [|c name IH]; intros Hno.
  - reflexivity.
  - apply Index_slash_no_slash_cons in Hno as [Hc Hno].
    rewrite append_String. cbn [Index_slash String.length]. rewrite Hc, (IH Hno).
    destruct (Z.ltb_spec (Z.of_nat (String.length name)) 0); lia.
Qed.

Lemma slice_to_app name rest :
  slice_to (name +:+ rest) (Z.of_nat (String.length name)) = name.
Proof.
  unfold slice_to. rewrite Nat2Z.id. induction name as [|c name IH].
  - rewrite append_empty_l. destruct rest; reflexivity.
  - rewrite append_String. simpl. rewrite IH. reflexivity.
Qed.

Lemma HasSuffix_app s suffix : HasSuffix (s +:+ suffix) suffix = true.
Proof.
  induction s as [|c s IH].
  - rewrite append_empty_l. destruct suffix; simpl; rewrite ?String.eqb_refl, ?Ascii.eqb_refl;
      reflexivity.
  - rewrite append_String. cbn [HasSuffix].
    destruct (String.eqb (String c (s +:+ suffix)) suffix); [reflexivity | exact IH].
Qed.

Lemma handleAgent_name mgr name :
  no_slash name ->
  handleAgent mgr "GET" (agents_prefix +:+ name)
  = match Manager.runners mgr !! name with
    | None => {| code := StatusNotFound; body := ErrorBody "agent not found" |}
    | Some r => {| code := StatusOK; body := StatusBody (Status r) |}
    end.
Proof.
  intros Hno. unfold handleAgent. rewrite TrimPrefix_app. cbv zeta. rewrite Hno.
  change (0 <=? -1) with false. cbv iota. change (String.eqb "GET" "GET") with true.
  cbv iota. unfold Manager_AgentStatus.
  destruct (Manager.runners mgr !! name); reflexivity.
Qed.

Lemma handleAgent_name_rest mgr name rest :
  no_slash name ->
  handleAgent mgr "GET" (agents_prefix +:+ name +:+ String "/" rest)
  = match Manager.runners mgr !! name with
    | None => {| code := StatusNotFound; body := ErrorBody "agent not found" |}
    | Some r => {| code := StatusOK; body := StatusBody (Status r) |}
    end.
Proof.
  intros Hno. unfold handleAgent. rewrite TrimPrefix_app. cbv zeta.
  rewrite (Index_slash_app name rest Hno).
  destruct (Z.leb_spec 0 (Z.of_nat (String.length name))) as [_|Hlt]; [|lia].
  rewrite slice_to_app. change (String.eqb "GET" "GET") with true.
  cbv iota. unfold Manager_AgentStatus.
  destruct (Manager.runners mgr !! name); reflexivity.
Qed.

Lemma SplitN_slash_2_app name rest :
  no_slash name -> nth 0 (SplitN_slash_2 (name +:+ String "/" rest)) "" = name.
Proof.
  intros Hno. unfold SplitN_slash_2. cbv zeta. rewrite (Index_slash_app name rest Hno).
  destruct (Z.ltb_spec (Z.of_nat (String.length name)) 0) as [Hlt|_]; [lia|].
  simpl. apply slice_to_app.
Qed.

Lemma SplitN_slash_2_len s : (len (SplitN_slash_2 s) =? 0) = false.
Proof. unfold SplitN_slash_2. cbv zeta. destruct (Index_slash s <? 0); reflexivity. Qed.

Lemma eqb_no_slash q rest t :
  no_slash t -> String.eqb (q +:+ String "/" rest) t = false.
Proof.
  revert t. induction q as [|c q IH]; intros t Hno.
  - rewrite append_empty_l. destruct t as [|d t]; [reflexivity|].
    apply Index_slash_no_slash_cons in Hno as [Hd _]. cbn [String.eqb].
    rewrite Ascii.eqb_sym, Hd. reflexivity.
  - rewrite append_String. destruct t as [|d t]; [reflexivity|].
    apply Index_slash_no_slash_cons in Hno as [_ Hno]. cbn [String.eqb].
    rewrite (IH t Hno). destruct (Ascii.eqb c d); reflexivity.
Qed.

(** Whether a path ends in [/tasks] is decided from its last slash on. *)
Lemma HasSuffix_after_slash p rest :
  HasSuffix (p +:+ String "/" rest) "/tasks" = HasSuffix (String "/" rest) "/tasks".
Proof.
  induction p as [|c p IH].
  - rewrite append_empty_l. reflexivity.
  - rewrite append_String.
    change (HasSuffix (String c (p +:+ String "/" rest)) "/tasks")
      with (if String.eqb (String c (p +:+ String "/" rest)) "/tasks" then true
            else HasSuffix (p +:+ String "/" rest) "/tasks").
    change (String.eqb (String c (p +:+ String "/" rest)) "/tasks")
      with (if Ascii.eqb c "/" then String.eqb (p +:+ String "/" rest) "tasks" else false).
    rewrite (eqb_no_slash p rest "tasks" eq_refl), IH.
    destruct (Ascii.eqb c "/"); reflexivity.
Qed.

Lemma HasSuffix_no_slash s x : no_slash s -> HasSuffix s (String "/" x) = false.
Proof.
  induction s as [|c s IH]; intros Hno; [reflexivity|].
  apply Index_slash_no_slash_cons in Hno as [Hc Hno].
  cbn [HasSuffix String.eqb]. rewrite Hc. exact (IH Hno).
Qed.

Lemma HasSuffix_agent_path name :
  no_slash name -> HasSuffix (agents_prefix +:+ name) "/tasks" = String.eqb name "tasks".
Proof.
  intros Hno.
  change (agents_prefix +:+ name) with ("/api/v1/agents" +:+ String "/" name).
  rewrite HasSuffix_after_slash.
  change (HasSuffix (String "/" name) "/tasks")
    with (if String.eqb name "tasks" then true else HasSuffix name "/tasks").
  rewrite (HasSuffix_no_slash name "tasks" Hno).
  destruct (String.eqb name "tasks"); reflexivity.
Qed.

Lemma HasSuffix_agent_path_rest name rest :
  HasSuffix (agents_prefix +:+ name +:+ String "/" rest) "/tasks"
  = HasSuffix (String "/" rest) "/tasks".
Proof. rewrite <- append_assoc. apply HasSuffix_after_slash. Qed.

Lemma authMiddleware_authorized cr next : authorized cr -> authMiddleware cr next = next.
Proof.
  unfold authorized, authMiddleware. cbv zeta. intros [H | [H | H]].
  - rewrite H, String.eqb_refl. reflexivity.
  - rewrite H. destruct (negb _); reflexivity.
  - rewrite H, orb_true_r. destruct (negb _); reflexivity.
Qed.

Lemma authMiddleware_unauthorized cr next :
  ~ authorized cr ->
  authMiddleware cr next = Ok {| code := StatusUnauthorized; body := UnauthorizedBody |}.
Proof.
  unfold authorized, authMiddleware. cbv zeta. intros Hno.
  destruct (String.eqb_spec (TrimPrefix (Authorization cr) "Bearer ") (BearerToken cr))
    as [Heq|_]; [destruct Hno; left; exact Heq|].
  destruct (HasPrefix (Referer cr) "http://127.0.0.1:") eqn:H1;
    [destruct Hno; right; left; reflexivity|].
  destruct (HasPrefix (Referer cr) "http://localhost:") eqn:H2;
    [destruct Hno; right; right; reflexivity|].
  reflexivity.
Qed.

Lemma handleAgentTasks_GET mgr Path decoded task_id call :
  handleAgentTasks mgr "GET" Path decoded task_id call
  = Ok {| code := StatusMethodNotAllowed; body := MethodNotAllowedBody |}.
Proof. reflexivity. Qed.

(** X22.  The agent endpoints stand behind [authMiddleware] and address a
    runner by the name in the path.  A request whose [Authorization] header,
    less a leading [Bearer ], is not the configured token, and whose [Referer]
    is no page of the local web UI, is answered 401 whatever its method and
    path.  For a request that passes and a name that is not empty and holds
    no slash: a GET of the agent's path answers 200 with the status of the
    runner of that name, or 404 when there is none, except for the name
    [tasks], whose path ends in [/tasks] and is answered 405; a GET with
    further segments answers as the GET of the name alone, unless the path
    ends in [/tasks], which is answered 405.  A POST of a task with a skill to
    the agent's [/tasks] path reaches [Execute] of that runner: 200 with the
    events when it succeeds, 500 with the error text when it fails.  An
    unknown agent is 404 for a GET but 500 for a task, and a task without a
    skill is refused with 400 before any agent is looked up. *)
Theorem agent_endpoints_route_by_name :
  forall (cr : Credentials) (mgr : Manager.t) (name : string),
    name <> "" -> no_slash name ->
    (~ authorized cr ->
     forall Method Path decoded task_id call,
       agents_route cr mgr Method Path decoded task_id call
       = Ok {| code := StatusUnauthorized; body := UnauthorizedBody |})
    /\ (authorized cr ->
        (forall decoded task_id call,
            agents_route cr mgr "GET" (agents_prefix +:+ name) decoded task_id call
            = if String.eqb name "tasks"
              then Ok {| code := StatusMethodNotAllowed; body := MethodNotAllowedBody |}
              else
                match Manager.runners mgr !! name with
                | None => Ok {| code := StatusNotFound; body := ErrorBody "agent not found" |}
                | Some r => Ok {| code := StatusOK; body := StatusBody (Status r) |}
                end)
        /\ (forall rest decoded task_id call,
            agents_route cr mgr "GET" (agents_prefix +:+ name +:+ String "/" rest)
              decoded task_id call
            = if HasSuffix (String "/" rest) "/tasks"
              then Ok {| code := StatusMethodNotAllowed; body := MethodNotAllowedBody |}
              else
                match Manager.runners mgr !! name with
                | None => Ok {| code := StatusNotFound; body := ErrorBody "agent not found" |}
                | Some r => Ok {| code := StatusOK; body := StatusBody (Status r) |}
                end)
        /\ (forall form task_id call,
            form_Skill form <> "" ->
            agents_route cr mgr "POST" (agents_prefix +:+ name +:+ "/tasks") (inr form)
              task_id call
            = match Manager.runners mgr !! name with
              | None =>
                  Ok {| code := StatusInternalServerError;
                        body := ErrorBody ("unknown agent: " +:+ name) |}
              | Some r =>
                  match (Execute r (call (TaskRequest.mk task_id (form_Skill form)
                                            (form_Input form) (form_Metadata form)))).1 with
                  | Ok (events, None) =>
                      Ok {| code := StatusOK; body := TaskBody task_id events |}
                  | Ok (events, Some err) =>
                      Ok {| code := StatusInternalServerError; body := ErrorBody (Error err) |}
                  | Err e => Err e
                  | Panic => Panic
                  | OutOfFuel => OutOfFuel
                  end
              end)
        /\ (forall form task_id call,
            form_Skill form = "" ->
            agents_route cr mgr "POST" (agents_prefix +:+ name +:+ "/tasks") (inr form)
              task_id call
            = Ok {| code := StatusBadRequest; body := ErrorBody "skill is required" |})).
Proof.
  intros cr mgr name Hne Hno. split.
  { intros Hun Method Path decoded task_id call. unfold agents_route.
    apply authMiddleware_unauthorized. exact Hun. }
  intros Hauth.
  assert (Hroute : forall decoded task_id call,
    agents_route cr mgr "POST" (agents_prefix +:+ name +:+ "/tasks") decoded task_id call
    = match decoded with
      | inl err => Ok {| code := StatusBadRequest; body := ErrorBody (Error err) |}
      | inr form =>
          if String.eqb (form_Skill form) ""
          then Ok {| code := StatusBadRequest; body := ErrorBody "skill is required" |}
          else
            let! routed := (RouteTask mgr name
                              (call (TaskRequest.mk task_id (form_Skill form)
                                       (form_Input form) (form_Metadata form)))).1 in
            let '(events, err) := routed in
            match err with
            | Some err =>
                Ok {| code := StatusInternalServerError; body := ErrorBody (Error err) |}
            | None => Ok {| code := StatusOK; body := TaskBody task_id events |}
            end
      end).
  { intros decoded task_id call. unfold agents_route.
    rewrite (authMiddleware_authorized _ _ Hauth).
    replace (agents_prefix +:+ name +:+ "/tasks") with ((agents_prefix +:+ name) +:+ "/tasks")
      by (unfold agents_prefix; rewrite !append_String, append_empty_l; reflexivity).
    rewrite HasSuffix_app.
    replace ((agents_prefix +:+ name) +:+ "/tasks") with (agents_prefix +:+ name +:+ "/tasks")
      by (unfold agents_prefix; rewrite !append_String, append_empty_l; reflexivity).
    unfold handleAgentTasks. change (String.eqb "POST" "POST") with true. cbv iota.
    rewrite TrimPrefix_app. cbv zeta.
    change (name +:+ "/tasks") with (name +:+ String "/" "tasks").
    rewrite SplitN_slash_2_len, (SplitN_slash_2_app name "tasks" Hno).
    destruct (String.eqb_spec name "") as [Heq|_]; [destruct (Hne Heq)|]. reflexivity. }
  split; [|split; [|split]].
  - intros decoded task_id call. unfold agents_route.
    rewrite (authMiddleware_authorized _ _ Hauth), (HasSuffix_agent_path name Hno).
    destruct (String.eqb name "tasks"); [apply handleAgentTasks_GET|].
    rewrite handleAgent_name by exact Hno.
    destruct (Manager.runners mgr !! name); reflexivity.
  - intros rest decoded task_id call. unfold agents_route.
    rewrite (authMiddleware_authorized _ _ Hauth), HasSuffix_agent_path_rest.
    destruct (HasSuffix (String "/" rest) "/tasks"); [apply handleAgentTasks_GET|].
    rewrite handleAgent_name_rest by exact Hno.
    destruct (Manager.runners mgr !! name); reflexivity.
  - intros form task_id call Hskill. rewrite Hroute.
    destruct (String.eqb_spec (form_Skill form) "") as [Heq|_]; [destruct (Hskill Heq)|].
    rewrite RouteTask_result.
    destruct (Manager.runners mgr !! name) as [r|]; [|reflexivity].
    destruct (Execute r _).1 as [[events [err|]]| | |]; reflexivity.
  - intros form task_id call Hskill. rewrite Hroute, Hskill. reflexivity.
Qed.

Lemma agent_endpoints_route_by_name_witness :
  agents_route wrong_token (NewManager (Registry.mk [alpha_manifest] ∅ ".")) "GET"
    "/api/v1/agents/alpha" (inl (errorString "EOF")) "task-00"
    (fun _ => inl (errorString "connection refused"))
  = Ok {| code := StatusUnauthorized; body := UnauthorizedBody |}
  /\ agents_route with_token (NewManager (Registry.mk [alpha_manifest] ∅ ".")) "GET"
       "/api/v1/agents/alpha" (inl (errorString "EOF")) "task-00"
       (fun _ => inl (errorString "connection refused"))
     = Ok {| code := StatusOK;
             body := StatusBody
                       (AgentStatus.mk "alpha" "stopped" ["summarize"; "echo"] 0 "") |}
  /\ agents_route with_token (NewManager (Registry.mk [alpha_manifest] ∅ ".")) "GET"
       "/api/v1/agents/alpha/tasks" (inl (errorString "EOF")) "task-00"
       (fun _ => inl (errorString "connection refused"))
     = Ok {| code := StatusMethodNotAllowed; body := MethodNotAllowedBody |}
  /\ agents_route with_token (NewManager (Registry.mk [alpha_manifest] ∅ ".")) "POST"
       "/api/v1/agents/alpha/tasks" (inr {| form_Skill := "echo"; form_Input := "hi";
                                            form_Metadata := None |})
       "task-00" (fun _ => inl (errorString "connection refused"))
     = Ok {| code := StatusInternalServerError;
             body := ErrorBody "agent alpha is not running (state: stopped)" |}.
Proof.
  assert (Hno : ~ authorized wrong_token).
  { intros [H | [H | H]]; discriminate H. }
  assert (Hyes : authorized with_token) by (left; reflexivity).
  destruct (agent_endpoints_route_by_name wrong_token
              (NewManager (Registry.mk [alpha_manifest] ∅ "."))
              "alpha" ltac:(discriminate) eq_refl) as [H401 _].
  destruct (agent_endpoints_route_by_name with_token
              (NewManager (Registry.mk [alpha_manifest] ∅ "."))
              "alpha" ltac:(discriminate) eq_refl) as [_ H].
  destruct (H Hyes) as (Hget & Hrest & Hpost & _).
  split; [exact (H401 Hno _ _ _ _ _)|]. split; [exact (Hget _ _ _)|].
  split; [exact (Hrest "tasks" _ _ _)|].
  exact (Hpost {| form_Skill := "echo"; form_Input := "hi"; form_Metadata := None |}
           "task-00" (fun _ => inl (errorString "connection refused"))
           ltac:(discriminate)).
Defined.
